(** * go-weave/models/rescan.go: stack re-scanning with write barriers

    A model of the concurrent re-scanning experiment of [rescan.go]: a
    six-slot memory (nil slot, one stack slot per mutator, three heap
    objects), a recursive marker with explicit yield points, a write
    barrier with two policies, and a final check that everything
    reachable is marked.

    The Go program is a cooperative multi-threaded program: control only
    changes hands at [sched.Sched()] (and when a thread blocks or ends).
    It is embedded as a small-step machine.  Every thread is the list of
    statements it still has to run; [exec] runs the first one; [step]
    adds the scheduler.  Slices are lists read with [!!] and written with
    [<[_:=_]>]; an index out of range is the Go run-time panic. *)

From stdpp Require Import base relations list.
From Stdlib Require Import Lia.

Set Default Proof Using "Type".
Set Warnings "-clear-no-such-hyp".
Set Warnings "-level-tolerance".

(** ** Data model *)

(** [type ptr int]: an index into [mem]; 0 is the nil pointer.  All
    pointers of a run are below [len(mem) = 6], so [nat] is exact. *)
Abbreviation ptr := nat (only parsing).

(** [type obj struct { l, r ptr }] *)
Record obj := Obj { l : ptr; r : ptr }.

Definition numThreads : nat := 2.
Definition stackBase : ptr := 1.
Definition globalRoot : ptr := stackBase + numThreads.

(** [make([]obj, 6)] in [main]. *)
Definition memSize : nat := 6.

(** Modelled from the spec: [weave.RWMutex] is not part of the sources.
    A single shared/exclusive lock: several holders of the shared mode,
    one holder of the exclusive mode, and acquiring the exclusive mode
    waits until every shared holder has released. *)
Record rwmutex := RWMutex { readers : nat; writer : bool }.

(** The package-level variables [mem], [marked], [scanClock], [world]. *)
Record state := State {
  mem : list obj;
  marked : list bool;
  scanClock : nat;
  world : rwmutex
}.

(** The two build-time constants [writeMarks] and [writeRestarts]. *)
Record policy := Policy { writeMarks : bool; writeRestarts : bool }.

(** The configuration of the source file. *)
Definition transitive_mark : policy := Policy true false.
Definition scan_restart : policy := Policy false true.
Definition no_barrier : policy := Policy false false.

(** ** Results *)

Inductive fault :=
| ObjectNotMarked (p : ptr)   (* panic("object not marked: p") in checkmark *)
| NotReached                  (* panic("not reached") *)
| IndexOutOfRange             (* Go run-time panic of a slice access *)
| FuelExhausted.              (* recursion bound of the model, see [mark1_spec] *)

Inductive result (A : Type) :=
| Ok (a : A)
| Panic (f : fault).
Arguments Ok {A} a.
Arguments Panic {A} f.

#[global] Instance result_ret : MRet result := λ A a, Ok a.
#[global] Instance result_bind : MBind result := λ A B f m,
  match m with
  | Ok a => f a
  | Panic e => Panic e
  end.

(** [s[i]] on a slice: a panic when [i] is out of range. *)
Definition index {A} (s : list A) (i : nat) : result A :=
  match s !! i with
  | Some a => Ok a
  | None => Panic IndexOutOfRange
  end.

Definition set_l (o : obj) (v : ptr) : obj := Obj v (r o).

(** ** Graph construction *)

(** [ambHeapPointer], with [x] the value returned by
    [sched.Amb(len(mem) - int(globalRoot) + 1)]. *)
Definition ambHeapPointer (x : nat) : ptr :=
  if x =? 0 then 0 else (x - 1) + globalRoot.

(** The number of alternatives [ambHeapPointer] asks [sched.Amb] for. *)
Definition ambHeapChoices (len : nat) : nat := len - globalRoot + 1.

(** One round of the construction loop, for slot [i]; [xs] are the
    values [sched.Amb] still has to return. *)
Definition build_slot (len i : nat) (xs : list nat) : option (obj * list nat) :=
  match xs with
  | [] => None
  | x :: xs =>
      if x <? ambHeapChoices len then
        if globalRoot <=? i then
          match xs with
          | [] => None
          | y :: xs =>
              if y <? ambHeapChoices len
              then Some (Obj (ambHeapPointer x) (ambHeapPointer y), xs)
              else None
          end
        else Some (Obj (ambHeapPointer x) 0, xs)
      else None
  end.

(** [for i := 1; i < len(mem); i++], [n] rounds starting at slot [i];
    returns the slots [i .. i+n-1]. *)
Fixpoint build_from (len n i : nat) (xs : list nat) : option (list obj) :=
  match n with
  | 0 => match xs with [] => Some [] | _ => None end
  | S n =>
      match build_slot len i xs with
      | None => None
      | Some (o, xs) => (o ::.) <$> build_from len n (S i) xs
      end
  end.

(** The memory [main] creates from the choices [xs]: slot 0 stays the
    zero object. *)
Definition build_mem (xs : list nat) : option (list obj) :=
  (Obj 0 0 ::.) <$> build_from memSize (memSize - 1) 1 xs.

(** ** The marker without yields

    [mark(p, marked, "")] as [ambReachableHeapPointer] calls it: the
    name is empty, so no [sched.Sched()] is executed and the call is one
    atomic computation on the slice it is given.  The recursion is
    bounded by [fuel]; [mark_quiet_total] shows that [length mem + 1]
    is never exhausted. *)
Fixpoint mark_quiet (fuel : nat) (m : list obj) (p : ptr) (mk : list bool)
  : result (list bool) :=
  match fuel with
  | 0 => Panic FuelExhausted
  | S fuel =>
      if p =? 0 then Ok mk else
      b ← index mk p;
      if b : bool then Ok mk else
      let mk := <[p := true]> mk in
      o ← index m p;
      mk ← mark_quiet fuel m (l o) mk;
      o ← index m p;
      mark_quiet fuel m (r o) mk
  end.

(** ** The invariant checker *)

(** The closure [mark1] of [checkmark]; [mk] is the global [marked]. *)
Fixpoint mark1 (fuel : nat) (m : list obj) (mk : list bool) (p : ptr)
  (checkmarked : list bool) : result (list bool) :=
  match fuel with
  | 0 => Panic FuelExhausted
  | S fuel =>
      if p =? 0 then Ok checkmarked else
      b ← index mk p;
      if negb b then Panic (ObjectNotMarked p) else
      c ← index checkmarked p;
      if c : bool then Ok checkmarked else
      let checkmarked := <[p := true]> checkmarked in
      o ← index m p;
      checkmarked ← mark1 fuel m mk (l o) checkmarked;
      o ← index m p;
      mark1 fuel m mk (r o) checkmarked
  end.

Definition walk_fuel (m : list obj) : nat := S (length m).

(** [checkmark(p)]: only the local slice [checkmarked] is written. *)
Definition checkmark (g : state) (p : ptr) : result unit :=
  _ ← mark1 (walk_fuel (mem g)) (mem g) (marked g) p
        (replicate (length (mem g)) false);
  Ok tt.

(** ** Ambiguous reachable heap pointers *)

(** [for _, m := range reachable[globalRoot:] { if m { nreachable++ } }] *)
Fixpoint count_marked (ms : list bool) : nat :=
  match ms with
  | [] => 0
  | m :: ms => (if m then 1 else 0) + count_marked ms
  end.

(** The selection loop of [ambReachableHeapPointer]; [i] is the loop
    index and [x] the remaining count. *)
Fixpoint select_marked (ms : list bool) (i x : nat) : result ptr :=
  match ms with
  | [] => Panic NotReached
  | m :: ms =>
      if m : bool then
        if x =? 0 then Ok (globalRoot + i) else select_marked ms (S i) (x - 1)
      else select_marked ms (S i) x
  end.

(** The scratch mark set of [ambReachableHeapPointer]. *)
Definition reachable_set (m : list obj) : result (list bool) :=
  mark_quiet (walk_fuel m) m globalRoot (replicate (length m) false).

(** [nreachable], the argument of [sched.Amb]. *)
Definition nreachable (m : list obj) : result nat :=
  rs ← reachable_set m; Ok (count_marked (drop globalRoot rs)).

(** [ambReachableHeapPointer], with [x] the value [sched.Amb(nreachable)]
    returned. *)
Definition ambReachableHeapPointer (m : list obj) (x : nat) : result ptr :=
  rs ← reachable_set m; select_marked (drop globalRoot rs) 0 x.

(** ** Threads as statement lists

    One constructor per statement of the source that touches shared
    state or the scheduler.  A call is replaced by the statements of the
    callee's body, in front of the caller's remaining statements. *)
Inductive instr :=
| IMark (p : ptr)          (* mark(p, marked, name), name non-empty *)
| IMarkL (s : ptr)         (* mark(mem[s].l, marked, name) *)
| IMarkR (p : ptr)         (* mark(mem[p].r, marked, name) *)
| ISched                   (* sched.Sched() *)
| IGo (id : nat)           (* sched.Go(func() { mutator(id) }) *)
| IScan                    (* for scanClock < numThreads { ... } *)
| ILock                    (* world.Lock() *)
| IUnlock                  (* world.Unlock() *)
| IRLock                   (* world.RLock() *)
| IRUnlock                 (* world.RUnlock() *)
| ICheckmark (p : ptr)     (* checkmark(p) *)
| ICheckStack (i : nat)    (* checkmark(mem[stackBase+ptr(i)].l) *)
| IRestart (val : ptr)     (* if !marked[val] { scanClock = 0 } *)
| IStore (slot val : ptr)  (* mem[slot].l = mem[val].l *)
| IPublish (id : nat)      (* obj := ambReachableHeapPointer(); wbarrier(obj, sptr) *)
| ILoad (id : nat).        (* obj = ambReachableHeapPointer(); mem[sptr].l = mem[obj].l *)

Definition code := list instr.

#[global] Instance instr_eq_dec : EqDecision instr.
Proof. solve_decision. Defined.

(** The body of [wbarrier(slot, val)]. *)
Definition wbarrier (pol : policy) (slot val : ptr) : code :=
  (if val =? 0 then [] else
     (if writeMarks pol then [IRLock; IMarkL val; IRUnlock] else []) ++
     (if writeRestarts pol then [IRestart val] else [])) ++
  [IStore slot val; ISched].

(** The body of [mutator(id)]; the call of [wbarrier] is unfolded when
    [IPublish] runs, once [obj] is known. *)
Definition mutator (id : nat) : code := [IPublish id; ILoad id; ISched].

(** The function [main] hands to [sched.Run], after the memory is built
    and [marked], [scanClock] and [world] are reset. *)
Definition main_body : code :=
  [IMark globalRoot] ++ (IGo <$> seq 0 numThreads) ++
  [IScan; ILock; ICheckmark globalRoot] ++
  (ICheckStack <$> seq 0 numThreads) ++ [IUnlock].

Definition set_marked (g : state) (mk : list bool) : state :=
  State (mem g) mk (scanClock g) (world g).
Definition set_mem (g : state) (m : list obj) : state :=
  State m (marked g) (scanClock g) (world g).
Definition set_scanClock (g : state) (n : nat) : state :=
  State (mem g) (marked g) n (world g).
Definition set_world (g : state) (w : rwmutex) : state :=
  State (mem g) (marked g) (scanClock g) w.

(** What running one statement does to the running thread. *)
Inductive outcome :=
| Continue (g : state) (k : code)          (* goes on with [k] *)
| Yield (g : state) (k : code)             (* sched.Sched() was called *)
| Wait                                     (* blocked on [world], retried later *)
| Fork (g : state) (k : code) (body : code)(* a new thread runs [body] *)
| Abort (f : fault)                        (* the run panics *)
| Refuse.                                  (* [x] is no value of sched.Amb *)

Definition continue (r : result (state * code)) : outcome :=
  match r with
  | Ok (g, k) => Continue g k
  | Panic f => Abort f
  end.

(** [exec pol x g i k]: thread with statements [i :: k] runs [i] in the
    shared state [g]; [x] is what [sched.Amb] returns if [i] asks. *)
Definition exec (pol : policy) (x : nat) (g : state) (i : instr) (k : code)
  : outcome :=
  match i with
  | IMark p =>
      if p =? 0 then Continue g k else
      continue (
        b ← index (marked g) p;
        if b : bool then Ok (g, k) else
        let g := set_marked g (<[p := true]> (marked g)) in
        o ← index (mem g) p;
        Ok (g, IMark (l o) :: ISched :: IMarkR p :: ISched :: k))
  | IMarkL s =>
      continue (o ← index (mem g) s; Ok (g, IMark (l o) :: k))
  | IMarkR p =>
      continue (o ← index (mem g) p; Ok (g, IMark (r o) :: k))
  | ISched => Yield g k
  | IGo id => Fork g k (mutator id)
  | IScan =>
      if scanClock g <? numThreads then
        let g := set_scanClock g (S (scanClock g)) in
        Continue g (IMarkL (stackBase + (scanClock g - 1)) :: IScan :: k)
      else Continue g k
  | ILock =>
      if (readers (world g) =? 0) && negb (writer (world g))
      then Continue (set_world g (RWMutex 0 true)) k
      else Wait
  | IUnlock =>
      Continue (set_world g (RWMutex (readers (world g)) false)) k
  | IRLock =>
      if writer (world g) then Wait
      else Continue (set_world g (RWMutex (S (readers (world g))) false)) k
  | IRUnlock =>
      Continue (set_world g (RWMutex (readers (world g) - 1) (writer (world g)))) k
  | ICheckmark p =>
      continue (_ ← checkmark g p; Ok (g, k))
  | ICheckStack i =>
      continue (o ← index (mem g) (stackBase + i);
                _ ← checkmark g (l o); Ok (g, k))
  | IRestart val =>
      continue (b ← index (marked g) val;
                Ok (if negb b then set_scanClock g 0 else g, k))
  | IStore slot val =>
      continue (o ← index (mem g) val;
                d ← index (mem g) slot;
                Ok (set_mem g (<[slot := set_l d (l o)]> (mem g)), k))
  | IPublish id =>
      match nreachable (mem g) with
      | Panic f => Abort f
      | Ok n =>
          if x <? n then
            continue (obj ← ambReachableHeapPointer (mem g) x;
                      Ok (g, wbarrier pol obj (stackBase + id) ++ k))
          else Refuse
      end
  | ILoad id =>
      match nreachable (mem g) with
      | Panic f => Abort f
      | Ok n =>
          if x <? n then
            continue (obj ← ambReachableHeapPointer (mem g) x;
                      o ← index (mem g) obj;
                      d ← index (mem g) (stackBase + id);
                      Ok (set_mem g (<[stackBase + id := set_l d (l o)]> (mem g)), k))
          else Refuse
      end
  end.

(** ** The scheduler

    Modelled from the spec: [weave.Scheduler] is not part of the
    sources.  One thread runs at a time and keeps running until it
    calls [Sched], blocks, or ends; then it keeps control or any thread
    that has statements left is chosen.  A thread that waits for the
    lock retries when it is chosen. *)
Record config := Config {
  glob : state;
  threads : list code;   (* thread 0 is [main], thread [i+1] is mutator [i] *)
  cur : nat              (* the running thread *)
}.

Inductive step_result :=
| Next (c : config)
| Crash (f : fault)
| NoStep.

Definition runnable (ths : list code) (t : nat) : bool :=
  match ths !! t with
  | Some (_ :: _) => true
  | _ => false
  end.

(** Thread [t] gives up control: it keeps it, or a thread that has
    statements left takes over. *)
Definition switch (g : state) (ths : list code) (t x : nat) : step_result :=
  if (x =? t) || runnable ths x then Next (Config g ths x) else NoStep.

(** One step of the whole program; [x] resolves the choice of the step,
    the next thread at a scheduling point or the value of [sched.Amb]. *)
Definition step (pol : policy) (c : config) (x : nat) : step_result :=
  match threads c !! cur c with
  | None => NoStep
  | Some [] => switch (glob c) (threads c) (cur c) x
  | Some (i :: k) =>
      match exec pol x (glob c) i k with
      | Continue g k => Next (Config g (<[cur c := k]> (threads c)) (cur c))
      | Yield g k => switch g (<[cur c := k]> (threads c)) (cur c) x
      | Wait => switch (glob c) (threads c) (cur c) x
      | Fork g k body =>
          Next (Config g (<[cur c := k]> (threads c) ++ [body]) (cur c))
      | Abort f => Crash f
      | Refuse => NoStep
      end
  end.

(** The state in which [main] starts marking, for a memory [m]. *)
Definition init_state (m : list obj) : state :=
  State m (replicate (length m) false) 0 (RWMutex 0 false).

Definition init_config (m : list obj) : config :=
  Config (init_state m) [main_body] 0.

(** Running a list of choices; stops at the first panic. *)
Fixpoint run (pol : policy) (c : config) (xs : list nat) : step_result :=
  match xs with
  | [] => Next c
  | x :: xs =>
      match step pol c x with
      | Next c => run pol c xs
      | r => r
      end
  end.

(** The trial as a whole: the choices [gs] build the memory. *)
Definition trial (pol : policy) (gs xs : list nat) : step_result :=
  match build_mem gs with
  | None => NoStep
  | Some m => run pol (init_config m) xs
  end.

(** The configurations a trial can be in. *)
Inductive reachable (pol : policy) : config → Prop :=
| reachable_init gs m :
    build_mem gs = Some m → reachable pol (init_config m)
| reachable_step c x c' :
    reachable pol c → step pol c x = Next c' → reachable pol c'.

(** The trial is over: every thread has returned. *)
Definition finished (c : config) : Prop := Forall (λ k, k = []) (threads c).

(** ** One thread on its own

    The statements a thread runs, in order, when no other thread takes
    a turn: [sched.Sched()] returns at once.  Used to state what a call
    does from entry to return.  A thread that would wait for ever, or
    that gets no value from [sched.Amb], does not return. *)
Definition logged (i : instr) (r : result (state * list instr))
  : result (state * list instr) :=
  '(g, tr) ← r; Ok (g, i :: tr).

Fixpoint solo (pol : policy) (fuel : nat) (g : state) (k : code)
  : result (state * list instr) :=
  match fuel with
  | 0 => Panic FuelExhausted
  | S fuel =>
      match k with
      | [] => Ok (g, [])
      | i :: k =>
          match exec pol 0 g i k with
          | Continue g k | Yield g k | Fork g k _ => logged i (solo pol fuel g k)
          | Abort f => Panic f
          | Wait | Refuse => Panic FuelExhausted
          end
      end
  end.

(** The statements of a running [mark] call. *)
Definition mark_instr (i : instr) : Prop :=
  match i with
  | IMark _ | IMarkR _ | ISched => True
  | _ => False
  end.

(** * Vocabulary of the properties *)

(** ** The memory graph *)

(** Every field holds an index of the slice. *)
Definition fields_in_range (m : list obj) : Prop :=
  Forall (λ o, l o < length m ∧ r o < length m) m.

Section Graph.
Context (m : list obj).

(** [q] is the object a field of [p] points to. *)
Definition edge (p q : ptr) : Prop :=
  q ≠ 0 ∧ ∃ o, m !! p = Some o ∧ (l o = q ∨ r o = q).

(** The objects a walk from root [p] over [l] and [r] fields visits. *)
Definition reach (p q : ptr) : Prop := p ≠ 0 ∧ rtc edge p q.

Definition covered (V : list bool) (q : ptr) : Prop :=
  q = 0 ∨ V !! q = Some true.

(** [V] contains the fields of each of its members. *)
Definition closed (V : list bool) : Prop :=
  ∀ x o, V !! x = Some true → m !! x = Some o →
         covered V (l o) ∧ covered V (r o).

Context (mk : list bool).

(** What a call of [mark1] on visited set [V] guarantees. *)
Definition mark1_post (fuel : nat) (p : ptr) (V : list bool)
  (res : result (list bool)) : Prop :=
  match res with
  | Ok V' =>
      length V' = length V ∧
      (∀ i, V !! i = Some true → V' !! i = Some true) ∧
      covered V' p ∧
      count_marked V ≤ count_marked V' ∧
      (∀ x, V' !! x = Some true →
            V !! x = Some true ∨
            (mk !! x = Some true ∧ reach p x ∧
             ∀ o, m !! x = Some o → covered V' (l o) ∧ covered V' (r o)))
  | Panic (ObjectNotMarked q) => reach p q ∧ mk !! q = Some false
  | Panic FuelExhausted => length V < fuel + count_marked V → False
  | Panic _ => False
  end.

End Graph.

(** ** Well-formed states *)

(** Nil or an index of the heap region [mem[globalRoot:]]. *)
Definition heap_ptr (len : nat) (p : ptr) : Prop :=
  p = 0 ∨ (globalRoot ≤ p ∧ p < len).

Definition wf_mem (m : list obj) : Prop :=
  length m = memSize ∧
  Forall (λ o, heap_ptr (length m) (l o) ∧ heap_ptr (length m) (r o)) m.

Definition wf_state (g : state) : Prop :=
  wf_mem (mem g) ∧ length (marked g) = length (mem g).

#[global] Instance heap_ptr_dec len p : Decision (heap_ptr len p).
Proof. unfold heap_ptr. apply _. Defined.
#[global] Instance wf_mem_dec m : Decision (wf_mem m).
Proof. unfold wf_mem. apply _. Defined.
#[global] Instance wf_state_dec g : Decision (wf_state g).
Proof. unfold wf_state. apply _. Defined.

(** ** Runs of one thread *)

(** The shared state an outcome leaves behind. *)
Definition outcome_state (g : state) (oc : outcome) : option state :=
  match oc with
  | Continue g' _ | Yield g' _ | Fork g' _ _ => Some g'
  | Wait => Some g
  | Abort _ | Refuse => None
  end.

Definition log_app (tr : list instr) (r : result (state * list instr))
  : result (state * list instr) :=
  '(g, tr') ← r; Ok (g, tr ++ tr').

(** The part of [wbarrier] that runs before the store. *)
Definition no_store (i : instr) : Prop :=
  match i with
  | IStore _ _ | ILoad _ => False
  | _ => True
  end.

(** The stack slots a thread scans, in the order of the scans. *)
Definition scans (tr : list instr) : list ptr :=
  omap (λ i, match i with IMarkL s => Some s | _ => None end) tr.

(** [q] is reached from [p] along objects that are all unmarked in [mk]. *)
Definition fresh_path (m : list obj) (mk : list bool) (p q : ptr) : Prop :=
  p ≠ 0 ∧ mk !! p ≠ Some true ∧
  rtc (λ a b, edge m a b ∧ mk !! b ≠ Some true) p q.

(** ** The invariant of the transitive-mark policy *)

(** The last [sched.Go] of [main]. *)
Definition last_go : instr := IGo (numThreads - 1).

(** [P j]: some thread still has statement [j] to run. *)
Record logic (g : state) (P : instr → Prop) : Prop := Logic {
  lg_root : marked g !! globalRoot = Some true ∨ P (IMark globalRoot);
  lg_spawned : marked g !! globalRoot = Some true ∨ P last_go;
  lg_cl : ∀ X o, globalRoot ≤ X → marked g !! X = Some true →
    mem g !! X = Some o →
    (covered (marked g) (l o) ∨ P (IMark (l o))) ∧
    (covered (marked g) (r o) ∨ P (IMark (r o)) ∨ P (IMarkR X));
  lg_st : ∀ i o, i < numThreads → mem g !! (stackBase + i) = Some o →
    covered (marked g) (l o) ∨ P (IMark (l o)) ∨ P (IMarkL (stackBase + i)) ∨
    (∃ X oX, P (IMarkR X) ∧ mem g !! X = Some oX ∧ r oX = l o) ∨
    (P IScan ∧ scanClock g ≤ i);
  lg_bw : ∀ i ob o, i < numThreads → P (IStore ob (stackBase + i)) →
    mem g !! (stackBase + i) = Some o →
    covered (marked g) (l o) ∨ P (IMark (l o)) ∨ P (IMarkL (stackBase + i))
}.

(** The statements the invariant speaks about. *)
Definition relevant (j : instr) : Prop :=
  match j with
  | IMark _ | IMarkL _ | IMarkR _ | IScan => True
  | IGo n => n = numThreads - 1
  | _ => False
  end.

Definition is_store (j : instr) : Prop :=
  match j with IStore _ _ => True | _ => False end.

Definition pend (ths : list code) (j : instr) : Prop :=
  ∃ t k, ths !! t = Some k ∧ j ∈ k.

(** Pending in a thread other than [t]. *)
Definition others (ths : list code) (t : nat) (j : instr) : Prop :=
  ∃ t' k, t' ≠ t ∧ ths !! t' = Some k ∧ j ∈ k.

(** The suspended part of a [mark] call: yields and right fields still
    to mark.  After the first mark of the root ([init = false]) the root
    is marked, so no suspended call is [mark(globalRoot)]. *)
Definition frame_ok (init : bool) (j : instr) : Prop :=
  match j with
  | ISched => True
  | IMarkR p => p < memSize ∧ (init = false → p ≠ globalRoot)
  | _ => False
  end.

Definition frames (init : bool) (F : code) : Prop := Forall (frame_ok init) F.

Definition lock_tail : code :=
  [ILock; ICheckmark globalRoot; ICheckStack 0; ICheckStack 1; IUnlock].
Definition scan_tail : code := IScan :: lock_tail.
Definition go_tail : code := IGo 0 :: IGo 1 :: scan_tail.

(** The shapes of [main]: [n] threads exist, [b] tells whether [main] is
    the running thread, [w] whether it holds [world] exclusively. *)
Inductive main_shape (n : nat) : bool → bool → code → Prop :=
| ma_init_mark q F :
    n = 1 → q < memSize → frames true F →
    main_shape n true false (IMark q :: F ++ go_tail)
| ma_init b F :
    n = 1 → frames true F → main_shape n b false (F ++ go_tail)
| ma_go1 : n = 2 → main_shape n true false (IGo 1 :: scan_tail)
| ma_mark q F :
    n = 3 → q < memSize → frames false F →
    main_shape n true false (IMark q :: F ++ scan_tail)
| ma_frames b F :
    n = 3 → frames false F → main_shape n b false (F ++ scan_tail)
| ma_markL i :
    n = 3 → i < numThreads →
    main_shape n true false (IMarkL (stackBase + i) :: scan_tail)
| ma_lock b : n = 3 → main_shape n b false lock_tail
| ma_check1 :
    n = 3 →
    main_shape n true true [ICheckmark globalRoot; ICheckStack 0; ICheckStack 1; IUnlock]
| ma_check2 : n = 3 → main_shape n true true [ICheckStack 0; ICheckStack 1; IUnlock]
| ma_check3 : n = 3 → main_shape n true true [ICheckStack 1; IUnlock]
| ma_unlock : n = 3 → main_shape n true true [IUnlock]
| ma_done b : n = 3 → main_shape n b false [].

Definition heap_index (o : ptr) : Prop := globalRoot ≤ o ∧ o < memSize.

Definition barrier_rest (i : nat) (o : ptr) : code :=
  [IRUnlock; IStore o (stackBase + i); ISched; ILoad i; ISched].

(** The shapes of mutator [i]; [b] tells whether it is running. *)
Inductive mut_shape (i : nat) : bool → code → Prop :=
| mu_start b : mut_shape i b (mutator i)
| mu_rlock o :
    heap_index o →
    mut_shape i true (IRLock :: IMarkL (stackBase + i) :: barrier_rest i o)
| mu_markL o :
    heap_index o → mut_shape i true (IMarkL (stackBase + i) :: barrier_rest i o)
| mu_mark q F o :
    q < memSize → frames false F → heap_index o →
    mut_shape i true (IMark q :: F ++ barrier_rest i o)
| mu_frames b F o :
    frames false F → heap_index o → mut_shape i b (F ++ barrier_rest i o)
| mu_store o :
    heap_index o →
    mut_shape i true [IStore o (stackBase + i); ISched; ILoad i; ISched]
| mu_yield1 : mut_shape i true [ISched; ILoad i; ISched]
| mu_load b : mut_shape i b [ILoad i; ISched]
| mu_yield2 : mut_shape i true [ISched]
| mu_done b : mut_shape i b [].

(** The thread is between [world.RLock()] and [world.RUnlock()]. *)
Definition holding (k : code) : bool :=
  bool_decide (IRUnlock ∈ k) && negb (bool_decide (IRLock ∈ k)).

Fixpoint nholders (ths : list code) : nat :=
  match ths with
  | [] => 0
  | k :: ths => (if holding k then 1 else 0) + nholders ths
  end.

Record shapes_of (g : state) (ths : list code) (run : option nat) : Prop := Shapes {
  sh_main : ∃ km, ths !! 0 = Some km ∧
    main_shape (length ths) (bool_decide (run = Some 0)) (writer (world g)) km;
  sh_mut : ∀ i k, ths !! S i = Some k →
    mut_shape i (bool_decide (run = Some (S i))) k;
  sh_run : ∀ t, run = Some t → t < length ths;
  sh_readers : readers (world g) = nholders ths;
  sh_excl : writer (world g) = true → readers (world g) = 0
}.

(** The invariant of a trial under the transitive-mark policy. *)
Record inv (c : config) : Prop := Inv {
  inv_wf : wf_state (glob c);
  inv_shapes : shapes_of (glob c) (threads c) (Some (cur c));
  inv_logic : logic (glob c) (pend (threads c))
}.

(** A result that is no panic. *)
Definition safe (r : step_result) : Prop :=
  match r with
  | Crash _ => False
  | _ => True
  end.

(** What a statement of a thread that is not running can be, when
    thread [t] runs. *)
Definition susp (t : nat) (j : instr) : Prop :=
  match j with
  | IMark _ | IMarkL _ | IGo _ | IRLock => False
  | IMarkR p => p ≠ globalRoot
  | IStore _ s => ∃ i, s = stackBase + i ∧ S i ≠ t
  | _ => True
  end.

(** The shapes in which a mutator holds the shared lock. *)
Inductive mut_marking (i : nat) : code → Prop :=
| mm_markL o : mut_marking i (IMarkL (stackBase + i) :: barrier_rest i o)
| mm_mark q F o : frames false F → mut_marking i (IMark q :: F ++ barrier_rest i o)
| mm_frames F o : frames false F → mut_marking i (F ++ barrier_rest i o).

Definition thread_shape (n : nat) (w : bool) (t : nat) (b : bool) (k : code)
  : Prop :=
  match t with
  | 0 => main_shape n b w k
  | S i => mut_shape i b k
  end.

(** What a step may lead to. *)
Definition step_ok (r : step_result) : Prop :=
  match r with
  | Next c' => inv c'
  | Crash _ => False
  | NoStep => True
  end.

(** The contexts in which [mark] runs: the suspended part [F] sits in
    front of the statements [T] that follow the outermost call. *)
Record mark_ctx (n : nat) (w : bool) (t : nat) (init : bool) (T : code) : Prop := MarkCtx {
  mc_mark : ∀ q F, q < memSize → frames init F →
    thread_shape n w t true (IMark q :: F ++ T);
  mc_frames : ∀ b F, frames init F → thread_shape n w t b (F ++ T);
  mc_hold : ∀ q F F', frames init F → frames init F' →
    holding (IMark q :: F ++ T) = holding (F' ++ T)
}.

(** ** The graphs [main] builds *)

(** The value [sched.Amb] has to return for [ambHeapPointer] to return [p]. *)
Definition heap_choice (p : ptr) : nat :=
  if p =? 0 then 0 else p - globalRoot + 1.

(** The choices the construction loop consumes for slot [i] to become
    [o]: one for a stack slot, two for a heap object. *)
Definition slot_choices (i : nat) (o : obj) : list nat :=
  if globalRoot <=? i then [heap_choice (l o); heap_choice (r o)]
  else [heap_choice (l o)].

Fixpoint graph_choices_from (i : nat) (os : list obj) : list nat :=
  match os with
  | [] => []
  | o :: os => slot_choices i o ++ graph_choices_from (S i) os
  end.

(** The choices that make [main] build the memory [m]. *)
Definition graph_choices (m : list obj) : list nat :=
  graph_choices_from 1 (drop 1 m).

#[global] Instance obj_eq_dec : EqDecision obj.
Proof. solve_decision. Defined.

(** The memories [main] can start from: six slots, every field nil or a
    heap index, the nil slot zero, and no right field in a stack slot. *)
Definition admissible (m : list obj) : Prop :=
  wf_mem m ∧ m !! 0 = Some (Obj 0 0) ∧
  Forall (λ o, r o = 0) (take globalRoot m).

#[global] Instance admissible_dec m : Decision (admissible m).
Proof. unfold admissible. apply _. Defined.

(** ** Counting yields *)

(** The number of [sched.Sched()] calls among the statements [tr]. *)
Definition yields (tr : list instr) : nat :=
  length (filter (λ i, i = ISched) tr).

(** ** What every policy keeps *)

Definition stack_slot (s : ptr) : Prop := stackBase ≤ s ∧ s < globalRoot.

(** The statements a thread of a trial can have left under policy
    [pol], with the arguments they can have. *)
Definition instr_ok (pol : policy) (j : instr) : Prop :=
  match j with
  | IMark p => heap_ptr memSize p
  | IMarkL s => stack_slot s
  | IMarkR p => heap_index p
  | IGo id | IPublish id | ILoad id | ICheckStack id => id < numThreads
  | ICheckmark p => p = globalRoot
  | IRestart val => writeRestarts pol = true ∧ stack_slot val
  | IStore slot val => heap_index slot ∧ stack_slot val
  | IRLock | IRUnlock => writeMarks pol = true
  | ISched | IScan | ILock | IUnlock => True
  end.

(** The shared state: the memory is well formed, only heap objects are
    marked, the nil slot is zero and the stack slots have no right
    field. *)
Record tidy (g : state) : Prop := Tidy {
  td_wf : wf_state g;
  td_marks : ∀ i, marked g !! i = Some true → globalRoot ≤ i;
  td_nil : mem g !! 0 = Some (Obj 0 0);
  td_stack : ∀ s o, stack_slot s → mem g !! s = Some o → r o = 0
}.

Record sound (pol : policy) (c : config) : Prop := Sound {
  sd_state : tidy (glob c);
  sd_code : Forall (Forall (instr_ok pol)) (threads c)
}.

(** [q] is reachable from a root of the final check: the global root or
    the pointer of a stack slot. *)
Definition from_root (g : state) (q : ptr) : Prop :=
  reach (mem g) globalRoot q ∨
  ∃ s o, stack_slot s ∧ mem g !! s = Some o ∧ reach (mem g) (l o) q.

(** What running a statement in a tidy state leads to. *)
Definition exec_ok (pol : policy) (g : state) (oc : outcome) : Prop :=
  match oc with
  | Continue g' k' | Yield g' k' => tidy g' ∧ Forall (instr_ok pol) k'
  | Fork g' k' body =>
      tidy g' ∧ Forall (instr_ok pol) k' ∧ Forall (instr_ok pol) body
  | Abort f =>
      ∃ q, f = ObjectNotMarked q ∧ marked g !! q = Some false ∧ from_root g q
  | Wait | Refuse => True
  end.

Definition step_sound (pol : policy) (c : config) (r : step_result) : Prop :=
  match r with
  | Next c' => sound pol c'
  | Crash f =>
      ∃ q, f = ObjectNotMarked q ∧ marked (glob c) !! q = Some false ∧
           from_root (glob c) q
  | NoStep => True
  end.

(** ** Work left in a trial *)

(** A statement weighs more than the statements it can be replaced by. *)
Definition weight (j : instr) : nat :=
  match j with
  | IGo _ => 10
  | IPublish _ => 7
  | IMarkL _ | IMarkR _ => 2
  | _ => 1
  end.

Fixpoint code_weight (k : code) : nat :=
  match k with
  | [] => 0
  | i :: k => weight i + code_weight k
  end.

Fixpoint total_weight (ths : list code) : nat :=
  match ths with
  | [] => 0
  | k :: ths => code_weight k + total_weight ths
  end.

(** The number of mark bits that are still false. *)
Definition unmarked (g : state) : nat :=
  length (marked g) - count_marked (marked g).

Definition state_work (g : state) : nat :=
  5 * unmarked g + 3 * (numThreads - scanClock g).

(** What is left to do: statements to run, objects to mark, stacks to
    scan. *)
Definition work (c : config) : nat :=
  total_weight (threads c) + state_work (glob c).

(** The running thread cannot go on: it has returned, or it waits for
    the lock. *)
Definition blocked (c : config) : bool :=
  match threads c !! cur c with
  | Some (i :: k) =>
      match exec transitive_mark 0 (glob c) i k with
      | Wait => true
      | _ => false
      end
  | _ => true
  end.

Definition effort (c : config) : nat :=
  2 * work c + (if blocked c then 1 else 0).

Definition outcome_work (g : state) (w : nat) (oc : outcome) : Prop :=
  match oc with
  | Continue g' k' | Yield g' k' => code_weight k' + state_work g' < w + state_work g
  | Fork g' k' body =>
      code_weight k' + code_weight body + state_work g' < w + state_work g
  | _ => True
  end.

(** ** Concrete trials *)

(** A memory with a chain [4 -> 5] hanging off the first stack slot. *)
Definition chain_choices : list nat := [2; 0; 0; 0; 0; 3; 0; 0].

(** The state of a run in which the root and object 4 are marked and
    object 5, the right field of 4, is not. *)
Definition chain_state : state :=
  State [Obj 0 0; Obj 4 0; Obj 0 0; Obj 0 0; Obj 0 5; Obj 0 0]
        [false; false; false; true; true; false] 1 (RWMutex 0 false).

(** A schedule in which the collector is suspended in the scan of the
    first stack while mutator 0 publishes its stack pointer. *)
Definition chain_schedule : list nat :=
  [0;0;0;0;0;0;0;0;0;0;0;0;1;0;0;0;0;0;1].

Definition chain_config : config := Eval vm_compute in
  match trial transitive_mark chain_choices chain_schedule with
  | Next c => c
  | _ => init_config []
  end.

(** The steps up to the call of the barrier in [chain_schedule]:
    the collector has marked object 4 and waits in [mark(4)] before
    the right field; mutator 0, whose stack points to 4, is running. *)
Definition collision_config : config := Eval vm_compute in
  match trial transitive_mark chain_choices (take 13 chain_schedule) with
  | Next c => c
  | _ => init_config []
  end.

(** A memory whose first stack slot points to the global root and whose
    second stack slot points to object 4. *)
Definition restart_choices : list nat := [1; 2; 0; 0; 0; 0; 0; 0].

(** The collector is suspended in the scan of the second stack, with the
    clock at 2; mutator 0 has chosen the root and is about to run the
    barrier. *)
Definition restart_config : config := Eval vm_compute in
  match trial scan_restart restart_choices (replicate 15 0 ++ [1; 0]) with
  | Next c => c
  | _ => init_config []
  end.

(** A whole trial on the chain [1 -> 4 -> 5]: the schedule of
    [chain_config], then the mutators and the collector to the end. *)
Definition full_schedule : list nat :=
  chain_schedule ++
  [0; 0; 0; 0; 0; 0; 0; 0; 0; 0; 0; 0; 0; 0; 0; 0; 0; 0; 1; 0; 1; 2; 0;
   0; 0; 0; 0; 0; 2; 0; 2].

Definition final_config : config :=
  Eval vm_compute in
    match trial transitive_mark chain_choices full_schedule with
    | Next c => c
    | _ => init_config []
    end.

(** The collector is in the final check, after [checkmark(globalRoot)]. *)
Definition check_config : config := Eval vm_compute in
  match trial transitive_mark chain_choices (take 34 full_schedule) with
  | Next c => c
  | _ => init_config []
  end.

(** Stack slot 1 points to object 5 and stack slot 2 to object 4; the
    heap objects hold nil. *)
Definition hidden_choices : list nat := [3; 2; 0; 0; 0; 0; 0; 0].

(** The collector yields in the scan of the first stack; mutator 1
    stores its pointer to 4 in the root, which is marked already, and
    loads nil into its stack slot; the collector finishes the scans and
    takes the lock. *)
Definition hidden_schedule : list nat :=
  replicate 12 0 ++ [2; 0; 0; 2; 1; 0] ++ replicate 8 0.

Definition hidden_config : config := Eval vm_compute in
  match trial no_barrier hidden_choices hidden_schedule with
  | Next c => c
  | _ => init_config []
  end.

(** Mutator 0 has left the marking of its barrier and is about to store
    its stack pointer in the global root. *)
Definition store_config : config := Eval vm_compute in
  match trial transitive_mark chain_choices (take 18 full_schedule) with
  | Next c => c
  | _ => init_config []
  end.

(** * Properties *)

(** ** Slices *)

Lemma index_Ok {A} (s : list A) i a : index s i = Ok a ↔ s !! i = Some a.
Proof. unfold index. destruct (s !! i); split; intros; simplify_eq; done. Qed.

Lemma index_lt {A} (s : list A) i : i < length s → ∃ a, index s i = Ok a ∧ s !! i = Some a.
Proof.
  intros Hi. destruct (lookup_lt_is_Some_2 s i Hi) as [a Ha].
  exists a. split; [by apply index_Ok | done].
Qed.

Lemma count_marked_le ms : count_marked ms ≤ length ms.
Proof. induction ms as [|[] ms IH]; simpl; lia. Qed.

Lemma count_marked_insert ms p :
  ms !! p = Some false → count_marked (<[p := true]> ms) = S (count_marked ms).
Proof.
  revert p. induction ms as [|b ms IH]; intros [|p] Hp; simplify_eq/=; [done|].
  rewrite (IH p Hp). lia.
Qed.

Lemma count_marked_pos ms p : ms !! p = Some true → 0 < count_marked ms.
Proof.
  revert p. induction ms as [|b ms IH]; intros [|p] Hp; simplify_eq/=; [lia|].
  specialize (IH p Hp). lia.
Qed.

(** ** Reachability in the memory graph *)

Section Walk.
Context (m : list obj).

Lemma closed_reach V p q :
  closed m V → V !! p = Some true → reach m p q → V !! q = Some true.
Proof.
  intros HV Hp [_ H]. induction H as [|x y z [Hy (o & Ho & Hf)] _ IH]; [done|].
  apply IH. destruct (HV x o Hp Ho) as [[?|?] [?|?]]; destruct Hf; congruence.
Qed.

Context (mk : list bool).

Lemma mark1_spec fuel (p : ptr) V :
  fields_in_range m → length mk = length m → length V = length m →
  p < length m →
  mark1_post m mk fuel p V (mark1 fuel m mk p V).
Proof.
  intros Hm Hmk. revert p V.
  induction fuel as [|fuel IH]; intros p V HV Hp; simpl.
  { pose proof (count_marked_le V). lia. }
  destruct (Nat.eqb_spec p 0) as [->|Hp0]; simpl.
  { repeat split; eauto. by left. }
  destruct (index_lt mk p) as (b & -> & Hb); [lia|]. simpl.
  destruct b; simpl; last first.
  { split; [|done]. split; [done | apply rtc_refl]. }
  destruct (index_lt V p) as (c & -> & Hc); [lia|]. simpl.
  destruct c; simpl.
  { repeat split; eauto. by right. }
  destruct (index_lt m p) as (o & -> & Ho); [lia|]. simpl.
  pose proof (proj1 (Forall_lookup _ _) Hm p o Ho) as [Hl Hr].
  set (V1 := <[p := true]> V).
  assert (length V1 = length m) as HV1 by (unfold V1; by rewrite length_insert).
  assert (V1 !! p = Some true) as HpV1.
  { unfold V1. apply list_lookup_insert_eq. lia. }
  assert (count_marked V1 = S (count_marked V)) as HcV1
    by by apply count_marked_insert.
  assert (∀ q, edge m p q → reach m p q) as Hstep.
  { intros q Hq. split; [done|]. by apply rtc_once. }
  pose proof (IH (l o) V1 HV1 Hl) as H1.
  destruct (mark1 fuel m mk (l o) V1) as [V2|f1]; simpl; last first.
  { destruct f1; simpl in *; try done.
    - destruct H1 as [[Hq H1] ?]. split; [|done]. split; [done|].
      eapply rtc_l; [|exact H1]. split; [done|]. eauto.
    - lia. }
  destruct H1 as (HV2 & Hmono2 & Hcov2 & Hcnt2 & Hnew2).
  pose proof (IH (r o) V2 ltac:(lia) Hr) as H2.
  destruct (mark1 fuel m mk (r o) V2) as [V3|f2]; simpl; last first.
  { destruct f2; simpl in *; try done.
    - destruct H2 as [[Hq H2] ?]. split; [|done]. split; [done|].
      eapply rtc_l; [|exact H2]. split; [done|]. eauto.
    - lia. }
  destruct H2 as (HV3 & Hmono3 & Hcov3 & Hcnt3 & Hnew3).
  assert (∀ q, covered V2 q → covered V3 q) as Hc23.
  { intros q [?|?]; [by left | right; eauto]. }
  split; [lia|]. split.
  { intros i Hi. apply Hmono3, Hmono2. unfold V1.
    destruct (decide (i = p)) as [->|]; [congruence|].
    by rewrite list_lookup_insert_ne. }
  split; [right; eauto|]. split; [lia|].
  intros x Hx.
  destruct (decide (x = p)) as [->|Hxp].
  { right. split; [done|]. split; [split; [done | apply rtc_refl]|].
    intros o' Ho'. assert (o' = o) as -> by congruence. eauto. }
  destruct (Hnew3 x Hx) as [Hx2|(Hmx & Hrx & Hch)].
  - destruct (Hnew2 x Hx2) as [Hx1|(Hmx & Hrx & Hch)].
    + left. unfold V1 in Hx1. by rewrite list_lookup_insert_ne in Hx1.
    + right. split; [done|]. split.
      * destruct Hrx as [Hl0 Hrx]. split; [done|].
        eapply rtc_l; [|exact Hrx]. split; [done|]. eauto.
      * intros o' Ho'. destruct (Hch o' Ho'). eauto.
  - right. split; [done|]. split; [|done].
    destruct Hrx as [Hr0 Hrx]. split; [done|].
    eapply rtc_l; [|exact Hrx]. split; [done|]. eauto.
Qed.

End Walk.

Lemma lookup_replicate_false n i : replicate n false !! i ≠ Some true.
Proof. intros [? _]%lookup_replicate. done. Qed.

Lemma mark1_length fuel m mk p V V' :
  mark1 fuel m mk p V = Ok V' → length V' = length V.
Proof.
  revert p V V'. induction fuel as [|fuel IH]; intros p V V'; simpl; [done|].
  destruct (p =? 0); [by intros [= ->]|].
  destruct (index mk p) as [[]|]; simpl; try done.
  destruct (index V p) as [[]|]; simpl; try done; [by intros [= ->]|].
  destruct (index m p) as [o|]; simpl; [|done].
  destruct (mark1 fuel m mk (l o) _) as [V2|] eqn:E2; simpl; [|done].
  intros E3. rewrite (IH _ _ _ E3), (IH _ _ _ E2). apply length_insert.
Qed.

(** The marker on a scratch slice is the checker's walk in a memory
    where every object counts as marked. *)
Lemma mark_quiet_mark1 fuel m p V :
  mark_quiet fuel m p V = mark1 fuel m (replicate (length V) true) p V.
Proof.
  revert p V. induction fuel as [|fuel IH]; intros p V; simpl; [done|].
  destruct (p =? 0); [done|].
  destruct (decide (p < length V)) as [Hlt|Hge].
  - destruct (index_lt V p Hlt) as (c & -> & Hc).
    assert (index (replicate (length V) true) p = Ok true) as ->.
    { apply index_Ok, lookup_replicate. done. }
    simpl. destruct c; [done|].
    destruct (index m p) as [o|]; simpl; [|done].
    rewrite IH, length_insert.
    destruct (mark1 fuel m _ (l o) _) as [V2|] eqn:E2; simpl; [|done].
    rewrite IH. apply mark1_length in E2. rewrite E2, length_insert. done.
  - unfold index.
    rewrite (proj2 (lookup_ge_None V p)) by lia.
    rewrite (proj2 (lookup_ge_None (replicate (length V) true) p))
      by (rewrite length_replicate; lia).
    done.
Qed.

Section Walk_top.
Context (m : list obj) (Hm : fields_in_range m).

(** A completed walk from a fresh visited set has seen exactly the
    reachable objects, and all of them are marked. *)
Lemma mark1_fresh mk p :
  length mk = length m → p < length m →
  match mark1 (walk_fuel m) m mk p (replicate (length m) false) with
  | Ok V =>
      length V = length m ∧
      (∀ q, V !! q = Some true ↔ reach m p q) ∧
      (∀ q, reach m p q → mk !! q = Some true)
  | Panic (ObjectNotMarked q) => reach m p q ∧ mk !! q = Some false
  | Panic _ => False
  end.
Proof using Hm.
  intros Hmk Hp.
  pose proof (mark1_spec m mk (walk_fuel m) p (replicate (length m) false)
                Hm Hmk (length_replicate _ _) Hp) as H.
  destruct (mark1 _ _ _ _ _) as [V|f]; simpl in H; last first.
  { destruct f; try done. apply H. rewrite length_replicate. unfold walk_fuel. lia. }
  destruct H as (HV & _ & Hcov & _ & Hnew).
  rewrite length_replicate in HV.
  assert (closed m V) as Hcl.
  { intros x o Hx Ho. destruct (Hnew x Hx) as [Hx0|(_ & _ & Hch)]; [|by apply Hch].
    by apply lookup_replicate_false in Hx0. }
  assert (∀ q, reach m p q → V !! q = Some true) as Hall.
  { intros q Hq. apply (closed_reach m V p q); [done| |done].
    destruct Hcov as [->|?]; [by destruct Hq | done]. }
  split; [done|]. split.
  - intros q. split; [|by apply Hall].
    intros Hq. destruct (Hnew q Hq) as [Hx0|(_ & ? & _)]; [|done].
    by apply lookup_replicate_false in Hx0.
  - intros q Hq. destruct (Hnew q (Hall q Hq)) as [Hx0|(? & _ & _)]; [|done].
    by apply lookup_replicate_false in Hx0.
Qed.

(** The scratch set of [ambReachableHeapPointer] is the set of objects
    reachable from the global root. *)
Lemma reachable_set_spec :
  globalRoot < length m →
  ∃ rs, reachable_set m = Ok rs ∧ length rs = length m ∧
        ∀ q, rs !! q = Some true ↔ reach m globalRoot q.
Proof using Hm.
  intros Hroot. unfold reachable_set.
  rewrite mark_quiet_mark1, length_replicate.
  pose proof (mark1_fresh (replicate (length m) true) globalRoot
                (length_replicate _ _) Hroot) as H.
  destruct (mark1 _ _ _ _ _) as [V|f].
  - exists V. destruct H as (HV & Hiff & _). done.
  - destruct f; try done. destruct H as [_ [? _]%lookup_replicate]. done.
Qed.

Lemma checkmark_spec g p :
  mem g = m → length (marked g) = length m → p < length m →
  match checkmark g p with
  | Ok _ => ∀ q, reach m p q → marked g !! q = Some true
  | Panic (ObjectNotMarked q) => reach m p q ∧ marked g !! q = Some false
  | Panic _ => False
  end.
Proof using Hm.
  intros Hg Hmk Hp. unfold checkmark. rewrite Hg.
  pose proof (mark1_fresh (marked g) p Hmk Hp) as H.
  destruct (mark1 _ _ _ _ _) as [V|f]; simpl; [by destruct H as (_ & _ & H) | done].
Qed.

End Walk_top.

(** ** Well-formed memories *)

Ltac consts :=
  unfold globalRoot, stackBase, numThreads, memSize in *; simpl in *.

Lemma heap_ptr_lt len p : 0 < len → heap_ptr len p → p < len.
Proof. intros ? [->|[_ ?]]; lia. Qed.

Lemma wf_mem_in_range m : wf_mem m → fields_in_range m.
Proof.
  intros [Hlen Hm]. eapply Forall_impl; [exact Hm|].
  intros o [Hl Hr]. rewrite Hlen in *.
  split; eapply heap_ptr_lt; try done; consts; lia.
Qed.

Lemma wf_mem_lookup m i o :
  wf_mem m → m !! i = Some o →
  heap_ptr (length m) (l o) ∧ heap_ptr (length m) (r o).
Proof. intros [_ Hm] Hi. exact (proj1 (Forall_lookup _ _) Hm i o Hi). Qed.

Lemma wf_mem_set_l m i d v :
  wf_mem m → m !! i = Some d → heap_ptr (length m) v →
  wf_mem (<[i := set_l d v]> m).
Proof.
  intros [Hlen Hm] Hi Hv. split; [by rewrite length_insert|].
  rewrite length_insert. apply Forall_insert; [done|].
  split; [done|]. exact (proj2 (proj1 (Forall_lookup _ _) Hm i d Hi)).
Qed.

Lemma ambHeapPointer_heap len x :
  globalRoot ≤ len → x < ambHeapChoices len → heap_ptr len (ambHeapPointer x).
Proof.
  unfold ambHeapPointer, ambHeapChoices, heap_ptr. intros Hlen Hx.
  destruct (Nat.eqb_spec x 0); [by left | right; lia].
Qed.

Lemma build_from_wf len n i xs os :
  globalRoot ≤ len → build_from len n i xs = Some os →
  length os = n ∧ Forall (λ o, heap_ptr len (l o) ∧ heap_ptr len (r o)) os.
Proof.
  intros Hlen. revert i xs os. induction n as [|n IH]; intros i xs os; simpl.
  { destruct xs; [|done]. intros [= <-]. done. }
  destruct (build_slot len i xs) as [[o xs']|] eqn:Hs; [|done].
  destruct (build_from len n (S i) xs') as [os'|] eqn:Hb; [|done].
  intros [= <-]. destruct (IH _ _ _ Hb) as [Hn Hos].
  split; [simpl; lia|]. constructor; [|done].
  unfold build_slot in Hs. destruct xs as [|x xs]; [done|].
  destruct (Nat.ltb_spec x (ambHeapChoices len)) as [Hx|]; [|done].
  destruct (globalRoot <=? i).
  - destruct xs as [|y xs]; [done|].
    destruct (Nat.ltb_spec y (ambHeapChoices len)) as [Hy|]; [|done].
    simplify_eq/=. split; by apply ambHeapPointer_heap.
  - simplify_eq/=. split; [by apply ambHeapPointer_heap | by left].
Qed.

Lemma build_mem_wf gs m : build_mem gs = Some m → wf_mem m.
Proof.
  unfold build_mem. destruct (build_from _ _ _ _) as [os|] eqn:Hb; [|done].
  intros [= <-]. apply build_from_wf in Hb as [Hn Hos]; [|consts; lia].
  assert (length (Obj 0 0 :: os) = memSize) as Hlen by (simpl; rewrite Hn; done).
  split; [done|]. rewrite Hlen. constructor; [|done].
  split; by left.
Qed.

Lemma init_state_wf m : wf_mem m → wf_state (init_state m).
Proof. intros Hm. split; [done|]. simpl. by rewrite length_replicate. Qed.

Lemma continue_state g r g' :
  outcome_state g (continue r) = Some g' → ∃ k, r = Ok (g', k).
Proof. destruct r as [[g1 k]|f]; simpl; [|done]. intros [= ->]. eauto. Qed.

Ltac bind_inv H :=
  repeat match type of H with
  | (mbind _ ?m) = Ok _ =>
      let E := fresh "E" in destruct m eqn:E; simpl in H; [|discriminate H]
  | (if ?b then _ else _) = Ok _ =>
      let E := fresh "E" in destruct b eqn:E; simpl in H
  | Ok _ = Ok _ => injection H as H
  end.

Lemma exec_wf pol x g i k g' :
  wf_state g → outcome_state g (exec pol x g i k) = Some g' → wf_state g'.
Proof.
  intros [Hm Hmk] H. destruct i; simpl in H;
    repeat match type of H with
    | outcome_state _ (if ?b then _ else _) = _ => destruct b eqn:?
    | outcome_state _ (match ?r with Ok _ => _ | Panic _ => _ end) = _ =>
        destruct r eqn:?; [|discriminate H]
    end;
    try (apply continue_state in H as [k' H]; bind_inv H);
    simplify_eq/=; try done; try (split; simpl; [done | by rewrite ?length_insert]).
  - (* IRestart *) by destruct (negb _).
  - (* IStore *)
    apply index_Ok in E, E0. split; simpl; [|by rewrite length_insert].
    apply wf_mem_set_l; [done..|]. by eapply wf_mem_lookup.
  - (* ILoad *)
    apply index_Ok in E0, E1. split; simpl; [|by rewrite length_insert].
    apply wf_mem_set_l; [done..|]. by eapply wf_mem_lookup.
Qed.

Lemma step_state pol c x c' :
  step pol c x = Next c' →
  glob c' = glob c ∨
  ∃ i k, threads c !! cur c = Some (i :: k) ∧
         outcome_state (glob c) (exec pol x (glob c) i k) = Some (glob c').
Proof.
  unfold step, switch. destruct (threads c !! cur c) as [[|i k]|] eqn:Hk; [| |done].
  { destruct (_ || _); [|done]. intros [= <-]. by left. }
  destruct (exec pol x (glob c) i k) eqn:He; try done.
  - intros [= <-]. right. exists i, k. by rewrite He.
  - destruct (_ || _); [|done]. intros [= <-]. right. exists i, k. by rewrite He.
  - destruct (_ || _); [|done]. intros [= <-]. by left.
  - intros [= <-]. right. exists i, k. by rewrite He.
Qed.

Lemma step_wf pol c x c' :
  wf_state (glob c) → step pol c x = Next c' → wf_state (glob c').
Proof.
  intros Hwf Hs. destruct (step_state _ _ _ _ Hs) as [->|(i & k & _ & He)]; [done|].
  by eapply exec_wf.
Qed.

Lemma reachable_wf pol c : reachable pol c → wf_state (glob c).
Proof.
  induction 1 as [gs m Hb|c x c' _ IH Hs].
  - apply init_state_wf. by eapply build_mem_wf.
  - by eapply step_wf.
Qed.

(** ** Marks are never cleared *)

Lemma exec_marked_mono pol x g i k g' :
  outcome_state g (exec pol x g i k) = Some g' →
  length (marked g') = length (marked g) ∧
  ∀ j, marked g !! j = Some true → marked g' !! j = Some true.
Proof.
  intros H. destruct i; simpl in H;
    repeat match type of H with
    | outcome_state _ (if ?b then _ else _) = _ => destruct b eqn:?
    | outcome_state _ (match ?r with Ok _ => _ | Panic _ => _ end) = _ =>
        destruct r eqn:?; [|discriminate H]
    end;
    try (apply continue_state in H as [k' H]; bind_inv H);
    simplify_eq/=; try done.
  - (* IMark, newly marked *)
    split; [by rewrite length_insert|]. intros j Hj.
    destruct (decide (j = p)) as [->|]; [|by rewrite list_lookup_insert_ne].
    apply list_lookup_insert_eq. by eapply lookup_lt_Some.
  - (* IRestart *) by destruct (negb _).
Qed.

Lemma step_marked_mono pol c x c' :
  step pol c x = Next c' →
  length (marked (glob c')) = length (marked (glob c)) ∧
  ∀ j, marked (glob c) !! j = Some true → marked (glob c') !! j = Some true.
Proof.
  intros Hs. destruct (step_state _ _ _ _ Hs) as [->|(i & k & _ & He)]; [done|].
  by eapply exec_marked_mono.
Qed.

Lemma run_inv (P : config → Prop) pol :
  (∀ c x c', P c → step pol c x = Next c' → P c') →
  ∀ xs c c', P c → run pol c xs = Next c' → P c'.
Proof.
  intros Hstep. induction xs as [|x xs IH]; intros c c' Hc; simpl.
  { by intros [= <-]. }
  destruct (step pol c x) as [c1| |] eqn:Hs; try done.
  apply IH. by eapply Hstep.
Qed.

Lemma reachable_run pol c xs c' :
  reachable pol c → run pol c xs = Next c' → reachable pol c'.
Proof. apply run_inv. intros ????. by apply reachable_step. Qed.

Lemma reachable_trial pol gs xs c :
  trial pol gs xs = Next c → reachable pol c.
Proof.
  unfold trial. destruct (build_mem gs) as [m|] eqn:Hb; [|done].
  apply reachable_run. by eapply reachable_init.
Qed.

(** ** The scan clock stays within the number of threads *)

Lemma exec_clock pol x g i k g' :
  scanClock g ≤ numThreads →
  outcome_state g (exec pol x g i k) = Some g' → scanClock g' ≤ numThreads.
Proof.
  intros Hc H. destruct i; simpl in H;
    repeat match type of H with
    | outcome_state _ (if ?b then _ else _) = _ => destruct b eqn:?
    | outcome_state _ (match ?r with Ok _ => _ | Panic _ => _ end) = _ =>
        destruct r eqn:?; [|discriminate H]
    end;
    try (apply continue_state in H as [k' H]; bind_inv H);
    simplify_eq/=; try done.
  - (* IScan *) by apply Nat.ltb_lt.
  - (* IRestart *) destruct (negb _); simpl; [lia | done].
Qed.

Lemma reachable_clock pol c : reachable pol c → scanClock (glob c) ≤ numThreads.
Proof.
  induction 1 as [gs m Hb|c x c' _ IH Hs]; [simpl; lia|].
  destruct (step_state _ _ _ _ Hs) as [->|(i & k & _ & He)]; [done|].
  by eapply exec_clock.
Qed.

(** ** Selecting a reachable heap object *)

Lemma select_marked_spec ms i x :
  x < count_marked ms →
  ∃ j, select_marked ms i x = Ok (globalRoot + (i + j)) ∧ ms !! j = Some true.
Proof.
  revert i x. induction ms as [|b ms IH]; intros i x Hx; simpl in *; [lia|].
  destruct b.
  - destruct (Nat.eqb_spec x 0) as [->|Hx0].
    + exists 0. by rewrite Nat.add_0_r.
    + destruct (IH (S i) (x - 1)) as (j & -> & Hj); [lia|].
      exists (S j). split; [f_equal; lia | done].
  - destruct (IH (S i) x) as (j & -> & Hj); [lia|].
    exists (S j). split; [f_equal; lia | done].
Qed.

Lemma reach_refl m p : p ≠ 0 → reach m p p.
Proof. intros Hp. split; [done | apply rtc_refl]. Qed.

Lemma ambReachable_total m :
  wf_mem m →
  ∃ n, nreachable m = Ok n ∧ 0 < n ∧
       ∀ x, x < n →
         ∃ p, ambReachableHeapPointer m x = Ok p ∧
              globalRoot ≤ p ∧ p < length m ∧ reach m globalRoot p.
Proof.
  intros Hm. pose proof (wf_mem_in_range m Hm) as Hr.
  destruct Hm as [Hlen _].
  destruct (reachable_set_spec m Hr) as (rs & Hrs & Hl & Hiff).
  { rewrite Hlen. consts. lia. }
  unfold nreachable, ambReachableHeapPointer. rewrite Hrs. simpl.
  eexists. split; [done|]. split.
  - apply (count_marked_pos _ 0). rewrite lookup_drop, Nat.add_0_r.
    apply Hiff, reach_refl. done.
  - intros x Hx. destruct (select_marked_spec _ 0 x Hx) as (j & -> & Hj).
    rewrite lookup_drop in Hj. simpl. eexists. split; [done|].
    split; [consts; lia|]. split.
    + rewrite <- Hl. by eapply lookup_lt_Some.
    + by apply Hiff.
Qed.

(** ** The marker run to its return *)

Lemma set_marked_id g : set_marked g (marked g) = g.
Proof. by destruct g. Qed.

(** Run on its own, a [mark] call computes what the marker without
    yields computes, on the global mark set; it runs only statements of
    [mark] and leaves everything but [marked] alone. *)
Lemma solo_mark pol n : ∀ p g k mk',
  mark_quiet n (mem g) p (marked g) = Ok mk' →
  ∃ f tr, Forall mark_instr tr ∧
    ∀ f', solo pol (f + f') g (IMark p :: k)
          = log_app (IMark p :: tr) (solo pol f' (set_marked g mk') k).
Proof.
  induction n as [|n IH]; intros p g k mk'; simpl; [done|].
  destruct (Nat.eqb_spec p 0) as [->|Hp].
  { intros [= <-]. exists 1, []. split; [done|]. intros f'. simpl.
    rewrite set_marked_id. by destruct (solo _ _ _ _) as [[??]|]. }
  destruct (index (marked g) p) as [b|] eqn:Hb; simpl; [|done].
  destruct b.
  { intros [= <-]. exists 1, []. split; [done|]. intros f'. simpl.
    destruct (Nat.eqb_spec p 0); [done|]. rewrite Hb. simpl.
    rewrite set_marked_id. by destruct (solo _ _ _ _) as [[??]|]. }
  destruct (index (mem g) p) as [o|] eqn:Ho; simpl; [|done].
  set (g1 := set_marked g (<[p := true]> (marked g))).
  destruct (mark_quiet n (mem g) (l o) _) as [mk2|] eqn:E2; simpl; [|done].
  intros E3.
  destruct (IH (l o) g1 (ISched :: IMarkR p :: ISched :: k) mk2 E2)
    as (f1 & tr1 & Htr1 & H1).
  set (g2 := set_marked g1 mk2).
  destruct (IH (r o) g2 (ISched :: k) mk' E3) as (f2 & tr2 & Htr2 & H2).
  exists (1 + (f1 + (2 + (f2 + 1)))),
         (IMark (l o) :: tr1 ++ ISched :: IMarkR p :: IMark (r o) :: tr2 ++ [ISched]).
  split.
  { constructor; [done|]. apply Forall_app. split; [done|].
    repeat (constructor; [done|]). apply Forall_app. split; [done|].
    by constructor. }
  intros f'. rewrite <- !Nat.add_assoc.
  change (1 + ?a) with (S a). cbn [solo exec].
  destruct (Nat.eqb_spec p 0); [done|]. rewrite Hb. simpl.
  fold g1. change (mem g1) with (mem g). rewrite Ho. simpl.
  rewrite H1. fold g2. cbn [Nat.add solo exec].
  change (mem g2) with (mem g). rewrite Ho. simpl.
  rewrite H2. cbn [Nat.add solo exec].
  destruct (solo pol f' _ k) as [[g3 tr3]|]; simpl; [|done].
  do 4 f_equal. rewrite <- !app_assoc. simpl. by rewrite <- !app_assoc.
Qed.

Lemma mark_quiet_total m p V :
  wf_mem m → length V = length m → p < length m →
  ∃ V', mark_quiet (walk_fuel m) m p V = Ok V' ∧
    length V' = length V ∧
    (∀ i, V !! i = Some true → V' !! i = Some true) ∧
    covered V' p ∧
    (∀ x, V' !! x = Some true → V !! x = Some true ∨
          (reach m p x ∧ ∀ o, m !! x = Some o → covered V' (l o) ∧ covered V' (r o))).
Proof.
  intros Hm HV Hp. rewrite mark_quiet_mark1.
  pose proof (mark1_spec m (replicate (length V) true) (walk_fuel m) p V
                (wf_mem_in_range m Hm)) as H.
  rewrite length_replicate in H. specialize (H HV HV Hp).
  destruct (mark1 _ _ _ _ _) as [V'|f]; simpl in H.
  - exists V'. split; [done|]. destruct H as (? & ? & ? & ? & Hnew).
    repeat split; try done. intros x Hx.
    destruct (Hnew x Hx) as [?|(_ & ? & ?)]; [by left | by right].
  - destruct f; try done.
    + destruct H as [_ [? _]%lookup_replicate]. done.
    + exfalso. apply H. unfold walk_fuel. lia.
Qed.

(** * Properties of the specification *)

Lemma chain_config_trial :
  trial transitive_mark chain_choices chain_schedule = Next chain_config.
Proof. vm_compute. reflexivity. Qed.

(** C3: [checkmark(p)] walks the objects reachable from [p] over [l] and
    [r] fields with a visited set of its own.  In a well-formed memory it
    panics with "object not marked: q" exactly when some object reachable
    from [p] is unmarked, and the [q] it reports is such an object; when
    every reachable object is marked it returns, and the statement leaves
    [mem], [marked], [scanClock] and [world] as they were. *)
Theorem C3_checkmark_walk pol x g p k :
  wf_state g → p < length (mem g) →
  ((∃ q, reach (mem g) p q ∧ marked g !! q = Some false) ↔
   (∃ q, checkmark g p = Panic (ObjectNotMarked q))) ∧
  (∀ q, checkmark g p = Panic (ObjectNotMarked q) →
        reach (mem g) p q ∧ marked g !! q = Some false) ∧
  ((∀ q, reach (mem g) p q → marked g !! q = Some true) →
   checkmark g p = Ok tt ∧ exec pol x g (ICheckmark p) k = Continue g k).
Proof.
  intros [Hm Hmk] Hp.
  pose proof (checkmark_spec (mem g) (wf_mem_in_range _ Hm) g p eq_refl Hmk Hp) as H.
  split; [split|split].
  - intros (q & Hq & Hu). destruct (checkmark g p) as [[]|f].
    + specialize (H q Hq). congruence.
    + destruct f; try done. eauto.
  - intros (q & Hq). rewrite Hq in H. eauto.
  - intros q Hq. by rewrite Hq in H.
  - intros Hall. simpl. destruct (checkmark g p) as [[]|f]; [done|].
    destruct f; try done. destruct H as [Hq Hu]. specialize (Hall _ Hq). congruence.
Qed.

Lemma C3_checkmark_walk_witness :
  wf_state chain_state ∧ 4 < length (mem chain_state) ∧
  checkmark chain_state 4 = Panic (ObjectNotMarked 5) ∧
  ((∃ q, reach (mem chain_state) 4 q ∧ marked chain_state !! q = Some false) ↔
   (∃ q, checkmark chain_state 4 = Panic (ObjectNotMarked q))).
Proof.
  assert (wf_state chain_state) as Hwf
    by (apply (bool_decide_unpack _); vm_compute; exact I).
  assert (4 < length (mem chain_state)) as Hlt by (simpl; lia).
  split; [done|]. split; [done|]. split; [vm_compute; reflexivity|].
  exact (proj1 (C3_checkmark_walk transitive_mark 0 chain_state 4 [] Hwf Hlt)).
Defined.

(** C6: [mark(p, ...)] with [p] nil or already marked returns at once:
    the state is unchanged, no statement is added to the thread, and the
    thread keeps running (no [sched.Sched()]).  The same holds for the
    marker on a scratch slice. *)
Theorem C6_mark_idempotent pol x g p k :
  p = 0 ∨ marked g !! p = Some true →
  exec pol x g (IMark p) k = Continue g k ∧
  (∀ c, glob c = g → threads c !! cur c = Some (IMark p :: k) →
        step pol c x = Next (Config g (<[cur c := k]> (threads c)) (cur c))) ∧
  (∀ fuel m, mark_quiet (S fuel) m p (marked g) = Ok (marked g)).
Proof.
  intros Hp.
  assert (exec pol x g (IMark p) k = Continue g k) as He.
  { simpl. destruct Hp as [->|Hp]; [done|].
    destruct (p =? 0); [done|]. by rewrite (proj2 (index_Ok _ _ _) Hp). }
  split; [done|]. split.
  - intros c <- Hc. unfold step. by rewrite Hc, He.
  - intros fuel m. simpl. destruct Hp as [->|Hp]; [done|].
    destruct (p =? 0); [done|]. by rewrite (proj2 (index_Ok _ _ _) Hp).
Qed.

Lemma C6_mark_idempotent_witness :
  exec transitive_mark 0 chain_state (IMark 4) [ISched] = Continue chain_state [ISched].
Proof.
  apply (C6_mark_idempotent transitive_mark 0 chain_state 4 [ISched]).
  right. vm_compute. reflexivity.
Defined.

(** C8: the global mark set starts all false, and between any two
    configurations of a trial, whichever threads take the steps in
    between, no bit is cleared and the length of the set does not
    change: a bit that is true stays true. *)
Theorem C8_marked_monotone pol gs m xs c ys c' :
  build_mem gs = Some m → run pol (init_config m) xs = Next c →
  run pol c ys = Next c' →
  (∀ j b, marked (glob (init_config m)) !! j = Some b → b = false) ∧
  length (marked (glob c')) = length (marked (glob c)) ∧
  (∀ j, marked (glob c) !! j = Some true → marked (glob c') !! j = Some true).
Proof.
  intros Hb Hrun Hs. split.
  { intros j b [-> _]%lookup_replicate. done. }
  revert Hs. apply (run_inv (λ c1,
    length (marked (glob c1)) = length (marked (glob c)) ∧
    ∀ j, marked (glob c) !! j = Some true → marked (glob c1) !! j = Some true));
    [|done].
  intros c1 x c2 [Hlen Hmono] Hstep.
  destruct (step_marked_mono _ _ _ _ Hstep) as [Hlen' Hmono'].
  split; [congruence | eauto].
Qed.

Lemma C8_marked_monotone_witness :
  marked (glob chain_config) !! 4 = Some true ∧
  marked (glob final_config) !! 4 = Some true ∧
  length (marked (glob final_config)) = length (marked (glob chain_config)).
Proof.
  assert (marked (glob chain_config) !! 4 = Some true) as H4
    by (vm_compute; reflexivity).
  assert (build_mem chain_choices = Some (mem chain_state)) as Hb
    by (vm_compute; reflexivity).
  assert (run transitive_mark (init_config (mem chain_state)) chain_schedule
          = Next chain_config) as Hrun by (vm_compute; reflexivity).
  assert (run transitive_mark chain_config (drop 19 full_schedule)
          = Next final_config) as Hrest by (vm_compute; reflexivity).
  destruct (C8_marked_monotone transitive_mark chain_choices _
              chain_schedule chain_config _ final_config Hb Hrun Hrest)
    as (_ & Hlen & Hmono).
  split; [exact H4|]. split; [exact (Hmono 4 H4) | exact Hlen].
Defined.

(** C9: in every configuration of a trial the memory has its six slots
    and each field, left or right, of every slot is nil or an index of
    the heap region; no field points to a stack slot. *)
Theorem C9_fields_point_to_heap pol c i o :
  reachable pol c → mem (glob c) !! i = Some o →
  length (mem (glob c)) = memSize ∧
  heap_ptr (length (mem (glob c))) (l o) ∧
  heap_ptr (length (mem (glob c))) (r o) ∧
  ¬ (stackBase ≤ l o ∧ l o < globalRoot) ∧
  ¬ (stackBase ≤ r o ∧ r o < globalRoot).
Proof.
  intros Hc Hi. destruct (reachable_wf _ _ Hc) as [Hm _].
  destruct (wf_mem_lookup _ _ _ Hm Hi) as [Hl Hr].
  split; [by destruct Hm|]. split; [done|]. split; [done|].
  unfold heap_ptr in *. consts. lia.
Qed.

Lemma C9_fields_point_to_heap_witness :
  mem (glob chain_config) !! 3 = Some (Obj 4 0) ∧
  heap_ptr (length (mem (glob chain_config))) 4.
Proof.
  split; [vm_compute; reflexivity|].
  eapply (C9_fields_point_to_heap transitive_mark chain_config 3 (Obj 4 0)).
  - apply (reachable_trial _ chain_choices chain_schedule). vm_compute. reflexivity.
  - vm_compute. reflexivity.
Defined.

(** C10: in every configuration of a trial [ambReachableHeapPointer]
    returns: the global root is counted, so [sched.Amb] is asked for one
    of at least one alternative, and for every value it may return the
    selection loop yields an index of the heap region that is reachable
    from the global root; the final [panic("not reached")] is never
    run. *)
Theorem C10_ambReachable_total pol c :
  reachable pol c →
  ∃ n, nreachable (mem (glob c)) = Ok n ∧ 0 < n ∧
       ∀ x, x < n →
         ∃ p, ambReachableHeapPointer (mem (glob c)) x = Ok p ∧
              globalRoot ≤ p ∧ p < length (mem (glob c)) ∧
              reach (mem (glob c)) globalRoot p.
Proof.
  intros Hc. apply ambReachable_total. by destruct (reachable_wf _ _ Hc).
Qed.

Lemma C10_ambReachable_total_witness :
  nreachable (mem (glob chain_config)) = Ok 3 ∧
  ∃ n, nreachable (mem (glob chain_config)) = Ok n ∧ 0 < n ∧
    ∀ x, x < n →
      ∃ p, ambReachableHeapPointer (mem (glob chain_config)) x = Ok p ∧
           globalRoot ≤ p ∧ p < length (mem (glob chain_config)) ∧
           reach (mem (glob chain_config)) globalRoot p.
Proof.
  split; [vm_compute; reflexivity|].
  apply (C10_ambReachable_total transitive_mark).
  apply (reachable_trial _ chain_choices chain_schedule). vm_compute. reflexivity.
Defined.

(** ** The write barrier run to its return *)

Lemma solo_markL pol n s o g k mk' :
  mem g !! s = Some o →
  mark_quiet n (mem g) (l o) (marked g) = Ok mk' →
  ∃ f tr, Forall mark_instr tr ∧
    ∀ f', solo pol (f + f') g (IMarkL s :: k)
          = log_app (IMarkL s :: IMark (l o) :: tr) (solo pol f' (set_marked g mk') k).
Proof.
  intros Hs Hq. destruct (solo_mark pol n (l o) g k mk' Hq) as (f & tr & Htr & H).
  exists (S f), tr. split; [done|]. intros f'.
  cbn [Nat.add solo exec]. rewrite (proj2 (index_Ok _ _ _) Hs). simpl.
  rewrite H. by destruct (solo pol f' _ k) as [[??]|].
Qed.

Lemma mark_instr_no_store tr : Forall mark_instr tr → Forall no_store tr.
Proof. intros H. eapply Forall_impl; [exact H|]. by intros []. Qed.

Lemma solo_barrier_marks g slot src o d :
  wf_state g → writer (world g) = false → src ≠ 0 →
  mem g !! src = Some o → mem g !! slot = Some d →
  ∃ fuel marks mk',
    Forall mark_instr marks ∧
    mark_quiet (walk_fuel (mem g)) (mem g) (l o) (marked g) = Ok mk' ∧
    solo transitive_mark fuel g (wbarrier transitive_mark slot src)
    = Ok (State (<[slot := Obj (l o) (r d)]> (mem g)) mk' (scanClock g) (world g),
          IRLock :: IMarkL src :: IMark (l o) :: marks
          ++ [IRUnlock; IStore slot src; ISched]).
Proof.
  intros [Hm Hmk] Hw Hsrc Ho Hd.
  destruct (mark_quiet_total (mem g) (l o) (marked g) Hm Hmk) as (mk' & Hq & _).
  { eapply heap_ptr_lt; [|by eapply wf_mem_lookup].
    destruct Hm as [-> _]. consts. lia. }
  set (g1 := set_world g (RWMutex (S (readers (world g))) false)).
  destruct (solo_markL transitive_mark _ src o g1
              [IRUnlock; IStore slot src; ISched] mk' Ho Hq)
    as (f & tr & Htr & H).
  exists (S (f + 4)), tr, mk'. split; [done|]. split; [done|].
  unfold wbarrier. destruct (Nat.eqb_spec src 0); [done|].
  cbn [writeMarks writeRestarts transitive_mark app solo exec].
  rewrite Hw. fold g1. cbn [logged]. rewrite H.
  cbn [solo exec set_marked set_world g1 mem marked scanClock world readers writer].
  rewrite (proj2 (index_Ok _ _ _) Ho), (proj2 (index_Ok _ _ _) Hd). simpl.
  rewrite Nat.sub_0_r. destruct g as [m mk sc [rd w]]. simpl in *. by subst w.
Qed.

Lemma solo_barrier pol g slot val o d :
  wf_state g → writer (world g) = false →
  mem g !! val = Some o → mem g !! slot = Some d →
  ∃ fuel g' pre,
    Forall no_store pre ∧
    mem g' = <[slot := Obj (l o) (r d)]> (mem g) ∧
    solo pol fuel g (wbarrier pol slot val)
    = Ok (g', pre ++ [IStore slot val; ISched]).
Proof.
  intros Hwf Hw Ho Hd. pose proof Hwf as [Hm Hmk].
  assert (∀ g0 : state, mem g0 = mem g →
            solo pol 3 g0 [IStore slot val; ISched]
            = Ok (set_mem g0 (<[slot := Obj (l o) (r d)]> (mem g)),
                  [IStore slot val; ISched])) as Hstore.
  { intros g0 E. cbn [solo exec]. rewrite E.
    by rewrite (proj2 (index_Ok _ _ _) Ho), (proj2 (index_Ok _ _ _) Hd). }
  assert (∀ g0 : state, mem g0 = mem g →
            length (marked g0) = length (marked g) →
            ∃ f g' pre, Forall no_store pre ∧ mem g' = mem g ∧
              ∀ f', solo pol (f + f') g0
                      ((if writeRestarts pol then [IRestart val] else []) ++
                       [IStore slot val; ISched])
                    = log_app pre (solo pol f' g' [IStore slot val; ISched]))
    as Hrestart.
  { intros g0 E Ek. destruct (writeRestarts pol).
    - destruct (index_lt (marked g0) val) as (b & Hb & _).
      { rewrite Ek, Hmk. by eapply lookup_lt_Some. }
      exists 1, (if negb b then set_scanClock g0 0 else g0), [IRestart val].
      split; [by constructor|]. split; [by destruct b|].
      intros f'. cbn [Nat.add app solo exec]. rewrite Hb. simpl.
      by destruct (solo _ _ _ _) as [[??]|].
    - exists 0, g0, []. split; [done|]. split; [done|].
      intros f'. simpl. by destruct (solo _ _ _ _) as [[??]|]. }
  unfold wbarrier. destruct (Nat.eqb_spec val 0) as [->|Hval].
  { exists 3, (set_mem g (<[slot := Obj (l o) (r d)]> (mem g))), [].
    split; [done|]. split; [done|]. by apply Hstore. }
  destruct (writeMarks pol); last first.
  { destruct (Hrestart g eq_refl eq_refl) as (f & g' & pre & Hpre & Hg' & H).
    exists (f + 3), (set_mem g' (<[slot := Obj (l o) (r d)]> (mem g))), pre.
    split; [done|]. split; [done|]. simpl. rewrite H, (Hstore g' Hg'). done. }
  destruct (mark_quiet_total (mem g) (l o) (marked g) Hm Hmk) as (mk' & Hq & Hl' & _).
  { eapply heap_ptr_lt; [|by eapply wf_mem_lookup].
    destruct Hm as [-> _]. consts. lia. }
  set (g1 := set_world g (RWMutex (S (readers (world g))) false)).
  set (rest := (if writeRestarts pol then [IRestart val] else []) ++
               [IStore slot val; ISched]).
  destruct (solo_markL pol _ val o g1 (IRUnlock :: rest) mk' Ho Hq)
    as (f & tr & Htr & H).
  set (g2 := set_world (set_marked g1 mk')
               (RWMutex (S (readers (world g)) - 1) false)).
  destruct (Hrestart g2 eq_refl Hl') as (f2 & g' & pre & Hpre & Hg' & H2).
  exists (S (f + S (f2 + 3))),
         (set_mem g' (<[slot := Obj (l o) (r d)]> (mem g))),
         (IRLock :: IMarkL val :: IMark (l o) :: tr ++ IRUnlock :: pre).
  split.
  { repeat (constructor; [done|]). apply Forall_app. split.
    - by apply mark_instr_no_store.
    - by constructor. }
  split; [done|].
  cbn [app solo exec]. rewrite Hw. fold g1. cbn [logged]. rewrite H.
  cbn [solo exec]. cbn [set_marked set_world g1 mem marked scanClock world readers writer].
  fold g2. unfold rest. rewrite H2, (Hstore g' Hg').
  simpl. by rewrite <- app_assoc.
Qed.

(** ** The re-scan loop run to its exit *)

Lemma scans_mark_instr tr : Forall mark_instr tr → scans tr = [].
Proof.
  induction 1 as [|i tr Hi _ IH]; [done|].
  unfold scans in *. simpl. by destruct i.
Qed.

Lemma scans_app tr1 tr2 : scans (tr1 ++ tr2) = scans tr1 ++ scans tr2.
Proof. apply omap_app. Qed.

Lemma solo_scan pol n : ∀ g k,
  wf_state g → scanClock g + n = numThreads →
  ∃ f tr g',
    scans tr = (λ i, stackBase + i) <$> seq (scanClock g) n ∧
    scanClock g' = numThreads ∧ mem g' = mem g ∧ world g' = world g ∧
    (∀ j, marked g !! j = Some true → marked g' !! j = Some true) ∧
    ∀ f', solo pol (f + f') g (IScan :: k) = log_app tr (solo pol f' g' k).
Proof.
  induction n as [|n IH]; intros g k Hwf Hn.
  { exists 1, [IScan], g. repeat split; try done; try lia.
    intros f'. cbn [Nat.add solo exec].
    destruct (Nat.ltb_spec (scanClock g) numThreads); [lia|].
    by destruct (solo _ _ _ _) as [[??]|]. }
  pose proof Hwf as [Hm Hmk].
  set (s := stackBase + scanClock g).
  destruct (lookup_lt_is_Some_2 (mem g) s) as [o Ho].
  { destruct Hm as [-> _]. unfold s. consts. lia. }
  destruct (mark_quiet_total (mem g) (l o) (marked g) Hm Hmk)
    as (mk' & Hq & Hl' & Hmono & _).
  { eapply heap_ptr_lt; [|by eapply wf_mem_lookup].
    destruct Hm as [-> _]. consts. lia. }
  set (g1 := set_scanClock g (S (scanClock g))).
  destruct (solo_markL pol _ s o g1 (IScan :: k) mk' Ho Hq) as (f1 & tr1 & Htr1 & H1).
  set (g2 := set_marked g1 mk').
  destruct (IH g2 k) as (f2 & tr2 & g' & Hsc & Hck & Hmem & Hwd & Hmn & H2).
  { split; [done|]. simpl. congruence. }
  { simpl. lia. }
  exists (S (f1 + f2)), (IScan :: IMarkL s :: IMark (l o) :: tr1 ++ tr2), g'.
  split.
  { change (IScan :: IMarkL s :: IMark (l o) :: tr1 ++ tr2)
      with ([IScan; IMarkL s; IMark (l o)] ++ tr1 ++ tr2).
    rewrite !scans_app, (scans_mark_instr tr1 Htr1), Hsc. done. }
  split; [done|]. split; [done|]. split; [done|]. split.
  { intros j Hj. apply Hmn. simpl. by apply Hmono. }
  intros f'. cbn [Nat.add solo exec].
  destruct (Nat.ltb_spec (scanClock g) numThreads); [|lia].
  fold g1. cbn [scanClock g1 set_scanClock].
  replace (S (scanClock g) - 1) with (scanClock g) by lia. fold s.
  rewrite <- Nat.add_assoc, H1. fold g2. rewrite H2.
  destruct (solo pol f' g' k) as [[g3 tr3]|]; simpl; [|done].
  by rewrite <- app_assoc.
Qed.

Lemma fresh_path_marked m mk mk' p q :
  covered mk' p →
  (∀ x, mk' !! x = Some true → mk !! x = Some true ∨
        ∀ o, m !! x = Some o → covered mk' (l o) ∧ covered mk' (r o)) →
  fresh_path m mk p q → mk' !! q = Some true.
Proof.
  intros Hp Hnew (Hp0 & Hpu & Hpath).
  cut (mk' !! q = Some true ∧ mk !! q ≠ Some true); [by intros []|].
  revert q Hpath. apply rtc_ind_r.
  { split; [|done]. by destruct Hp. }
  intros y z _ [[Hz (o & Ho & Hf)] Hzu] [Hy Hyu]. split; [|done].
  destruct (Hnew y Hy) as [?|Hch]; [done|].
  destruct (Hch o Ho) as [[?|?] [?|?]]; destruct Hf; congruence.
Qed.

(** C4, as stated, fails: in a configuration of a trial the barrier
    finds the object it publishes already marked by the collector, which
    has not yet marked the right field; [mark] returns at once and the
    barrier ends with object 5, reachable from the published object 4,
    unmarked. *)
Lemma C4_collision_counterexample :
  ¬ (∀ c slot src o fuel g' tr,
       reachable transitive_mark c → src ≠ 0 →
       mem (glob c) !! src = Some o →
       solo transitive_mark fuel (glob c) (wbarrier transitive_mark slot src)
       = Ok (g', tr) →
       ∀ q, reach (mem (glob c)) (l o) q → marked g' !! q = Some true).
Proof.
  intros H.
  assert (reachable transitive_mark collision_config) as Hc.
  { apply (reachable_trial _ chain_choices (take 13 chain_schedule)).
    vm_compute. reflexivity. }
  specialize (H collision_config 3 1 (Obj 4 0) 10 _ _ Hc ltac:(done)
                ltac:(vm_compute; reflexivity) ltac:(vm_compute; reflexivity) 5).
  assert (reach (mem (glob collision_config)) 4 5) as Hr.
  { split; [done|]. apply rtc_once. split; [done|].
    exists (Obj 0 5). split; [vm_compute; reflexivity | by right]. }
  specialize (H Hr). vm_compute in H. discriminate H.
Qed.

(** C4, amended: under the transitive-mark policy [wbarrier(slot, src)]
    with [src] non-nil runs, in this order, [world.RLock()], the marker
    on the object [src]'s left field points to, [world.RUnlock()], the
    store and one [sched.Sched()].  Run to its return, the lock is as
    before, the marker has computed [mark] on the global mark set: the
    object is marked, no mark is lost, every object reached from it
    along objects that were unmarked on entry is marked, and every
    object it marked is reachable from it.  Objects behind an object
    that was already marked are not visited. *)
Theorem C4_barrier_marks_before_store g slot src o d :
  wf_state g → writer (world g) = false → src ≠ 0 →
  mem g !! src = Some o → mem g !! slot = Some d →
  ∃ fuel g' marks,
    solo transitive_mark fuel g (wbarrier transitive_mark slot src)
    = Ok (g', IRLock :: IMarkL src :: IMark (l o) :: marks
              ++ [IRUnlock; IStore slot src; ISched]) ∧
    Forall mark_instr marks ∧
    world g' = world g ∧
    mark_quiet (walk_fuel (mem g)) (mem g) (l o) (marked g) = Ok (marked g') ∧
    covered (marked g') (l o) ∧
    (∀ j, marked g !! j = Some true → marked g' !! j = Some true) ∧
    (∀ q, fresh_path (mem g) (marked g) (l o) q → marked g' !! q = Some true) ∧
    (∀ q, marked g' !! q = Some true →
          marked g !! q = Some true ∨ reach (mem g) (l o) q).
Proof.
  intros Hwf Hw Hsrc Ho Hd.
  destruct (solo_barrier_marks g slot src o d Hwf Hw Hsrc Ho Hd)
    as (fuel & marks & mk' & Hmarks & Hq & Hsolo).
  destruct Hwf as [Hm Hmk].
  destruct (mark_quiet_total (mem g) (l o) (marked g) Hm Hmk)
    as (mk2 & Hq2 & _ & Hmono & Hcov & Hnew).
  { eapply heap_ptr_lt; [|by eapply wf_mem_lookup].
    destruct Hm as [-> _]. consts. lia. }
  assert (mk2 = mk') as -> by congruence.
  eexists fuel, _, marks. split; [exact Hsolo|]. simpl.
  repeat split; try done.
  - intros q Hp. eapply fresh_path_marked; [exact Hcov| |exact Hp].
    intros x Hx. destruct (Hnew x Hx) as [?|[_ ?]]; [by left | by right].
  - intros q Hx. destruct (Hnew q Hx) as [?|[? _]]; [by left | by right].
Qed.

Lemma C4_barrier_marks_before_store_witness :
  ∃ fuel g' marks,
    solo transitive_mark fuel (glob collision_config)
      (wbarrier transitive_mark 3 1)
    = Ok (g', IRLock :: IMarkL 1 :: IMark 4 :: marks
              ++ [IRUnlock; IStore 3 1; ISched]) ∧
    mark_quiet (walk_fuel (mem (glob collision_config)))
      (mem (glob collision_config)) 4 (marked (glob collision_config))
    = Ok (marked g').
Proof.
  destruct (C4_barrier_marks_before_store (glob collision_config) 3 1
              (Obj 4 0) (Obj 0 0))
    as (fuel & g' & marks & H1 & _ & _ & H2 & _).
  - apply (bool_decide_unpack _). vm_compute. exact I.
  - vm_compute. reflexivity.
  - discriminate.
  - vm_compute. reflexivity.
  - vm_compute. reflexivity.
  - exists fuel, g', marks. split; [exact H1 | exact H2].
Defined.

(** C5: whatever the policy, [wbarrier(slot, val)] ends with the store
    [mem[slot].l = mem[val].l] followed by exactly one [sched.Sched()];
    the statements it runs before write no pointer field.  The store
    writes the value [val]'s left field holds when it runs and nothing
    else, so on return the memory differs from the memory on entry in
    the left field of [slot] only. *)
Theorem C5_barrier_store pol g slot val o d :
  wf_state g → writer (world g) = false →
  mem g !! val = Some o → mem g !! slot = Some d →
  (∃ pre, wbarrier pol slot val = pre ++ [IStore slot val; ISched]) ∧
  (∀ x k, exec pol x g (IStore slot val) k
          = Continue (set_mem g (<[slot := Obj (l o) (r d)]> (mem g))) k) ∧
  (∀ x k, exec pol x g ISched k = Yield g k) ∧
  ∃ fuel g' pre,
    solo pol fuel g (wbarrier pol slot val)
    = Ok (g', pre ++ [IStore slot val; ISched]) ∧
    Forall no_store pre ∧
    mem g' = <[slot := Obj (l o) (r d)]> (mem g).
Proof.
  intros Hwf Hw Ho Hd. split; [|split; [|split]].
  - unfold wbarrier. eauto.
  - intros x k. simpl.
    by rewrite (proj2 (index_Ok _ _ _) Ho), (proj2 (index_Ok _ _ _) Hd).
  - done.
  - destruct (solo_barrier pol g slot val o d Hwf Hw Ho Hd)
      as (fuel & g' & pre & Hpre & Hmem & Hsolo).
    by exists fuel, g', pre.
Qed.

Lemma C5_barrier_store_witness :
  ∃ fuel g' pre,
    solo transitive_mark fuel chain_state (wbarrier transitive_mark 3 1)
    = Ok (g', pre ++ [IStore 3 1; ISched]) ∧
    Forall no_store pre ∧
    mem g' = <[3 := Obj 4 0]> (mem chain_state).
Proof.
  apply (C5_barrier_store transitive_mark chain_state 3 1 (Obj 4 0) (Obj 0 0)).
  - apply (bool_decide_unpack _). vm_compute. exact I.
  - reflexivity.
  - reflexivity.
  - reflexivity.
Defined.

(** C7: the re-scan loop.  While the clock is below [numThreads] a round
    increments it and marks what the left field of the stack slot of
    thread [scanClock-1] holds at that time; the loop is left when the
    clock, which never exceeds [numThreads] in a trial, equals it.  Run
    to its exit from clock [c] it scans the threads [c .. numThreads-1]
    in order, loses no mark and ends with the clock at [numThreads]; so
    after a reset to zero every thread is scanned again. *)
Theorem C7_rescan_loop pol g k :
  wf_state g → scanClock g ≤ numThreads →
  (∀ x, scanClock g < numThreads →
        exec pol x g IScan k
        = Continue (set_scanClock g (S (scanClock g)))
            (IMarkL (stackBase + scanClock g) :: IScan :: k)) ∧
  (∀ x, scanClock g = numThreads → exec pol x g IScan k = Continue g k) ∧
  (∀ x (s : ptr) (o : obj) k', mem g !! s = Some o →
        exec pol x g (IMarkL s) k' = Continue g (IMark (l o) :: k')) ∧
  (∀ c, reachable pol c → scanClock (glob c) ≤ numThreads) ∧
  ∃ fuel tr g',
    solo pol fuel g [IScan] = Ok (g', tr) ∧
    scans tr = (λ i, stackBase + i) <$> seq (scanClock g) (numThreads - scanClock g) ∧
    scanClock g' = numThreads ∧ mem g' = mem g ∧
    (∀ j, marked g !! j = Some true → marked g' !! j = Some true).
Proof.
  intros Hwf Hc. split; [|split; [|split; [|split]]].
  - intros x Hlt. simpl. destruct (Nat.ltb_spec (scanClock g) numThreads); [|lia].
    by rewrite Nat.sub_0_r.
  - intros x Heq. simpl. destruct (Nat.ltb_spec (scanClock g) numThreads); [lia|done].
  - intros x s o k' Hs. simpl. by rewrite (proj2 (index_Ok _ _ _) Hs).
  - apply reachable_clock.
  - destruct (solo_scan pol (numThreads - scanClock g) g [] Hwf)
      as (f & tr & g' & Hsc & Hck & Hmem & _ & Hmono & H); [lia|].
    exists (f + 1), tr, g'. split; [|done].
    rewrite H. simpl. by rewrite app_nil_r.
Qed.

Lemma C7_rescan_loop_witness :
  ∃ fuel tr g',
    solo scan_restart fuel (set_scanClock chain_state 0) [IScan] = Ok (g', tr) ∧
    scans tr = [1; 2] ∧ scanClock g' = 2.
Proof.
  destruct (C7_rescan_loop scan_restart (set_scanClock chain_state 0) [])
    as (_ & _ & _ & _ & fuel & tr & g' & H1 & H2 & H3 & _).
  - apply (bool_decide_unpack _). vm_compute. exact I.
  - simpl. unfold numThreads. lia.
  - exists fuel, tr, g'. split; [exact H1|]. split; [exact H2 | exact H3].
Defined.

(** C2: the scan-restart branch of [wbarrier(slot, val)] tests
    [marked[val]], the mark bit of the source slot, not the mark bit of
    the object [mem[val].l] that the store publishes.  In the trial
    below mutator 0 publishes the global root, which is marked, and the
    barrier still resets the clock from 2 to 0, because stack slot 1
    itself is unmarked. *)
Theorem C2_restart_tests_source_slot :
  (∀ x g (val : ptr) k (b : bool), marked g !! val = Some b →
     exec scan_restart x g (IRestart val) k
     = Continue (if b then g else set_scanClock g 0) k) ∧
  trial scan_restart restart_choices (replicate 15 0 ++ [1; 0]) = Next restart_config ∧
  threads restart_config !! cur restart_config
  = Some (wbarrier scan_restart 3 1 ++ [ILoad 0; ISched]) ∧
  wbarrier scan_restart 3 1 = [IRestart 1; IStore 3 1; ISched] ∧
  mem (glob restart_config) !! 1 = Some (Obj 3 0) ∧
  marked (glob restart_config) !! 3 = Some true ∧
  marked (glob restart_config) !! 1 = Some false ∧
  scanClock (glob restart_config) = 2 ∧
  ∃ c', step scan_restart restart_config 0 = Next c' ∧
        scanClock (glob c') = 0.
Proof.
  split.
  { intros x g val k b Hb. simpl. rewrite (proj2 (index_Ok _ _ _) Hb). by destruct b. }
  repeat (split; [vm_compute; reflexivity|]).
  eexists. split; vm_compute; reflexivity.
Qed.

(** * Safety of the transitive-mark barrier

    The statements that are still to run are part of the invariant: an
    object may be unmarked although a marked object points to it, as
    long as some thread still has the [mark] call for it ahead. *)

(** How the obligations move when a statement that leaves the memory
    alone has run: each pending obligation of [P] is still pending in
    [P'], or has been replaced by the call it stands for, or is met. *)
Lemma logic_transfer g g' (P P' : instr → Prop) :
  mem g' = mem g →
  (∀ j, marked g !! j = Some true → marked g' !! j = Some true) →
  (∀ q, P (IMark q) → covered (marked g') q ∨ P' (IMark q)) →
  (∀ s o, P (IMarkL s) → mem g !! s = Some o →
          P' (IMarkL s) ∨ P' (IMark (l o)) ∨ covered (marked g') (l o)) →
  (∀ X o, P (IMarkR X) → mem g !! X = Some o →
          P' (IMarkR X) ∨ P' (IMark (r o)) ∨ covered (marked g') (r o)) →
  (∀ i, i < numThreads → P IScan → scanClock g ≤ i →
        (P' IScan ∧ scanClock g' ≤ i) ∨ P' (IMarkL (stackBase + i))) →
  (P last_go → P' last_go ∨ marked g' !! globalRoot = Some true) →
  (∀ ob s, P' (IStore ob s) → P (IStore ob s) ∨ P' (IMarkL s)) →
  (∀ X o, globalRoot ≤ X → marked g' !! X = Some true →
          marked g !! X ≠ Some true → mem g !! X = Some o →
          (covered (marked g') (l o) ∨ P' (IMark (l o))) ∧
          (covered (marked g') (r o) ∨ P' (IMark (r o)) ∨ P' (IMarkR X))) →
  logic g P → logic g' P'.
Proof.
  intros Em Hmono HM HL HR HS HG HB HN [H1 H2 H4 H5 H6].
  assert (∀ q, covered (marked g) q → covered (marked g') q) as Hcov.
  { intros q [?|?]; [by left | right; by apply Hmono]. }
  assert (∀ q, covered (marked g) q ∨ P (IMark q) →
               covered (marked g') q ∨ P' (IMark q)) as HM'.
  { intros q [?|?]; [left; by apply Hcov | by apply HM]. }
  split; rewrite ?Em.
  - destruct H1 as [?|H1]; [left; by apply Hmono|].
    destruct (HM _ H1) as [[?|?]|?]; [done | by left | by right].
  - destruct H2 as [?|H2]; [left; by apply Hmono|].
    destruct (HG H2) as [?|?]; [by right | by left].
  - intros X o HX Hmk Ho.
    destruct (decide (marked g !! X = Some true)) as [Hold|Hnew]; [|by eauto].
    destruct (H4 X o HX Hold Ho) as [Hl Hr]. split; [by apply HM'|].
    destruct Hr as [?|[?|Hr]]; [left; by apply Hcov | | ].
    + destruct (HM _ H); [by left | right; by left].
    + destruct (HR _ _ Hr Ho) as [?|[?|?]]; [right; by right | right; by left | by left].
  - intros i o Hi Ho.
    destruct (H5 i o Hi Ho) as [?|[H|[H|[(X & oX & H & HoX & Hro)|[H Hc]]]]].
    + left. by apply Hcov.
    + destruct (HM _ H); [by left | right; by left].
    + destruct (HL _ _ H Ho) as [?|[?|?]];
        [right; right; by left | right; by left | by left].
    + destruct (HR _ _ H HoX) as [?|[?|?]].
      * right; right; right; left. by exists X, oX.
      * right; left. by rewrite <- Hro.
      * left. by rewrite <- Hro.
    + destruct (HS i Hi H Hc) as [?|?];
        [right; right; right; by right | right; right; by left].
  - intros i ob o Hi Hs Ho. destruct (HB _ _ Hs) as [Hs'|?]; [|right; by right].
    destruct (H6 i ob o Hi Hs' Ho) as [?|[H|H]].
    + left. by apply Hcov.
    + destruct (HM _ H); [by left | right; by left].
    + destruct (HL _ _ H Ho) as [?|[?|?]];
        [right; by right | right; by left | by left].
Qed.

Lemma lookup_set_l (m : list obj) (ob : ptr) d v (X : ptr) oX' :
  m !! ob = Some d → <[ob := set_l d v]> m !! X = Some oX' →
  ∃ oX, m !! X = Some oX ∧ r oX' = r oX ∧
        (X ≠ ob → oX' = oX) ∧ (X = ob → l oX' = v ∧ oX = d).
Proof.
  intros Hd HX. destruct (decide (X = ob)) as [->|Hne].
  - rewrite list_lookup_insert_eq in HX by by eapply lookup_lt_Some.
    simplify_eq. exists d. done.
  - rewrite list_lookup_insert_ne in HX by done. exists oX'. naive_solver.
Qed.

Lemma lookup_set_l_r (m : list obj) (ob : ptr) d v (X : ptr) oX :
  m !! ob = Some d → m !! X = Some oX →
  ∃ oX', <[ob := set_l d v]> m !! X = Some oX' ∧ r oX' = r oX.
Proof.
  intros Hd HX. destruct (decide (X = ob)) as [->|Hne].
  - rewrite list_lookup_insert_eq by by eapply lookup_lt_Some.
    simplify_eq. by eexists.
  - rewrite list_lookup_insert_ne by done. by eexists.
Qed.

(** The store of the barrier: the value written was marked by the
    barrier, or its [mark] call is still pending. *)
Lemma logic_store g ob i0 o d (P P' : instr → Prop) :
  i0 < numThreads → globalRoot ≤ ob →
  mem g !! (stackBase + i0) = Some o → mem g !! ob = Some d →
  ¬ P (IMarkL (stackBase + i0)) → P (IStore ob (stackBase + i0)) →
  (∀ j, relevant j → P j → P' j) →
  (∀ j, is_store j → P' j → P j) →
  logic g P → logic (set_mem g (<[ob := set_l d (l o)]> (mem g))) P'.
Proof.
  intros Hi0 Hob Ho Hd HnL Hst Hrel Hsto [H1 H2 H4 H5 H6].
  assert (∀ i, i < numThreads → stackBase + i ≠ ob) as Hne by (consts; lia).
  split; cbn [mem marked scanClock set_mem].
  - destruct H1; [by left | right; by apply Hrel].
  - destruct H2; [by left | right; by apply Hrel].
  - intros X oX' HX Hmk HoX'.
    destruct (lookup_set_l _ _ _ _ _ _ Hd HoX') as (oX & HoX & Er & Hother & Hsame).
    destruct (H4 X oX HX Hmk HoX) as [Hl Hr]. rewrite Er. split; last first.
    { destruct Hr as [?|[?|?]]; [by left | right; left | right; right]; by apply Hrel. }
    destruct (decide (X = ob)) as [->|Hne'].
    + destruct (Hsame eq_refl) as [-> _].
      destruct (H6 i0 ob o Hi0 Hst Ho) as [?|[?|?]];
        [by left | right; by apply Hrel | done].
    + rewrite (Hother Hne'). destruct Hl; [by left | right; by apply Hrel].
  - intros i oi' Hi Hoi'. rewrite list_lookup_insert_ne in Hoi' by by apply not_eq_sym, Hne.
    destruct (H5 i oi' Hi Hoi') as [?|[?|[?|[(X & oX & ? & HoX & ?)|[? ?]]]]].
    + by left.
    + right; left. by apply Hrel.
    + right; right; left. by apply Hrel.
    + right; right; right; left.
      destruct (lookup_set_l_r _ _ _ (l o) _ _ Hd HoX) as (oX' & ? & Er).
      exists X, oX'. split; [by apply Hrel|]. split; [done | congruence].
    + right; right; right; right. split; [by apply Hrel | done].
  - intros i ob1 oi' Hi Hs Hoi'.
    rewrite list_lookup_insert_ne in Hoi' by by apply not_eq_sym, Hne.
    destruct (H6 i ob1 oi' Hi (Hsto (IStore ob1 _) I Hs) Hoi') as [?|[?|?]];
      [by left | right; left | right; right]; by apply Hrel.
Qed.

Lemma first_unmarked m (mk : list bool) p q :
  rtc (edge m) p q → mk !! p = Some true → mk !! q ≠ Some true →
  ∃ X D, rtc (edge m) p X ∧ mk !! X = Some true ∧ edge m X D ∧
         mk !! D ≠ Some true.
Proof.
  induction 1 as [p|p y q Hpy _ IH]; intros Hp Hq; [done|].
  destruct (decide (mk !! y = Some true)) as [Hy|Hy].
  - destruct (IH Hy Hq) as (X & D & HpX & ? & ? & ?).
    exists X, D. split; [by eapply rtc_l | done].
  - exists p, y. split; [apply rtc_refl | done].
Qed.

Lemma reach_heap m p q :
  wf_mem m → globalRoot ≤ p → p < length m → rtc (edge m) p q →
  globalRoot ≤ q ∧ q < length m.
Proof.
  intros Hm Hp Hlt H. induction H as [p|p y q [Hy (o & Ho & Hf)] _ IH]; [done|].
  destruct (wf_mem_lookup _ _ _ Hm Ho) as [Hl Hr].
  apply IH; destruct Hf as [<-|<-]; unfold heap_ptr in *; lia.
Qed.

(** What a mutator can load while no [mark] call is about to start: a
    marked object, nil, or the right field of an object whose marking is
    suspended before that field.  With three heap objects there is no
    room for another unmarked object behind it. *)
Lemma load_value g (P : instr → Prop) obj oo :
  wf_state g → logic g P →
  (∀ q, ¬ P (IMark q)) → ¬ P last_go → ¬ P (IMarkR globalRoot) →
  reach (mem g) globalRoot obj → mem g !! obj = Some oo →
  covered (marked g) (l oo) ∨
  ∃ X oX, P (IMarkR X) ∧ mem g !! X = Some oX ∧ r oX = l oo.
Proof.
  intros [Hm Hmk] [H1 H2 H4 H5 H6] HnM HnG HnR [_ Hreach] Hoo.
  assert (marked g !! globalRoot = Some true) as Hroot by (by destruct H2).
  pose proof Hm as [Hlen _].
  assert (globalRoot < length (mem g)) as Hrl by (rewrite Hlen; consts; lia).
  destruct (reach_heap _ _ _ Hm (Nat.le_refl _) Hrl Hreach) as [Hobj1 Hobj2].
  destruct (wf_mem_lookup _ _ _ Hm Hoo) as [Hv _].
  destruct (decide (marked g !! obj = Some true)) as [Hmo|Hmo].
  { destruct (H4 obj oo Hobj1 Hmo Hoo) as [[?|?] _]; [by left | by destruct (HnM (l oo))]. }
  destruct (first_unmarked _ _ _ _ Hreach Hroot Hmo)
    as (X & D & HX & HXm & [HD0 (oX & HoX & HD)] & HDm).
  destruct (reach_heap _ _ _ Hm (Nat.le_refl _) Hrl HX) as [HX1 HX2].
  destruct (wf_mem_lookup _ _ _ Hm HoX) as [HlX HrX].
  destruct (H4 X oX HX1 HXm HoX) as [Hl Hr].
  assert (r oX = D ∧ P (IMarkR X)) as [HrD HPX].
  { destruct HD as [<-|<-].
    - destruct Hl as [[?|?]|?]; [done | done | by destruct (HnM (l oX))].
    - split; [done|]. destruct Hr as [[?|?]|[?|?]]; [done | done | | done].
      by destruct (HnM (r oX)). }
  assert (X ≠ globalRoot) as HX3 by (by intros ->).
  assert (∀ n, marked g !! n ≠ Some true → n ≠ globalRoot ∧ n ≠ X) as Hun.
  { intros n Hn. split; intros ->; done. }
  destruct (Hun _ Hmo) as [? ?]. destruct (Hun _ HDm) as [? ?].
  assert (globalRoot ≤ D ∧ D < length (mem g)) as [HD1 HD2].
  { subst D. unfold heap_ptr in HrX. lia. }
  rewrite Hlen in *. unfold memSize in *.
  assert (obj = D) as -> by (consts; lia).
  destruct (decide (marked g !! l oo = Some true)) as [?|Hvm]; [left; by right|].
  destruct (decide (l oo = 0)) as [?|Hv0]; [left; by left|].
  right. exists X, oX. split; [done|]. split; [done|].
  destruct (Hun _ Hvm) as [? ?]. unfold heap_ptr in Hv. consts. lia.
Qed.

(** The load of a mutator. *)
Lemma logic_load g i0 obj oo d (P P' : instr → Prop) :
  wf_state g → i0 < numThreads →
  reach (mem g) globalRoot obj → mem g !! obj = Some oo →
  mem g !! (stackBase + i0) = Some d →
  (∀ q, ¬ P (IMark q)) → ¬ P last_go → ¬ P (IMarkR globalRoot) →
  (∀ ob, ¬ P' (IStore ob (stackBase + i0))) →
  (∀ j, relevant j → P j → P' j) →
  (∀ j, is_store j → P' j → P j) →
  logic g P →
  logic (set_mem g (<[stackBase + i0 := set_l d (l oo)]> (mem g))) P'.
Proof.
  intros Hwf Hi0 Hreach Hoo Hd HnM HnG HnR HnS Hrel Hsto Hlg.
  pose proof (load_value g P obj oo Hwf Hlg HnM HnG HnR Hreach Hoo) as Hv.
  destruct Hlg as [H1 H2 H4 H5 H6].
  split; cbn [mem marked scanClock set_mem].
  - destruct H1; [by left | right; by apply Hrel].
  - destruct H2; [by left | right; by apply Hrel].
  - intros X oX' HX Hmk HoX'.
    rewrite list_lookup_insert_ne in HoX' by (consts; lia).
    destruct (H4 X oX' HX Hmk HoX') as [Hl Hr]. split.
    + destruct Hl; [by left | right; by apply Hrel].
    + destruct Hr as [?|[?|?]]; [by left | right; left | right; right]; by apply Hrel.
  - intros i oi' Hi Hoi'.
    assert (∀ v, (∃ X oX, P (IMarkR X) ∧ mem g !! X = Some oX ∧ r oX = v) →
              ∃ X oX, P' (IMarkR X) ∧
                <[stackBase + i0 := set_l d (l oo)]> (mem g) !! X = Some oX ∧
                r oX = v) as Htr.
    { intros v (X & oX & ? & HoX & ?).
      destruct (lookup_set_l_r _ _ _ (l oo) _ _ Hd HoX) as (oX' & ? & Er).
      exists X, oX'. split; [by apply Hrel|]. split; [done | congruence]. }
    destruct (decide (i = i0)) as [->|Hne].
    + rewrite list_lookup_insert_eq in Hoi' by by eapply lookup_lt_Some.
      simplify_eq. cbn [l set_l]. destruct Hv as [?|Hv]; [by left|].
      right; right; right; left. by apply Htr.
    + rewrite list_lookup_insert_ne in Hoi' by (consts; lia).
      destruct (H5 i oi' Hi Hoi') as [?|[?|[?|[?|[? ?]]]]].
      * by left.
      * right; left. by apply Hrel.
      * right; right; left. by apply Hrel.
      * right; right; right; left. by apply Htr.
      * right; right; right; right. split; [by apply Hrel | done].
  - intros i ob1 oi' Hi Hs Hoi'.
    destruct (decide (i = i0)) as [->|Hne]; [by destruct (HnS ob1)|].
    rewrite list_lookup_insert_ne in Hoi' by (consts; lia).
    destruct (H6 i ob1 oi' Hi (Hsto (IStore ob1 _) I Hs) Hoi') as [?|[?|?]];
      [by left | right; left | right; right]; by apply Hrel.
Qed.

(** With no marking left to do, everything reachable from a root is
    marked, and the final check passes. *)
Lemma closed_heap_reach m (mk : list bool) p q :
  wf_mem m →
  (∀ X o, globalRoot ≤ X → mk !! X = Some true → m !! X = Some o →
          covered mk (l o) ∧ covered mk (r o)) →
  globalRoot ≤ p → mk !! p = Some true → rtc (edge m) p q →
  mk !! q = Some true.
Proof.
  intros Hm Hcl Hp Hpm H.
  induction H as [p|p y q [Hy (o & Ho & Hf)] _ IH]; [done|].
  destruct (wf_mem_lookup _ _ _ Hm Ho) as [Hl Hr].
  destruct (Hcl p o Hp Hpm Ho) as [Hcl' Hcr].
  apply IH.
  - destruct Hf as [<-|<-]; unfold heap_ptr in *; lia.
  - destruct Hf as [<-|<-]; [by destruct Hcl' | by destruct Hcr].
Qed.

Lemma logic_check g (P : instr → Prop) p :
  wf_state g → logic g P → (∀ j, relevant j → ¬ P j) →
  (p = globalRoot ∨
   ∃ i o, i < numThreads ∧ mem g !! (stackBase + i) = Some o ∧ p = l o) →
  checkmark g p = Ok tt.
Proof.
  intros [Hm Hmk] [H1 H2 H4 H5 H6] Hn Hp.
  assert (∀ X o, globalRoot ≤ X → marked g !! X = Some true →
                 mem g !! X = Some o →
                 covered (marked g) (l o) ∧ covered (marked g) (r o)) as Hcl.
  { intros X o HX HXm Ho. destruct (H4 X o HX HXm Ho) as [Hl Hr]. split.
    - destruct Hl as [?|?]; [done | by destruct (Hn (IMark (l o)))].
    - destruct Hr as [?|[?|?]]; [done | by destruct (Hn (IMark (r o))) |
                                 by destruct (Hn (IMarkR X))]. }
  pose proof Hm as [Hlen _].
  assert (heap_ptr (length (mem g)) p ∧ covered (marked g) p) as [Hhp Hcp].
  { destruct Hp as [->|(i & o & Hi & Ho & ->)].
    - split; [right; rewrite Hlen; consts; lia|]. right.
      destruct H2 as [?|?]; [done | by destruct (Hn last_go)].
    - split; [by destruct (wf_mem_lookup _ _ _ Hm Ho)|].
      destruct (H5 i o Hi Ho) as [?|[?|[?|[(X & oX & ? & _)|[? _]]]]]; [done|..].
      + by destruct (Hn (IMark (l o))).
      + by destruct (Hn (IMarkL (stackBase + i))).
      + by destruct (Hn (IMarkR X)).
      + by destruct (Hn IScan). }
  assert (p < length (mem g)) as Hplt.
  { eapply heap_ptr_lt; [|done]. rewrite Hlen. consts. lia. }
  pose proof (checkmark_spec (mem g) (wf_mem_in_range _ Hm) g p eq_refl Hmk Hplt) as H.
  destruct (checkmark g p) as [[]|f]; [done|]. destruct f; try done.
  destruct H as [[Hp0 Hr] Hu]. exfalso.
  destruct Hcp as [?|Hpm]; [done|].
  assert (globalRoot ≤ p) by (unfold heap_ptr in Hhp; lia).
  rewrite (closed_heap_reach _ _ _ _ Hm Hcl ltac:(done) Hpm Hr) in Hu. done.
Qed.

(** ** The statements the threads have left *)

Lemma pend_split ths t k j :
  ths !! t = Some k → pend ths j ↔ j ∈ k ∨ others ths t j.
Proof.
  intros Ht. split.
  - intros (t' & k' & Ht' & Hj). destruct (decide (t' = t)) as [->|Hne].
    + left. congruence.
    + right. by exists t', k'.
  - intros [Hj|(t' & k' & _ & Ht' & Hj)]; [by exists t, k | by exists t', k'].
Qed.

Lemma others_insert ths t k j : others (<[t := k]> ths) t j ↔ others ths t j.
Proof.
  split; intros (t' & k' & Hne & Ht' & Hj); exists t', k';
    (split; [done|]); (split; [|done]).
  - by rewrite list_lookup_insert_ne in Ht'.
  - by rewrite list_lookup_insert_ne.
Qed.

Lemma pend_insert ths t k j :
  t < length ths → pend (<[t := k]> ths) j ↔ j ∈ k ∨ others ths t j.
Proof.
  intros Ht. rewrite (pend_split _ t k), others_insert; [done|].
  by apply list_lookup_insert_eq.
Qed.

Lemma pend_app ths body j : pend (ths ++ [body]) j ↔ pend ths j ∨ j ∈ body.
Proof.
  split.
  - intros (t & k & Ht & Hj). apply lookup_app_Some in Ht as [Ht|[_ Ht]].
    + left. by exists t, k.
    + right. apply list_lookup_singleton_Some in Ht as [_ <-]. done.
  - intros [(t & k & Ht & Hj)|Hj].
    + exists t, k. split; [|done]. by apply lookup_app_l_Some.
    + exists (length ths), body. split; [|done].
      rewrite lookup_app_r by done. by rewrite Nat.sub_diag.
Qed.

Lemma logic_iff g (P P' : instr → Prop) :
  (∀ j, P j ↔ P' j) → logic g P → logic g P'.
Proof.
  intros H. apply logic_transfer; try done.
  - intros q ?. right. by apply H.
  - intros s o ? _. left. by apply H.
  - intros X o ? _. left. by apply H.
  - intros i _ ? ?. left. split; [by apply H | done].
  - intros ?. left. by apply H.
  - intros ob s ?. left. by apply H.
Qed.

(** ** What suspended threads can have left *)

Lemma frames_elem init F j : frames init F → j ∈ F → frame_ok init j.
Proof. intros HF Hj. exact (proj1 (Forall_forall _ _) HF j Hj). Qed.

Lemma mut_shape_susp i k t j :
  mut_shape i false k → S i ≠ t → j ∈ k → susp t j.
Proof.
  intros Hk Ht Hj. inversion Hk; subst; set_unfold in Hj.
  - destruct Hj as [->|[->|[->|[]]]]; done.
  - destruct Hj as [Hj|Hj].
    + pose proof (frames_elem _ _ _ H Hj) as Hf.
      destruct j; simpl in *; try done. destruct Hf as [_ Hf]. by apply Hf.
    + destruct Hj as [->|[->|[->|[->|[->|[]]]]]]; simpl; eauto.
  - destruct Hj as [->|[->|[]]]; done.
  - done.
Qed.

Lemma main_shape_susp n w k t j :
  main_shape n false w k → 1 < n → j ∈ k → susp t j.
Proof.
  intros Hk Hn Hj. inversion Hk; subst; try lia; set_unfold in Hj.
  - destruct Hj as [Hj|Hj].
    + pose proof (frames_elem _ _ _ H0 Hj) as Hf.
      destruct j; simpl in *; try done. destruct Hf as [_ Hf]. by apply Hf.
    + destruct Hj as [->|[->|[->|[->|[->|[->|[]]]]]]]; done.
  - destruct Hj as [->|[->|[->|[->|[->|[]]]]]]; done.
  - done.
Qed.

Lemma shapes_length g ths run :
  shapes_of g ths run → 1 ≤ length ths ∧ length ths ≤ 3.
Proof.
  intros [(km & _ & Hm) _ _ _ _]. inversion Hm; subst; lia.
Qed.

Lemma others_susp g ths t j :
  shapes_of g ths (Some t) → others ths t j → susp t j.
Proof.
  intros Hsh (t' & k & Hne & Hk & Hj).
  pose proof Hsh as [(km & Hkm & Hm) Hmut Hrun _ _].
  pose proof (Hrun t eq_refl) as Ht.
  destruct t' as [|i].
  - assert (km = k) as -> by congruence.
    rewrite bool_decide_eq_false_2 in Hm by congruence.
    eapply main_shape_susp; [done| |done].
    destruct t; [done | lia].
  - specialize (Hmut i k Hk).
    rewrite bool_decide_eq_false_2 in Hmut by congruence.
    by eapply mut_shape_susp.
Qed.

(** ** Holders of the shared lock *)

Lemma holding_false k : IRUnlock ∉ k → holding k = false.
Proof. intros H. unfold holding. by rewrite bool_decide_eq_false_2. Qed.

Lemma holding_true k : IRUnlock ∈ k → IRLock ∉ k → holding k = true.
Proof.
  intros H1 H2. unfold holding.
  by rewrite bool_decide_eq_true_2, bool_decide_eq_false_2.
Qed.

Lemma frames_no_lock init F j :
  frames init F → j = IRUnlock ∨ j = IRLock → j ∉ F.
Proof.
  intros HF Hj Hin. pose proof (frames_elem _ _ _ HF Hin).
  by destruct Hj as [->| ->].
Qed.

Ltac frames_facts :=
  repeat match goal with
  | HF : frames ?b ?F |- _ =>
      lazymatch goal with
      | _ : IRUnlock ∉ F |- _ => fail
      | _ =>
          pose proof (frames_no_lock b F IRUnlock HF (or_introl eq_refl));
          pose proof (frames_no_lock b F IRLock HF (or_intror eq_refl))
      end
  end.

Lemma main_shape_holding n b w k : main_shape n b w k → holding k = false.
Proof.
  intros Hk. apply holding_false.
  inversion Hk; subst; frames_facts; set_unfold; naive_solver.
Qed.

Lemma mut_marking_holding i k : mut_marking i k → holding k = true.
Proof.
  intros Hk.
  inversion Hk; subst; frames_facts; apply holding_true; set_unfold; naive_solver.
Qed.

(** A suspended mutator that does not hold the lock has no marking
    left to do. *)
Lemma mut_idle i k j :
  mut_shape i false k → holding k = false → j ∈ k → ¬ relevant j.
Proof.
  intros Hk Hh Hj. inversion Hk; subst.
  - set_unfold in Hj. naive_solver.
  - rewrite (mut_marking_holding i) in Hh by by constructor. done.
  - set_unfold in Hj. naive_solver.
  - set_unfold in Hj. naive_solver.
Qed.

Lemma nholders_insert ths t k k' :
  ths !! t = Some k →
  nholders (<[t := k']> ths) + (if holding k then 1 else 0)
  = nholders ths + (if holding k' then 1 else 0).
Proof.
  revert t. induction ths as [|k0 ths IH]; intros [|t] Ht; simplify_eq/=.
  - lia.
  - specialize (IH t Ht). lia.
Qed.

Lemma nholders_app ths k :
  nholders (ths ++ [k]) = nholders ths + (if holding k then 1 else 0).
Proof. induction ths as [|k0 ths IH]; simpl; lia. Qed.

Lemma nholders_zero ths t k :
  nholders ths = 0 → ths !! t = Some k → holding k = false.
Proof.
  revert t. induction ths as [|k0 ths IH]; intros [|t] H0 Ht; simplify_eq/=.
  - by destruct (holding k).
  - apply (IH t); [|done]. lia.
Qed.

(** ** Keeping the shapes *)

Lemma main_shape_run n b w k : main_shape n false w k → main_shape n b w k.
Proof. intros H. inversion H; subst; by constructor. Qed.

Lemma mut_shape_run i b k : mut_shape i false k → mut_shape i b k.
Proof. intros H. inversion H; subst; by constructor. Qed.

Lemma shapes_writer g ths i :
  shapes_of g ths (Some (S i)) → writer (world g) = false.
Proof.
  intros [(km & _ & Hm) _ _ _ _].
  rewrite bool_decide_eq_false_2 in Hm by done. by inversion Hm.
Qed.

Lemma shapes_resume g ths x :
  shapes_of g ths None → x < length ths → shapes_of g ths (Some x).
Proof.
  intros [(km & Hkm & Hm) Hmut _ Hrd Hex] Hx. split; try done.
  - exists km. split; [done|]. by apply main_shape_run.
  - intros i k Hk. by apply mut_shape_run, Hmut.
  - by intros t [= <-].
Qed.

Lemma shapes_update_main g g' ths run' km' :
  shapes_of g ths (Some 0) → run' = Some 0 ∨ run' = None →
  main_shape (length ths) (bool_decide (run' = Some 0)) (writer (world g')) km' →
  readers (world g') = readers (world g) →
  (writer (world g') = true → readers (world g') = 0) →
  shapes_of g' (<[0 := km']> ths) run'.
Proof.
  intros [(km & Hkm & Hm) Hmut Hrun Hrd Hex] Hrun' Hm' Hr Hw.
  pose proof (Hrun 0 eq_refl) as H0.
  split; rewrite ?length_insert; try done.
  - exists km'. split; [by apply list_lookup_insert_eq | done].
  - intros i k Hk. rewrite list_lookup_insert_ne in Hk by done.
    specialize (Hmut i k Hk). rewrite bool_decide_eq_false_2 in Hmut by done.
    rewrite bool_decide_eq_false_2 by (by destruct Hrun' as [-> | ->]). done.
  - intros t ->. destruct Hrun' as [[= ->]|?]; done.
  - pose proof (nholders_insert ths 0 km km' Hkm) as Hn.
    rewrite (main_shape_holding _ _ _ _ Hm), (main_shape_holding _ _ _ _ Hm') in Hn.
    lia.
Qed.

Lemma shapes_update_mut g g' ths i k k' run' :
  shapes_of g ths (Some (S i)) → run' = Some (S i) ∨ run' = None →
  ths !! S i = Some k →
  mut_shape i (bool_decide (run' = Some (S i))) k' →
  writer (world g') = writer (world g) →
  readers (world g') + (if holding k then 1 else 0)
  = readers (world g) + (if holding k' then 1 else 0) →
  shapes_of g' (<[S i := k']> ths) run'.
Proof.
  intros Hsh Hrun' Hk Hk' Hw Hr.
  pose proof (shapes_writer _ _ _ Hsh) as Hwf.
  destruct Hsh as [(km & Hkm & Hm) Hmut Hrun Hrd Hex].
  pose proof (Hrun _ eq_refl) as Hi.
  split; rewrite ?length_insert.
  - exists km. split; [by rewrite list_lookup_insert_ne|].
    rewrite Hw. rewrite bool_decide_eq_false_2 in Hm by done.
    rewrite bool_decide_eq_false_2 by (by destruct Hrun' as [-> | ->]). done.
  - intros i1 k1 Hk1. destruct (decide (i1 = i)) as [->|Hne].
    + rewrite list_lookup_insert_eq in Hk1 by done. by simplify_eq.
    + rewrite list_lookup_insert_ne in Hk1 by congruence.
      specialize (Hmut i1 k1 Hk1).
      rewrite bool_decide_eq_false_2 in Hmut by congruence.
      rewrite bool_decide_eq_false_2; [done|].
      destruct Hrun' as [-> | ->]; congruence.
  - intros t ->. destruct Hrun' as [[= ->]|?]; done.
  - pose proof (nholders_insert ths (S i) k k' Hk) as Hn. lia.
  - congruence.
Qed.

Lemma shapes_fork g ths km' id :
  shapes_of g ths (Some 0) → length ths = S id →
  main_shape (S (length ths)) true (writer (world g)) km' →
  shapes_of g (<[0 := km']> ths ++ [mutator id]) (Some 0).
Proof.
  intros [(km & Hkm & Hm) Hmut Hrun Hrd Hex] Hid Hm'.
  pose proof (Hrun 0 eq_refl) as H0.
  assert (length (<[0 := km']> ths ++ [mutator id]) = S (length ths)) as Hlen.
  { rewrite length_app, length_insert. simpl. lia. }
  split; rewrite ?Hlen; try done.
  - exists km'. split; [|done]. rewrite lookup_app_l by (rewrite length_insert; lia).
    by apply list_lookup_insert_eq.
  - intros i k Hk. apply lookup_app_Some in Hk as [Hk|[Hge Hk]].
    + rewrite list_lookup_insert_ne in Hk by done. by apply Hmut.
    + rewrite length_insert in Hge, Hk.
      apply list_lookup_singleton_Some in Hk as [Hi <-].
      assert (i = id) as -> by lia. constructor.
  - intros t [= <-]. lia.
  - rewrite nholders_app.
    pose proof (nholders_insert ths 0 km km' Hkm) as Hn.
    rewrite (main_shape_holding _ _ _ _ Hm), (main_shape_holding _ _ _ _ Hm') in Hn.
    rewrite holding_false by (unfold mutator; set_unfold; naive_solver). lia.
Qed.

(** ** The invariant, statement by statement

    [Q] stands for what the running thread has left after the statement
    and what the other threads have left. *)

Ltac transfer_other :=
  repeat match goal with
  | |- _ ∨ _ → _ => intros [?|?]
  | |- _ → _ => intro
  end;
  simplify_eq; set_unfold; eauto 10.

Lemma logic_quiet g g' i new (Q : instr → Prop) :
  mem g' = mem g → marked g' = marked g → scanClock g' = scanClock g →
  ¬ relevant i → Forall (λ j, ¬ relevant j ∧ ¬ is_store j) new →
  logic g (λ j, j = i ∨ Q j) → logic g' (λ j, j ∈ new ∨ Q j).
Proof.
  intros Em Ek Ec Hi Hnew. rewrite Forall_forall in Hnew.
  apply logic_transfer; rewrite ?Ek, ?Ec; try done.
  - intros q [<-|?]; [by destruct Hi | right; by right].
  - intros s o [<-|?] _; [by destruct Hi | left; by right].
  - intros X o [<-|?] _; [by destruct Hi | left; by right].
  - intros n _ [<-|?] ?; [by destruct Hi | left; split; [by right | done]].
  - intros [E|?]; [destruct Hi; by rewrite <- E | left; by right].
  - intros ob s [Hin|?]; [|left; by right].
    by destruct (Hnew _ Hin) as [_ []].
Qed.

Lemma logic_mark_skip g q (Q : instr → Prop) :
  covered (marked g) q →
  logic g (λ j, j = IMark q ∨ Q j) → logic g (λ j, j ∈ [] ∨ Q j).
Proof.
  intros Hq. apply logic_transfer; try done.
  - intros p [[= ->]|?]; [by left | right; by right].
  - intros s o [?|?] _; [done | left; by right].
  - intros X o [?|?] _; [done | left; by right].
  - intros n _ [?|?] ?; [done | left; split; [by right | done]].
  - intros [?|?]; [done | left; by right].
  - intros ob s [Hin|?]; [by apply elem_of_nil in Hin | left; by right].
Qed.

Lemma logic_mark_new g q o (Q : instr → Prop) :
  marked g !! q = Some false → mem g !! q = Some o →
  logic g (λ j, j = IMark q ∨ Q j) →
  logic (set_marked g (<[q := true]> (marked g)))
        (λ j, j ∈ [IMark (l o); ISched; IMarkR q; ISched] ∨ Q j).
Proof.
  intros Hq Ho.
  assert (q < length (marked g)) as Hlt by by eapply lookup_lt_Some.
  apply logic_transfer; cbn [mem marked scanClock set_marked]; try done.
  - intros j Hj. destruct (decide (j = q)) as [->|?]; [congruence|].
    by rewrite list_lookup_insert_ne.
  - intros p [[= ->]|?]; [|right; by right].
    left. right. by apply list_lookup_insert_eq.
  - intros s o' [?|?] _; [done | left; by right].
  - intros X o' [?|?] _; [done | left; by right].
  - intros n _ [?|?] ?; [done | left; split; [by right | done]].
  - intros [?|?]; [done | left; by right].
  - intros ob s [Hin|?]; [set_unfold; naive_solver | left; by right].
  - intros X o' _ HX HXn Ho'. destruct (decide (X = q)) as [->|?].
    + assert (o' = o) as -> by congruence. split.
      * right. left. set_unfold. eauto.
      * right. right. left. set_unfold. eauto.
    + by rewrite list_lookup_insert_ne in HX.
Qed.

Lemma logic_markL g s o (Q : instr → Prop) :
  mem g !! s = Some o →
  logic g (λ j, j = IMarkL s ∨ Q j) → logic g (λ j, j ∈ [IMark (l o)] ∨ Q j).
Proof.
  intros Ho. apply logic_transfer; try done.
  - intros p [?|?]; [done | right; by right].
  - intros s' o' [[= ->]|?] Ho'; [|left; by right].
    assert (o' = o) as -> by congruence. right. left. left. set_unfold. eauto.
  - intros X o' [?|?] _; [done | left; by right].
  - intros n _ [?|?] ?; [done | left; split; [by right | done]].
  - intros [?|?]; [done | left; by right].
  - intros ob s' [Hin|?]; [set_unfold; naive_solver | left; by right].
Qed.

Lemma logic_markR g X o (Q : instr → Prop) :
  mem g !! X = Some o →
  logic g (λ j, j = IMarkR X ∨ Q j) → logic g (λ j, j ∈ [IMark (r o)] ∨ Q j).
Proof.
  intros Ho. apply logic_transfer; try done.
  - intros p [?|?]; [done | right; by right].
  - intros s' o' [?|?] Ho'; [done | left; by right].
  - intros X' o' [[= ->]|?] Ho'; [|left; by right].
    assert (o' = o) as -> by congruence. right. left. left. set_unfold. eauto.
  - intros n _ [?|?] ?; [done | left; split; [by right | done]].
  - intros [?|?]; [done | left; by right].
  - intros ob s' [Hin|?]; [set_unfold; naive_solver | left; by right].
Qed.

Lemma logic_scan g (Q : instr → Prop) :
  scanClock g < numThreads →
  logic g (λ j, j = IScan ∨ Q j) →
  logic (set_scanClock g (S (scanClock g)))
        (λ j, j ∈ [IMarkL (stackBase + scanClock g); IScan] ∨ Q j).
Proof.
  intros Hc. apply logic_transfer; cbn [mem marked scanClock set_scanClock]; try done.
  - intros p [?|?]; [done | right; by right].
  - intros s' o' [?|?] Ho'; [done | left; by right].
  - intros X' o' [?|?] Ho'; [done | left; by right].
  - intros n _ _ Hn. destruct (decide (n = scanClock g)) as [->|?].
    + right. left. set_unfold. eauto.
    + left. split; [left; set_unfold; eauto | lia].
  - intros [?|?]; [done | left; by right].
  - intros ob s' [Hin|?]; [set_unfold; naive_solver | left; by right].
Qed.

Lemma logic_scan_exit g (Q : instr → Prop) :
  ¬ scanClock g < numThreads →
  logic g (λ j, j = IScan ∨ Q j) → logic g (λ j, j ∈ [] ∨ Q j).
Proof.
  intros Hc. apply logic_transfer; try done.
  - intros p [?|?]; [done | right; by right].
  - intros s' o' [?|?] Ho'; [done | left; by right].
  - intros X' o' [?|?] Ho'; [done | left; by right].
  - intros n Hn _ ?. lia.
  - intros [?|?]; [done | left; by right].
  - intros ob s' [Hin|?]; [set_unfold; naive_solver | left; by right].
Qed.

Lemma logic_go g id (Q : instr → Prop) :
  (id = numThreads - 1 → ¬ Q (IMark globalRoot)) →
  logic g (λ j, j = IGo id ∨ Q j) → logic g (λ j, j ∈ mutator id ∨ Q j).
Proof.
  intros Hid Hlg. pose proof (lg_root _ _ Hlg) as Hroot.
  revert Hlg. apply logic_transfer; try done.
  - intros p [?|?]; [done | right; by right].
  - intros s' o' [?|?] Ho'; [done | left; by right].
  - intros X' o' [?|?] Ho'; [done | left; by right].
  - intros n _ [?|?] ?; [done | left; split; [by right | done]].
  - intros [E|?]; [|left; by right].
    assert (id = numThreads - 1) by (unfold last_go in E; congruence).
    right. destruct Hroot as [?|[?|?]]; [done | done |].
    by destruct Hid.
  - intros ob s' [Hin|?]; [unfold mutator in Hin; set_unfold; naive_solver | left; by right].
Qed.

Lemma logic_publish g i0 ob (Q : instr → Prop) :
  logic g (λ j, j = IPublish i0 ∨ Q j) →
  logic g (λ j, j ∈ wbarrier transitive_mark ob (stackBase + i0) ∨ Q j).
Proof.
  apply logic_transfer; try done.
  - intros p [?|?]; [done | right; by right].
  - intros s' o' [?|?] Ho'; [done | left; by right].
  - intros X' o' [?|?] Ho'; [done | left; by right].
  - intros n _ [?|?] ?; [done | left; split; [by right | done]].
  - intros [?|?]; [done | left; by right].
  - intros ob' s' [Hin|?]; [|left; by right].
    right. left. unfold wbarrier in *. consts.
    set_unfold. naive_solver.
Qed.

(** ** One step keeps the invariant *)

Lemma shapes_thread g ths t k :
  shapes_of g ths (Some t) → ths !! t = Some k →
  thread_shape (length ths) (writer (world g)) t true k.
Proof.
  intros [(km & Hkm & Hm) Hmut _ _ _] Hk. destruct t as [|i]; simpl.
  - assert (km = k) as -> by congruence.
    by rewrite bool_decide_eq_true_2 in Hm.
  - specialize (Hmut i k Hk). by rewrite bool_decide_eq_true_2 in Hmut.
Qed.

Lemma shapes_update g g' ths t k k' run' :
  shapes_of g ths (Some t) → run' = Some t ∨ run' = None →
  ths !! t = Some k →
  world g' = world g → holding k' = holding k →
  thread_shape (length ths) (writer (world g)) t (bool_decide (run' = Some t)) k' →
  shapes_of g' (<[t := k']> ths) run'.
Proof.
  intros Hsh Hrun' Hk Hw Hh Hk'. destruct t as [|i]; simpl in Hk'.
  - eapply shapes_update_main; try done; rewrite Hw; try done.
    by destruct Hsh.
  - eapply shapes_update_mut; try done; rewrite Hw, ?Hh; done.
Qed.

Lemma inv_logic_split g ths t i k :
  ths !! t = Some (i :: k) → logic g (pend ths) →
  logic g (λ j, j = i ∨ (j ∈ k ∨ others ths t j)).
Proof.
  intros Ht. apply logic_iff. intros j.
  rewrite (pend_split ths t (i :: k) j Ht). set_unfold. tauto.
Qed.

Lemma inv_next g' ths t i k new :
  ths !! t = Some (i :: k) → wf_state g' →
  shapes_of g' (<[t := new ++ k]> ths) (Some t) →
  logic g' (λ j, j ∈ new ∨ (j ∈ k ∨ others ths t j)) →
  inv (Config g' (<[t := new ++ k]> ths) t).
Proof.
  intros Ht Hwf Hsh Hlg. split; try done. simpl.
  revert Hlg. apply logic_iff. intros j.
  rewrite pend_insert by by eapply lookup_lt_Some.
  set_unfold. tauto.
Qed.

Lemma inv_switch g ths t x :
  wf_state g → shapes_of g ths None → logic g (pend ths) → t < length ths →
  step_ok (switch g ths t x).
Proof.
  intros Hwf Hsh Hlg Ht. unfold switch.
  destruct ((x =? t) || runnable ths x) eqn:Hx; [|done]. simpl.
  split; try done. simpl. apply shapes_resume; [done|].
  apply orb_true_iff in Hx as [Hx|Hx].
  - apply Nat.eqb_eq in Hx. by subst.
  - unfold runnable in Hx. destruct (ths !! x) as [[|??]|] eqn:E; try done.
    by eapply lookup_lt_Some.
Qed.

(** A thread yields: the statement after [sched.Sched()] is next when
    it is chosen again. *)
Lemma inv_yield g ths t k x :
  inv (Config g ths t) → ths !! t = Some (ISched :: k) →
  holding k = holding (ISched :: k) →
  thread_shape (length ths) (writer (world g)) t false k →
  step_ok (switch g (<[t := k]> ths) t x).
Proof.
  intros [Hwf Hsh Hlg] Ht Hh Hk. simpl in *.
  apply inv_switch; [done| | |rewrite length_insert; by eapply lookup_lt_Some].
  - eapply (shapes_update g g ths t (ISched :: k) k None);
      [done | by right | done | done | done | by rewrite bool_decide_eq_false_2].
  - apply (inv_logic_split _ _ _ _ _ Ht) in Hlg.
    apply (logic_quiet g g ISched []) in Hlg; try done; [|by intros []].
    revert Hlg. apply logic_iff. intros j.
    rewrite pend_insert by by eapply lookup_lt_Some.
    set_unfold. tauto.
Qed.

Lemma holding_cons_frame i k :
  i ≠ IRUnlock → i ≠ IRLock → holding (i :: k) = holding k.
Proof.
  intros H1 H2. unfold holding.
  f_equal; [|f_equal]; apply bool_decide_ext; set_unfold; naive_solver.
Qed.

Lemma mark_ctx_init : mark_ctx 1 false 0 true go_tail.
Proof.
  split; simpl.
  - intros. by constructor.
  - intros. by constructor.
  - intros q F F' HF HF'.
    rewrite holding_cons_frame by done.
    rewrite (main_shape_holding 1 true false (F ++ go_tail)) by by constructor.
    by rewrite (main_shape_holding 1 true false (F' ++ go_tail)) by by constructor.
Qed.

Lemma mark_ctx_scan : mark_ctx 3 false 0 false scan_tail.
Proof.
  split; simpl.
  - intros. by constructor.
  - intros. by constructor.
  - intros q F F' HF HF'.
    rewrite holding_cons_frame by done.
    rewrite (main_shape_holding 3 true false (F ++ scan_tail)) by by constructor.
    by rewrite (main_shape_holding 3 true false (F' ++ scan_tail)) by by constructor.
Qed.

Lemma mark_ctx_barrier n w i o :
  heap_index o → mark_ctx n w (S i) false (barrier_rest i o).
Proof.
  intros Ho. split; simpl.
  - intros. by constructor.
  - intros. by constructor.
  - intros q F F' HF HF'.
    rewrite (mut_marking_holding i (IMark q :: F ++ barrier_rest i o))
      by by constructor.
    by rewrite (mut_marking_holding i (F' ++ barrier_rest i o)) by by constructor.
Qed.

Lemma wf_marked_lookup g q :
  wf_state g → q < memSize → ∃ b, marked g !! q = Some b.
Proof.
  intros [[Hlen _] Hmk] Hq. apply lookup_lt_is_Some_2. lia.
Qed.

Lemma wf_mem_lookup_lt g q :
  wf_state g → q < memSize →
  ∃ o, mem g !! q = Some o ∧ l o < memSize ∧ r o < memSize.
Proof.
  intros [Hm Hmk] Hq. pose proof Hm as [Hlen _].
  destruct (lookup_lt_is_Some_2 (mem g) q) as [o Ho]; [lia|].
  exists o. split; [done|].
  destruct (wf_mem_lookup _ _ _ Hm Ho) as [Hl Hr]. rewrite Hlen in *.
  split; eapply heap_ptr_lt; try done; consts; lia.
Qed.

Lemma set_marked_wf g q :
  wf_state g → wf_state (set_marked g (<[q := true]> (marked g))).
Proof. intros [? ?]. split; [done|]. simpl. by rewrite length_insert. Qed.

(** [mark(q)] at the head of the running thread. *)
Lemma step_mark g ths t q F T init x :
  inv (Config g ths t) → ths !! t = Some (IMark q :: F ++ T) →
  mark_ctx (length ths) (writer (world g)) t init T →
  q < memSize → frames init F →
  (init = false → marked g !! globalRoot = Some true) →
  step_ok (step transitive_mark (Config g ths t) x).
Proof.
  intros [Hwf Hsh Hlg] Ht Hctx Hq HF Hroot. simpl in *.
  apply (inv_logic_split _ _ _ _ _ Ht) in Hlg.
  assert (∀ (Hc : covered (marked g) q),
            inv (Config g (<[t := F ++ T]> ths) t)) as Hskip.
  { intros Hc. apply (inv_next g ths t (IMark q) (F ++ T) []); try done.
    - eapply (shapes_update g g ths t _ _ (Some t)); try done; [by left| |].
      + symmetry. by apply (mc_hold _ _ _ _ _ Hctx q F F).
      + rewrite bool_decide_eq_true_2 by done. by apply (mc_frames _ _ _ _ _ Hctx).
    - exact (logic_mark_skip g q _ Hc Hlg). }
  unfold step. simpl. rewrite Ht. cbn [exec].
  destruct (Nat.eqb_spec q 0) as [->|Hq0]; simpl.
  { apply Hskip. by left. }
  destruct (wf_marked_lookup g q Hwf Hq) as [b Hb].
  rewrite (proj2 (index_Ok _ _ _) Hb). simpl. destruct b; simpl.
  { apply Hskip. by right. }
  destruct (wf_mem_lookup_lt g q Hwf Hq) as (o & Ho & Hl & Hr).
  rewrite (proj2 (index_Ok _ _ _) Ho). simpl.
  apply (inv_next _ ths t (IMark q) (F ++ T) [IMark (l o); ISched; IMarkR q; ISched]);
    try done.
  - by apply set_marked_wf.
  - assert (frames init (ISched :: IMarkR q :: ISched :: F)) as HF'.
    { constructor; [done|]. constructor; [|by constructor].
      split; [done|]. intros ->. specialize (Hroot eq_refl).
      intros ->. congruence. }
    eapply (shapes_update g _ ths t _ _ (Some t)); try done; [by left| |].
    + simpl. rewrite (mc_hold _ _ _ _ _ Hctx _ _ F HF' HF).
      by rewrite (mc_hold _ _ _ _ _ Hctx q F F HF HF).
    + rewrite bool_decide_eq_true_2 by done.
      by apply (mc_mark _ _ _ _ _ Hctx (l o) (ISched :: IMarkR q :: ISched :: F)).
  - exact (logic_mark_new g q o _ Hb Ho Hlg).
Qed.

(** A suspended [mark] call resumes. *)
Lemma step_frames g ths t f F T init x :
  inv (Config g ths t) → ths !! t = Some (f :: F ++ T) →
  mark_ctx (length ths) (writer (world g)) t init T →
  frames init (f :: F) →
  step_ok (step transitive_mark (Config g ths t) x).
Proof.
  intros Hinv Ht Hctx HF. pose proof Hinv as [Hwf Hsh Hlg]. simpl in *.
  inversion HF as [|?? Hf HF']; subst.
  unfold step. simpl. rewrite Ht.
  destruct f; try done; cbn [exec].
  - (* IMarkR *)
    destruct Hf as [Hp _].
    destruct (wf_mem_lookup_lt g p Hwf Hp) as (o & Ho & Hl & Hr).
    rewrite (proj2 (index_Ok _ _ _) Ho). simpl.
    apply (inv_next _ ths t (IMarkR p) (F ++ T) [IMark (r o)]); try done.
    + eapply (shapes_update g _ ths t _ _ (Some t)); try done; [by left| |].
      * simpl. by rewrite !holding_cons_frame by done.
      * rewrite bool_decide_eq_true_2 by done.
        by apply (mc_mark _ _ _ _ _ Hctx (r o) F).
    + exact (logic_markR g p o _ Ho (inv_logic_split _ _ _ _ _ Ht Hlg)).
  - (* ISched *)
    apply inv_yield; try done.
    + by rewrite holding_cons_frame.
    + by apply (mc_frames _ _ _ _ _ Hctx).
Qed.

Lemma root_marked g ths t k :
  shapes_of g ths (Some t) → logic g (pend ths) →
  ths !! t = Some k → last_go ∉ k →
  marked g !! globalRoot = Some true.
Proof.
  intros Hsh Hlg Ht Hk. destruct (lg_spawned _ _ Hlg) as [?|Hp]; [done|].
  apply (pend_split _ _ _ _ Ht) in Hp as [?|Ho]; [done|].
  by apply (others_susp _ _ _ _ Hsh) in Ho.
Qed.

Lemma nholders_pos ths t k :
  ths !! t = Some k → holding k = true → 0 < nholders ths.
Proof.
  intros Ht Hk. destruct (nholders ths) eqn:E; [|lia].
  by rewrite (nholders_zero _ _ _ E Ht) in Hk.
Qed.

(** While [main] holds the lock exclusively no mutator has marking
    left to do. *)
Lemma check_idle g ths j :
  shapes_of g ths (Some 0) → writer (world g) = true →
  relevant j → ¬ others ths 0 j.
Proof.
  intros [_ Hmut _ Hrd Hex] Hw Hj (t & k & Hne & Hk & Hin).
  destruct t as [|i]; [done|]. specialize (Hmut i k Hk).
  rewrite bool_decide_eq_false_2 in Hmut by done.
  rewrite (Hex Hw) in Hrd. symmetry in Hrd.
  by apply (mut_idle i k j Hmut (nholders_zero _ _ _ Hrd Hk) Hin).
Qed.

(** The running thread stops running without a change of state. *)
Lemma inv_suspend g ths t k x :
  inv (Config g ths t) → ths !! t = Some k →
  thread_shape (length ths) (writer (world g)) t false k →
  step_ok (switch g ths t x).
Proof.
  intros [Hwf Hsh Hlg] Ht Hk. simpl in *.
  apply inv_switch; try done; [|by eapply lookup_lt_Some].
  rewrite <- (list_insert_id ths t k Ht).
  eapply (shapes_update g g ths t k k None);
    [done | by right | done | done | done | by rewrite bool_decide_eq_false_2].
Qed.

Lemma step_finished g ths t x :
  inv (Config g ths t) → ths !! t = Some [] →
  step_ok (switch g ths t x).
Proof.
  intros Hinv Ht. eapply inv_suspend; try done.
  pose proof (shapes_thread _ _ _ _ (inv_shapes _ Hinv) Ht) as Hk.
  simpl in *. destruct t; simpl in *; inversion Hk; subst; try constructor; try done.
  all: destruct F; simplify_eq/=.
Qed.

Lemma logic_pend_fork g ths k body :
  0 < length ths →
  logic g (λ j, j ∈ body ∨ (j ∈ k ∨ others ths 0 j)) →
  logic g (pend (<[0 := k]> ths ++ [body])).
Proof.
  intros Hlen. apply logic_iff. intros j.
  rewrite pend_app, pend_insert by done. tauto.
Qed.

Lemma no_others_mark g ths t q :
  shapes_of g ths (Some t) → ¬ others ths t (IMark q).
Proof. intros Hsh Ho. by apply (others_susp _ _ _ _ Hsh) in Ho. Qed.

Lemma check_no_pending g ths k :
  shapes_of g ths (Some 0) → ths !! 0 = Some k → writer (world g) = true →
  (∀ j, j ∈ k → ¬ relevant j) →
  ∀ j, relevant j → ¬ pend ths j.
Proof.
  intros Hsh Hk Hw Hnk j Hj Hp.
  apply (pend_split _ _ _ _ Hk) in Hp as [Hin|Ho].
  - by apply (Hnk j Hin).
  - by apply (check_idle g ths j Hsh Hw Hj).
Qed.

Ltac run_step Ht :=
  unfold step; cbn [threads cur glob]; rewrite Ht; cbn [exec step_ok].

Lemma inv_next_main g g' ths i k new :
  inv (Config g ths 0) → ths !! 0 = Some (i :: k) → wf_state g' →
  readers (world g') = readers (world g) →
  (writer (world g') = true → readers (world g') = 0) →
  main_shape (length ths) true (writer (world g')) (new ++ k) →
  logic g' (λ j, j ∈ new ∨ (j ∈ k ∨ others ths 0 j)) →
  inv (Config g' (<[0 := new ++ k]> ths) 0).
Proof.
  intros [_ Hsh _] Ht Hwf Hr Hex Hm Hlg. simpl in *.
  apply (inv_next _ ths 0 i k new); try done.
  eapply shapes_update_main; [exact Hsh | by left | | done | done].
  by rewrite bool_decide_eq_true_2.
Qed.

Lemma inv_next_mut g g' ths i0 i k new :
  inv (Config g ths (S i0)) → ths !! S i0 = Some (i :: k) → wf_state g' →
  writer (world g') = writer (world g) →
  readers (world g') + (if holding (i :: k) then 1 else 0)
  = readers (world g) + (if holding (new ++ k) then 1 else 0) →
  mut_shape i0 true (new ++ k) →
  logic g' (λ j, j ∈ new ∨ (j ∈ k ∨ others ths (S i0) j)) →
  inv (Config g' (<[S i0 := new ++ k]> ths) (S i0)).
Proof.
  intros [_ Hsh _] Ht Hwf Hw Hr Hm Hlg. simpl in *.
  apply (inv_next _ ths (S i0) i k new); try done.
  eapply shapes_update_mut; [exact Hsh | by left | exact Ht | | done | done].
  by rewrite bool_decide_eq_true_2.
Qed.

(** The steps of [main]. *)
Lemma step_main g ths x i k :
  inv (Config g ths 0) → ths !! 0 = Some (i :: k) →
  step_ok (step transitive_mark (Config g ths 0) x).
Proof.
  intros Hinv Ht. pose proof Hinv as [Hwf Hsh Hlg]. simpl in *.
  pose proof (shapes_thread _ _ _ _ Hsh Ht) as Hm. simpl in Hm.
  assert (0 < length ths) as Hlen by by eapply lookup_lt_Some.
  pose proof (inv_logic_split _ _ _ _ _ Ht Hlg) as Hlg'.
  inversion Hm as
    [ q F Hn Hq HF Hb Hw Hc | b F Hn HF Hb Hw Hc | Hn Hb Hw Hc
    | q F Hn Hq HF Hb Hw Hc | b F Hn HF Hb Hw Hc | i0 Hn Hi0 Hb Hw Hc
    | b Hn Hb Hw Hc | Hn Hb Hw Hc | Hn Hb Hw Hc | Hn Hb Hw Hc | Hn Hb Hw Hc
    | b Hn Hb Hw Hc ]; subst.
  - (* the first mark of the root *)
    eapply (step_mark g ths 0 q F go_tail true); try done.
    rewrite Hn, <- Hw. apply mark_ctx_init.
  - destruct F as [|f F]; unfold go_tail, scan_tail, lock_tail in Hc; simplify_eq/=.
    + (* sched.Go(mutator 0) *)
      run_step Ht. split; simpl; [done| |].
      * apply (shapes_fork g ths _ 0); [done | done |].
        rewrite Hn, <- Hw. by constructor.
      * apply logic_pend_fork; [done|].
        by apply (logic_go g 0).
    + eapply (step_frames g ths 0 i F go_tail true); try done.
      rewrite Hn, <- Hw. apply mark_ctx_init.
  - (* sched.Go(mutator 1) *)
    run_step Ht. split; simpl; [done| |].
    + apply (shapes_fork g ths _ 1); [done | done |].
      rewrite Hn, <- Hw. apply (ma_frames 3 true []); [done | constructor].
    + apply logic_pend_fork; [done|].
      apply (logic_go g 1); [|done].
      intros _ [Hin|Ho]; [set_unfold; naive_solver|].
      by apply (no_others_mark _ _ _ _ Hsh) in Ho.
  - (* mark in a scan *)
    eapply (step_mark g ths 0 q F scan_tail false); try done.
    + rewrite Hn, <- Hw. apply mark_ctx_scan.
    + intros _. eapply root_marked; try done.
      intros Hin. apply elem_of_cons in Hin as [?|Hin]; [done|].
      apply elem_of_app in Hin as [Hin|Hin].
      * by apply (frames_elem _ _ _ HF) in Hin.
      * set_unfold. naive_solver.
  - destruct F as [|f F]; unfold go_tail, scan_tail, lock_tail in Hc; simplify_eq/=.
    + (* the scan loop *)
      run_step Ht. destruct (Nat.ltb_spec (scanClock g) numThreads) as [Hlt|Hge].
      * cbn [step_ok scanClock set_scanClock].
        replace (stackBase + (S (scanClock g) - 1)) with (stackBase + scanClock g)
          by lia.
        apply (inv_next_main g _ ths IScan lock_tail
                 [IMarkL (stackBase + scanClock g); IScan]);
          [done | done | exact Hwf | done | by destruct Hsh | |].
        -- simpl. rewrite Hn, <- Hw. by apply ma_markL.
        -- exact (logic_scan g _ Hlt Hlg').
      * cbn [step_ok].
        apply (inv_next_main g _ ths IScan lock_tail []);
          [done | done | exact Hwf | done | by destruct Hsh | |].
        -- simpl. rewrite Hn, <- Hw. by apply ma_lock.
        -- apply (logic_scan_exit g _ ltac:(lia) Hlg').
    + eapply (step_frames g ths 0 i F scan_tail false); try done.
      rewrite Hn, <- Hw. apply mark_ctx_scan.
  - (* the scan of a stack *)
    destruct (wf_mem_lookup_lt g (S i0) Hwf) as (o & Ho & Hl & _).
    { consts. lia. }
    run_step Ht. rewrite (proj2 (index_Ok _ _ _) Ho). cbn [mbind result_bind continue step_ok].
    apply (inv_next_main g _ ths (IMarkL (S i0)) scan_tail [IMark (l o)]);
      [done | done | exact Hwf | done | by destruct Hsh | |].
    + simpl. rewrite Hn, <- Hw. apply (ma_mark 3 (l o) []); try done. constructor.
    + exact (logic_markL g (S i0) o _ Ho Hlg').
  - (* world.Lock() *)
    run_step Ht. rewrite <- Hw. rewrite andb_true_r.
    destruct (Nat.eqb_spec (readers (world g)) 0) as [Hr|Hr]; cbn [step_ok].
    + apply (inv_next_main g _ ths ILock (tail lock_tail) []);
        [done | done | exact Hwf | done | done | |].
      * simpl. rewrite Hn. by constructor.
      * apply (logic_quiet g _ ILock []); try done. by intros [].
    + eapply inv_suspend; try done. simpl. rewrite Hn, <- Hw. by constructor.
  - (* checkmark(globalRoot) *)
    assert (∀ j, relevant j → ¬ pend ths j) as Hnp.
    { eapply check_no_pending; try done. intros j Hin. set_unfold. naive_solver. }
    run_step Ht. rewrite (logic_check g (pend ths) globalRoot Hwf Hlg Hnp) by by left.
    cbn [mbind result_bind continue step_ok].
    apply (inv_next_main g _ ths (ICheckmark globalRoot)
             [ICheckStack 0; ICheckStack 1; IUnlock] []);
      [done | done | exact Hwf | done | by destruct Hsh | |].
    + simpl. rewrite Hn, <- Hw. by constructor.
    + apply (logic_quiet g _ (ICheckmark globalRoot) []); try done. by intros [].
  - (* checkmark of the first stack *)
    assert (∀ j, relevant j → ¬ pend ths j) as Hnp.
    { eapply check_no_pending; try done. intros j Hin. set_unfold. naive_solver. }
    destruct (wf_mem_lookup_lt g (stackBase + 0) Hwf) as (o & Ho & Hl & _).
    { consts. lia. }
    run_step Ht. rewrite (proj2 (index_Ok _ _ _) Ho). cbn [mbind result_bind].
    rewrite (logic_check g (pend ths) (l o) Hwf Hlg Hnp)
      by (right; exists 0, o; split; [unfold numThreads; lia | split; [exact Ho | done]]).
    cbn [mbind result_bind continue step_ok].
    apply (inv_next_main g _ ths (ICheckStack 0) [ICheckStack 1; IUnlock] []);
      [done | done | exact Hwf | done | by destruct Hsh | |].
    + simpl. rewrite Hn, <- Hw. by constructor.
    + apply (logic_quiet g _ (ICheckStack 0) []); try done. by intros [].
  - (* checkmark of the second stack *)
    assert (∀ j, relevant j → ¬ pend ths j) as Hnp.
    { eapply check_no_pending; try done. intros j Hin. set_unfold. naive_solver. }
    destruct (wf_mem_lookup_lt g (stackBase + 1) Hwf) as (o & Ho & Hl & _).
    { consts. lia. }
    run_step Ht. rewrite (proj2 (index_Ok _ _ _) Ho). cbn [mbind result_bind].
    rewrite (logic_check g (pend ths) (l o) Hwf Hlg Hnp)
      by (right; exists 1, o; split; [unfold numThreads; lia | split; [exact Ho | done]]).
    cbn [mbind result_bind continue step_ok].
    apply (inv_next_main g _ ths (ICheckStack 1) [IUnlock] []);
      [done | done | exact Hwf | done | by destruct Hsh | |].
    + simpl. rewrite Hn, <- Hw. by constructor.
    + apply (logic_quiet g _ (ICheckStack 1) []); try done. by intros [].
  - (* world.Unlock() *)
    run_step Ht.
    apply (inv_next_main g _ ths IUnlock [] []);
      [done | done | exact Hwf | done | done | |].
    + simpl. rewrite Hn. by constructor.
    + apply (logic_quiet g _ IUnlock []); try done. by intros [].
Qed.

Lemma holding_rlock k : holding (IRLock :: k) = false.
Proof.
  unfold holding. rewrite (bool_decide_eq_true_2 (IRLock ∈ IRLock :: k)).
  - apply andb_false_r.
  - set_unfold. by left.
Qed.

Lemma set_l_wf g s d v :
  wf_state g → mem g !! s = Some d → heap_ptr (length (mem g)) v →
  wf_state (set_mem g (<[s := set_l d v]> (mem g))).
Proof.
  intros [Hm Hmk] Hd Hv. split; simpl; [|by rewrite length_insert].
  by apply wf_mem_set_l.
Qed.

(** The steps of a mutator. *)
Lemma step_mut g ths x i0 i k :
  inv (Config g ths (S i0)) → ths !! S i0 = Some (i :: k) →
  step_ok (step transitive_mark (Config g ths (S i0)) x).
Proof.
  intros Hinv Ht. pose proof Hinv as [Hwf Hsh Hlg]. cbn [glob threads cur] in *.
  pose proof (shapes_thread _ _ _ _ Hsh Ht) as Hm. cbn [thread_shape] in Hm.
  pose proof (shapes_writer _ _ _ Hsh) as Hw.
  assert (i0 < numThreads) as Hi0.
  { pose proof (shapes_length _ _ _ Hsh). pose proof (sh_run _ _ _ Hsh _ eq_refl).
    unfold numThreads. lia. }
  assert (stackBase + i0 < memSize) as Hs by (consts; lia).
  pose proof (inv_logic_split _ _ _ _ _ Ht Hlg) as Hlg'.
  assert (∀ j, others ths (S i0) j → susp (S i0) j) as Hoth
    by (intros j; apply (others_susp _ _ _ _ Hsh)).
  pose proof Hwf as [[Hlen _] _].
  inversion Hm; subst.
  - (* the choice of the object and the call of the barrier *)
    destruct (ambReachable_total (mem g) (proj1 Hwf)) as (n & Hn & Hpos & Hsel).
    run_step Ht. rewrite Hn. destruct (Nat.ltb_spec x n) as [Hx|Hx]; [|done].
    destruct (Hsel x Hx) as (obj & Hobj & Hobj1 & Hobj2 & _).
    rewrite Hobj. cbn [mbind result_bind continue step_ok].
    apply (inv_next_mut g _ ths i0 (IPublish i0) [ILoad i0; ISched]
             (wbarrier transitive_mark obj (stackBase + i0)));
      [done | done | exact Hwf | done | | |].
    + rewrite holding_false by (set_unfold; naive_solver).
      replace (wbarrier transitive_mark obj (stackBase + i0) ++ [ILoad i0; ISched])
        with (IRLock :: IMarkL (stackBase + i0) :: barrier_rest i0 obj)
        by (unfold wbarrier; by consts).
      by rewrite holding_rlock.
    + replace (wbarrier transitive_mark obj (stackBase + i0) ++ [ILoad i0; ISched])
        with (IRLock :: IMarkL (stackBase + i0) :: barrier_rest i0 obj)
        by (unfold wbarrier; by consts).
      apply (mu_rlock i0 obj). split; [done|]. by rewrite <- Hlen.
    + exact (logic_publish g i0 obj _ Hlg').
  - (* world.RLock() *)
    run_step Ht. rewrite Hw. cbn [step_ok].
    apply (inv_next_mut g _ ths i0 IRLock
             (IMarkL (stackBase + i0) :: barrier_rest i0 o) []);
      [done | done | exact Hwf | by rewrite Hw | | by constructor |].
    + rewrite holding_rlock. cbn [app].
      rewrite (mut_marking_holding i0) by constructor. simpl. lia.
    + apply (logic_quiet g _ IRLock []); try done. by intros [].
  - (* the read of the stack slot *)
    destruct (wf_mem_lookup_lt g (S i0) Hwf Hs) as (o' & Ho' & Hl' & _).
    run_step Ht. rewrite (proj2 (index_Ok _ _ _) Ho').
    cbn [mbind result_bind continue step_ok].
    apply (inv_next_mut g _ ths i0 (IMarkL (stackBase + i0)) (barrier_rest i0 o)
             [IMark (l o')]);
      [done | done | exact Hwf | done | | |].
    + rewrite !(mut_marking_holding i0); [done|..].
      * apply (mm_mark i0 (l o') [] o). constructor.
      * constructor.
    + apply (mu_mark i0 (l o') [] o); try done. constructor.
    + exact (logic_markL g (stackBase + i0) o' _ Ho' Hlg').
  - (* mark in the barrier *)
    eapply (step_mark g ths (S i0) q F (barrier_rest i0 o) false); try done.
    + by apply mark_ctx_barrier.
    + intros _. eapply root_marked; try done.
      intros Hin. apply elem_of_cons in Hin as [?|Hin]; [done|].
      apply elem_of_app in Hin as [Hin|Hin].
      * match goal with HF : frames false F |- _ =>
          by apply (frames_elem _ _ _ HF) in Hin end.
      * unfold barrier_rest in Hin. set_unfold. naive_solver.
  - match goal with HF : frames false ?F0, E : ?F0 ++ _ = _ :: _ |- _ =>
      destruct F0 as [|f F']; unfold barrier_rest in E; cbn [app] in E;
        simplify_eq end.
    + (* world.RUnlock() *)
      run_step Ht.
      assert (0 < readers (world g)) as Hrd.
      { rewrite (sh_readers _ _ _ Hsh). apply (nholders_pos ths (S i0) _ Ht).
        apply (mut_marking_holding i0), (mm_frames i0 [] o). constructor. }
      apply (inv_next_mut g _ ths i0 IRUnlock
               [IStore o (stackBase + i0); ISched; ILoad i0; ISched] []);
        [done | done | exact Hwf | done | | by constructor |].
      * rewrite (mut_marking_holding i0 (IRUnlock :: _))
          by (apply (mm_frames i0 [] o); constructor).
        rewrite holding_false by (set_unfold; naive_solver). simpl. lia.
      * apply (logic_quiet g _ IRUnlock []); try done. by intros [].
    + match goal with HF : frames false (_ :: _) |- _ =>
        eapply (step_frames g ths (S i0) i F' (barrier_rest i0 o) false);
          [done | done | by apply mark_ctx_barrier | exact HF] end.
  - (* the store *)
    match goal with H : heap_index o |- _ => destruct H as [Ho1 Ho2] end.
    destruct (wf_mem_lookup_lt g (S i0) Hwf Hs) as (o1 & Hs1 & _ & _).
    destruct (wf_mem_lookup_lt g o Hwf Ho2) as (d & Hd & _ & _).
    run_step Ht. rewrite (proj2 (index_Ok _ _ _) Hs1), (proj2 (index_Ok _ _ _) Hd).
    cbn [mbind result_bind continue step_ok].
    apply (inv_next_mut g _ ths i0 (IStore o (stackBase + i0))
             [ISched; ILoad i0; ISched] []);
      [done | done | | done | | by constructor |].
    + apply set_l_wf; [done | done |].
      exact (proj1 (wf_mem_lookup _ _ _ (proj1 Hwf) Hs1)).
    + rewrite !holding_false; [done|..]; set_unfold; naive_solver.
    + revert Hlg'. apply (logic_store g o i0 o1 d); try done.
      * intros [?|[Hin|Ho]]; [done | set_unfold; naive_solver |].
        by apply Hoth in Ho.
      * by left.
      * intros j Hj [->|?]; [done | by right].
      * intros j Hj [Hin|?]; [by apply elem_of_nil in Hin | by right].
  - (* the yield of the barrier *)
    run_step Ht. apply inv_yield; [done | done | | constructor].
    rewrite !holding_false; [done|..]; set_unfold; naive_solver.
  - (* the load *)
    destruct (ambReachable_total (mem g) (proj1 Hwf)) as (n & Hn & Hpos & Hsel).
    run_step Ht. rewrite Hn. destruct (Nat.ltb_spec x n) as [Hx|Hx]; [|done].
    destruct (Hsel x Hx) as (obj & Hobj & Hobj1 & Hobj2 & Hreach).
    rewrite Hobj. cbn [mbind result_bind].
    rewrite Hlen in Hobj2.
    destruct (wf_mem_lookup_lt g obj Hwf Hobj2) as (oo & Hoo & _ & _).
    destruct (wf_mem_lookup_lt g (stackBase + i0) Hwf Hs) as (d & Hd & _ & _).
    rewrite (proj2 (index_Ok _ _ _) Hoo), (proj2 (index_Ok _ _ _) Hd).
    cbn [mbind result_bind continue step_ok].
    apply (inv_next_mut g _ ths i0 (ILoad i0) [ISched] []);
      [done | done | | done | | by constructor |].
    + apply set_l_wf; [done | done |].
      exact (proj1 (wf_mem_lookup _ _ _ (proj1 Hwf) Hoo)).
    + rewrite !holding_false; [done|..]; set_unfold; naive_solver.
    + revert Hlg'. apply (logic_load g i0 obj oo d); try done.
      * intros q [?|[Hin|Ho]]; [done | set_unfold; naive_solver |].
        by apply Hoth in Ho.
      * intros [?|[Hin|Ho]]; [done | set_unfold; naive_solver |].
        by apply Hoth in Ho.
      * intros [?|[Hin|Ho]]; [done | set_unfold; naive_solver |].
        by apply Hoth in Ho.
      * intros ob [Hin|[Hin|Ho]]; [by apply elem_of_nil in Hin | set_unfold; naive_solver |].
        apply Hoth in Ho as (i1 & E & Hne). consts. assert (i1 = i0) by lia. congruence.
      * intros j Hj [->|?]; [done | by right].
      * intros j Hj [Hin|?]; [by apply elem_of_nil in Hin | by right].
  - (* the last yield *)
    run_step Ht. apply inv_yield; [done | done | | constructor].
    rewrite !holding_false; [done|..]; set_unfold; naive_solver.
Qed.

Lemma step_inv c x : inv c → step_ok (step transitive_mark c x).
Proof.
  destruct c as [g ths t]. intros Hinv.
  destruct (ths !! t) as [[|i k]|] eqn:Ht.
  - unfold step. cbn [threads cur glob].
    replace (ths !! t) with (Some ([] : code)). by eapply step_finished.
  - destruct t; [by eapply step_main | by eapply step_mut].
  - unfold step. cbn [threads cur glob].
    by replace (ths !! t) with (@None code).
Qed.

Lemma inv_init gs m : build_mem gs = Some m → inv (init_config m).
Proof.
  intros Hb. pose proof (build_mem_wf _ _ Hb) as Hm. split; simpl.
  - by apply init_state_wf.
  - split; simpl.
    + exists main_body. split; [done|].
      apply (ma_init_mark 1 globalRoot []); [done | consts; lia | constructor].
    + intros i k Hk. done.
    + intros t [= <-]. lia.
    + vm_compute. reflexivity.
    + done.
  - assert (∀ j, j ∈ main_body → pend [main_body] j) as Hin.
    { intros j Hj. by exists 0, main_body. }
    split; simpl.
    + right. apply Hin. unfold main_body. set_unfold. eauto.
    + right. apply Hin. unfold main_body, last_go. consts. set_unfold. eauto 10.
    + intros X o _ [? _]%lookup_replicate. done.
    + intros i o Hi Ho. do 4 right. split; [|lia].
      apply Hin. unfold main_body. consts. set_unfold. eauto 10.
    + intros i ob o Hi (t & k & Ht & Hj) Ho.
      destruct t; simplify_eq/=. unfold main_body in Hj. consts.
      set_unfold. naive_solver.
Qed.

Lemma reachable_inv c : reachable transitive_mark c → inv c.
Proof.
  induction 1 as [gs m Hb|c x c' _ IH Hs]; [by eapply inv_init|].
  pose proof (step_inv c x IH) as H. by rewrite Hs in H.
Qed.

Lemma run_ok c xs : inv c → step_ok (run transitive_mark c xs).
Proof.
  revert c. induction xs as [|x xs IH]; intros c Hc; simpl; [done|].
  pose proof (step_inv c x Hc) as H.
  destruct (step transitive_mark c x) as [c'| |]; try done. by apply IH.
Qed.

(** ** The trial as a whole *)

(** At the end of a trial nothing is pending, so the marks are closed:
    the walk of [checkmark] from the global root and from every stack
    slot finds every object marked. *)
Lemma finished_checked c p :
  inv c → finished c →
  (p = globalRoot ∨
   ∃ i o, i < numThreads ∧ mem (glob c) !! (stackBase + i) = Some o ∧ p = l o) →
  checkmark (glob c) p = Ok tt.
Proof.
  intros [Hwf _ Hlg] Hfin Hp.
  apply (logic_check _ (pend (threads c))); [done..| |done].
  intros j _ (t & k & Hk & Hj).
  rewrite (proj1 (Forall_lookup _ _) Hfin t k Hk) in Hj. set_solver.
Qed.

(** C1: under the transitive-mark policy no trial reports a fault,
    whatever heap the choices build and whatever the interleaving and
    the later choices: no step of a trial panics, and when every thread
    has returned the walk of [checkmark] from the global root and from
    the pointer of every stack slot finds every object marked. *)
Theorem C1_transitive_mark_safe gs xs :
  safe (trial transitive_mark gs xs) ∧
  ∀ c, trial transitive_mark gs xs = Next c →
    (∀ x, safe (step transitive_mark c x)) ∧
    (finished c →
     checkmark (glob c) globalRoot = Ok tt ∧
     ∀ i o, i < numThreads → mem (glob c) !! (stackBase + i) = Some o →
       checkmark (glob c) (l o) = Ok tt).
Proof.
  assert (∀ r, step_ok r → safe r) as Hsafe by (by intros []).
  unfold trial. destruct (build_mem gs) as [m|] eqn:Hb; [|done].
  pose proof (run_ok _ xs (inv_init _ _ Hb)) as Hrun.
  split; [by apply Hsafe|]. intros c Hc. rewrite Hc in Hrun. simpl in Hrun.
  split; [intros x; by apply Hsafe, step_inv|].
  intros Hfin. split.
  - apply finished_checked; [done..|by left].
  - intros i o Hi Ho. apply finished_checked; [done..|]. right. by exists i, o.
Qed.

Lemma C1_transitive_mark_safe_witness :
  trial transitive_mark chain_choices full_schedule = Next final_config ∧
  finished final_config ∧
  checkmark (glob final_config) globalRoot = Ok tt ∧
  checkmark (glob final_config) 4 = Ok tt.
Proof.
  assert (trial transitive_mark chain_choices full_schedule = Next final_config)
    as Ht by (vm_compute; reflexivity).
  assert (finished final_config) as Hf by (vm_compute; repeat constructor).
  destruct (C1_transitive_mark_safe chain_choices full_schedule) as [_ H].
  destruct (H final_config Ht) as [_ Hc]. destruct (Hc Hf) as [Hg Hs].
  split; [exact Ht|]. split; [exact Hf|]. split; [exact Hg|].
  apply (Hs 0 (Obj 4 0)); [unfold numThreads; lia | vm_compute; reflexivity].
Defined.

(** * Further properties of the code *)

(** ** Graph construction *)

Lemma heap_choice_amb x : heap_choice (ambHeapPointer x) = x.
Proof.
  unfold heap_choice, ambHeapPointer.
  destruct (Nat.eqb_spec x 0) as [->|Hx]; [done|].
  destruct (Nat.eqb_spec (x - 1 + globalRoot) 0); consts; lia.
Qed.

Lemma amb_heap_choice len p :
  heap_ptr len p →
  heap_choice p < ambHeapChoices len ∧ ambHeapPointer (heap_choice p) = p.
Proof.
  unfold heap_choice, ambHeapPointer, ambHeapChoices, heap_ptr.
  intros [->|[Hp Hlen]]; simpl; [lia|].
  destruct (Nat.eqb_spec p 0); [consts; lia|].
  destruct (Nat.eqb_spec (p - globalRoot + 1) 0); consts; lia.
Qed.

(** X1: over the values [sched.Amb] can return, [ambHeapPointer] yields
    nil or an index of the heap region, nil exactly for 0; every such
    pointer is the result of some value, and of one only. *)
Theorem ambHeapPointer_enumerates len :
  globalRoot ≤ len →
  (∀ x, x < ambHeapChoices len → heap_ptr len (ambHeapPointer x)) ∧
  (∀ x, ambHeapPointer x = 0 ↔ x = 0) ∧
  (∀ p, heap_ptr len p →
        ∃ x, x < ambHeapChoices len ∧ ambHeapPointer x = p) ∧
  (∀ x y, ambHeapPointer x = ambHeapPointer y → x = y).
Proof.
  intros Hlen. split; [|split; [|split]].
  - intros x Hx. by apply ambHeapPointer_heap.
  - intros x. unfold ambHeapPointer.
    destruct (Nat.eqb_spec x 0); consts; split; intros; lia.
  - intros p Hp. exists (heap_choice p). by apply amb_heap_choice.
  - intros x y E. by rewrite <- (heap_choice_amb x), E, heap_choice_amb.
Qed.

Lemma ambHeapPointer_enumerates_witness :
  heap_ptr memSize (ambHeapPointer 3) ∧
  ∃ x, x < ambHeapChoices memSize ∧ ambHeapPointer x = 5.
Proof.
  destruct (ambHeapPointer_enumerates memSize) as (H1 & _ & H2 & _).
  - unfold globalRoot, stackBase, numThreads, memSize. lia.
  - split.
    + apply H1. vm_compute. lia.
    + apply H2. right. vm_compute. lia.
Defined.

Lemma stack_right (m : list obj) :
  Forall (λ o, r o = 0) (take globalRoot m) ↔
  ∀ i o, i < globalRoot → m !! i = Some o → r o = 0.
Proof.
  rewrite Forall_lookup. split.
  - intros H i o Hi Ho. apply (H i o). by apply lookup_take_Some.
  - intros H i o [Ho Hi]%lookup_take_Some. by apply (H i o).
Qed.

Lemma build_from_choices len n i xs os :
  build_from len n i xs = Some os →
  graph_choices_from i os = xs ∧
  Forall (λ x, x < ambHeapChoices len) xs ∧
  ∀ j o, os !! j = Some o → i + j < globalRoot → r o = 0.
Proof.
  revert i xs os. induction n as [|n IH]; intros i xs os; simpl.
  { destruct xs; [|done]. intros [= <-]. done. }
  destruct (build_slot len i xs) as [[o xs']|] eqn:Hs; [|done].
  destruct (build_from len n (S i) xs') as [os'|] eqn:Hb; [|done].
  intros [= <-]. destruct (IH _ _ _ Hb) as (Hc & Hall & Hr).
  unfold build_slot in Hs. destruct xs as [|x xs]; [done|].
  destruct (Nat.ltb_spec x (ambHeapChoices len)) as [Hx|]; [|done].
  simpl. unfold slot_choices.
  destruct (Nat.leb_spec globalRoot i) as [Hi|Hi].
  - destruct xs as [|y xs]; [done|].
    destruct (Nat.ltb_spec y (ambHeapChoices len)) as [Hy|]; [|done].
    simplify_eq/=. rewrite !heap_choice_amb. split; [done|].
    split; [by repeat constructor|].
    intros [|j] o Ho Hj; [lia|]. apply (Hr j o Ho). lia.
  - simplify_eq/=. rewrite heap_choice_amb. split; [done|].
    split; [by constructor|].
    intros [|j] o Ho Hj; simplify_eq/=; [done|]. apply (Hr j o Ho). lia.
Qed.

Lemma build_from_complete len i os :
  Forall (λ o, heap_ptr len (l o) ∧ heap_ptr len (r o)) os →
  (∀ j o, os !! j = Some o → i + j < globalRoot → r o = 0) →
  build_from len (length os) i (graph_choices_from i os) = Some os.
Proof.
  revert i. induction os as [|o os IH]; intros i Hos Hr; [done|].
  apply Forall_cons in Hos as [[Hl Hro] Hos]. simpl.
  destruct (amb_heap_choice len (l o) Hl) as [Hlx Hle].
  destruct (amb_heap_choice len (r o) Hro) as [Hrx Hre].
  assert (build_slot len i (slot_choices i o ++ graph_choices_from (S i) os)
          = Some (o, graph_choices_from (S i) os)) as ->.
  { unfold build_slot, slot_choices.
    destruct (Nat.leb_spec globalRoot i) as [Hi|Hi]; simpl.
    - destruct (Nat.ltb_spec (heap_choice (l o)) (ambHeapChoices len)); [|lia].
      destruct (Nat.ltb_spec (heap_choice (r o)) (ambHeapChoices len)); [|lia].
      rewrite Hle, Hre. by destruct o.
    - destruct (Nat.ltb_spec (heap_choice (l o)) (ambHeapChoices len)); [|lia].
      rewrite Hle. specialize (Hr 0 o eq_refl ltac:(lia)). destruct o; simpl in *.
      by subst. }
  rewrite IH; [done..|].
  intros j o' Ho' Hj. apply (Hr (S j) o' Ho'). lia.
Qed.

Lemma build_mem_shape gs m :
  build_mem gs = Some m →
  admissible m ∧ graph_choices m = gs ∧
  length gs = numThreads + 2 * (memSize - globalRoot) ∧
  Forall (λ x, x < ambHeapChoices memSize) gs.
Proof.
  intros Hb. pose proof (build_mem_wf _ _ Hb) as Hwf.
  unfold build_mem in Hb.
  destruct (build_from _ _ _ _) as [os|] eqn:Hf; [|done].
  simpl in Hb. injection Hb as <-.
  destruct (build_from_choices _ _ _ _ _ Hf) as (Hc & Hall & Hr).
  apply build_from_wf in Hf as [Hn _]; [|consts; lia].
  split; [|split; [|split]]; [| | |done].
  - split; [done|]. split; [done|]. apply stack_right.
    intros [|i] o Hi Ho; simplify_eq/=; [done|]. apply (Hr i o Ho). lia.
  - done.
  - rewrite <- Hc. do 6 (destruct os as [|? os]; simplify_eq/=). done.
Qed.

(** X2: the construction loop of [main] succeeds exactly on eight
    choices, each below four: one per stack slot and two per heap
    object.  The memory it builds has its six slots with every field
    nil or a heap index, a zero nil slot and no right field in the
    stack slots, and determines the choices it was built from. *)
Theorem build_mem_admissible gs :
  (is_Some (build_mem gs) ↔
   length gs = numThreads + 2 * (memSize - globalRoot) ∧
   Forall (λ x, x < ambHeapChoices memSize) gs) ∧
  ∀ m, build_mem gs = Some m → admissible m ∧ graph_choices m = gs.
Proof.
  split; [|intros m Hb; destruct (build_mem_shape gs m Hb) as (? & ? & _); done].
  split.
  - intros [m Hb]. by destruct (build_mem_shape gs m Hb) as (_ & _ & ? & ?).
  - intros [Hlen Hall].
    do 9 (destruct gs as [|? gs]; simplify_eq/=).
    repeat match goal with H : Forall _ (_ :: _) |- _ =>
      apply Forall_cons in H as [? H] end.
    unfold build_mem. simpl.
    repeat (match goal with |- context [?x <? ?y] =>
              destruct (Nat.ltb_spec x y); [|lia] end; simpl).
    eauto.
Qed.

Lemma build_mem_admissible_witness :
  admissible (mem chain_state) ∧ graph_choices (mem chain_state) = chain_choices.
Proof.
  apply (proj2 (build_mem_admissible chain_choices)).
  vm_compute. reflexivity.
Defined.

(** X3: every such memory is built: from the choices read off a memory
    the loop of [main] builds that memory. *)
Theorem build_mem_complete m :
  admissible m → build_mem (graph_choices m) = Some m.
Proof.
  intros ([Hlen Hall] & H0 & Hr). unfold build_mem, graph_choices.
  destruct m as [|o0 os]; [done|]. injection H0 as ->.
  cbn [drop]. rewrite drop_0.
  apply Forall_cons in Hall as [_ Hall].
  assert (memSize - 1 = length os) as -> by (cbn [length] in Hlen; lia).
  rewrite build_from_complete; [done| |].
  - by rewrite <- Hlen.
  - intros j o Ho Hj.
    apply (proj1 (stack_right _) Hr (S j) o); [lia | done].
Qed.

Lemma build_mem_complete_witness :
  build_mem (graph_choices (mem chain_state)) = Some (mem chain_state).
Proof.
  apply build_mem_complete.
  apply (bool_decide_unpack _). vm_compute. exact I.
Defined.

(** ** The choice of a reachable heap object *)

Lemma select_marked_inv ms i x p :
  select_marked ms i x = Ok p →
  ∃ j, p = globalRoot + (i + j) ∧ ms !! j = Some true ∧
       x = count_marked (take j ms).
Proof.
  revert i x. induction ms as [|b ms IH]; intros i x; simpl; [done|].
  destruct b.
  - destruct (Nat.eqb_spec x 0) as [->|Hx].
    + intros [= <-]. exists 0. by rewrite Nat.add_0_r.
    + intros H. destruct (IH _ _ H) as (j & -> & Hj & Hc).
      exists (S j). simpl. split; [lia|]. split; [done | lia].
  - intros H. destruct (IH _ _ H) as (j & -> & Hj & Hc).
    exists (S j). simpl. split; [lia | done].
Qed.

Lemma select_marked_at ms i j :
  ms !! j = Some true →
  select_marked ms i (count_marked (take j ms)) = Ok (globalRoot + (i + j)) ∧
  count_marked (take j ms) < count_marked ms.
Proof.
  revert i j. induction ms as [|b ms IH]; intros i [|j] Hj; simplify_eq/=.
  - rewrite Nat.add_0_r. split; [done | lia].
  - destruct (IH (S i) j Hj) as [Hs Hlt]. destruct b; simpl.
    + rewrite Nat.sub_0_r, Hs. split; [f_equal; lia | lia].
    + rewrite Hs. split; [f_equal; lia | lia].
Qed.

Lemma select_marked_out ms i x :
  count_marked ms ≤ x → select_marked ms i x = Panic NotReached.
Proof.
  revert i x. induction ms as [|b ms IH]; intros i x Hx; simpl in *; [done|].
  destruct b.
  - destruct (Nat.eqb_spec x 0); [lia|]. apply IH. lia.
  - by apply IH.
Qed.

(** X4: [ambReachableHeapPointer] enumerates the heap objects reachable
    from the global root: [nreachable] is at most the size of the heap
    region, choice 0 is the global root, every reachable object is
    returned for some choice below [nreachable], no object for two
    choices, and a choice that is not below [nreachable] runs into
    [panic("not reached")]. *)
Theorem ambReachable_enumerates m :
  wf_mem m →
  ∃ n, nreachable m = Ok n ∧ n ≤ length m - globalRoot ∧
    ambReachableHeapPointer m 0 = Ok globalRoot ∧
    (∀ p, reach m globalRoot p →
          ∃ x, x < n ∧ ambReachableHeapPointer m x = Ok p) ∧
    (∀ x y p, ambReachableHeapPointer m x = Ok p →
              ambReachableHeapPointer m y = Ok p → x = y) ∧
    (∀ x, n ≤ x → ambReachableHeapPointer m x = Panic NotReached).
Proof.
  intros Hm. pose proof (wf_mem_in_range m Hm) as Hr.
  pose proof Hm as [Hlen _].
  destruct (reachable_set_spec m Hr) as (rs & Hrs & Hl & Hiff).
  { rewrite Hlen. consts. lia. }
  unfold nreachable, ambReachableHeapPointer. rewrite Hrs. simpl.
  assert (∀ p, reach m globalRoot p →
            ∃ x, x < count_marked (drop globalRoot rs) ∧
                 select_marked (drop globalRoot rs) 0 x = Ok p ∧
                 x = count_marked (take (p - globalRoot) (drop globalRoot rs)))
    as Hsel.
  { intros p Hp.
    destruct (reach_heap m globalRoot p Hm) as [Hge Hlt];
      [done | rewrite Hlen; consts; lia | by destruct Hp |].
    assert (drop globalRoot rs !! (p - globalRoot) = Some true) as Hj.
    { rewrite lookup_drop. replace (globalRoot + (p - globalRoot)) with p by lia.
      by apply Hiff. }
    destruct (select_marked_at _ 0 _ Hj) as [Hs Hc].
    eexists. split; [exact Hc|]. split; [|done]. rewrite Hs. f_equal. lia. }
  eexists. split; [done|]. split; [|split; [|split; [|split]]].
  - etrans; [apply count_marked_le|]. rewrite length_drop. lia.
  - destruct (Hsel globalRoot) as (x & _ & Hx & ->); [by apply reach_refl|].
    by rewrite Nat.sub_diag in Hx.
  - intros p Hp. destruct (Hsel p Hp) as (x & ? & ? & _). eauto.
  - intros x y p Hx Hy.
    destruct (select_marked_inv _ _ _ _ Hx) as (j & -> & _ & ->).
    destruct (select_marked_inv _ _ _ _ Hy) as (j' & E & _ & ->).
    by replace j' with j by lia.
  - intros x Hx. by apply select_marked_out.
Qed.

Lemma ambReachable_enumerates_witness :
  ∃ n, nreachable (mem (glob chain_config)) = Ok n ∧
       n ≤ length (mem (glob chain_config)) - globalRoot ∧
       ambReachableHeapPointer (mem (glob chain_config)) 0 = Ok globalRoot.
Proof.
  destruct (ambReachable_enumerates (mem (glob chain_config)))
    as (n & H1 & H2 & H3 & _).
  - apply (bool_decide_unpack _). vm_compute. exact I.
  - exists n. split; [exact H1|]. split; [exact H2 | exact H3].
Defined.

(** ** The marker from a closed mark set *)

Lemma closed_grows m p (V V' : list bool) :
  closed m V →
  (∀ i, V !! i = Some true → V' !! i = Some true) →
  (∀ x, V' !! x = Some true → V !! x = Some true ∨
        (reach m p x ∧ ∀ o, m !! x = Some o → covered V' (l o) ∧ covered V' (r o))) →
  closed m V'.
Proof.
  intros Hcl Hmono Hnew x o Hx Ho.
  destruct (Hnew x Hx) as [HxV|[_ Hch]]; [|by apply Hch].
  destruct (Hcl x o HxV Ho) as [Hl Hr].
  split; [destruct Hl as [?|?] | destruct Hr as [?|?]];
    (by left) || (right; by apply Hmono).
Qed.

Lemma chain_root_closed :
  closed (mem chain_state) [false; false; false; true; false; false].
Proof.
  intros x o Hx Ho.
  do 6 (destruct x as [|x]; simplify_eq/=; try (split; by left)).
Qed.

(** X5: [mark(p, marked, "")], the marker without yields, returns on
    every well-formed memory, cycles included.  Started on a mark set
    that holds the fields of each of its members (the empty one, say) it
    adds exactly the objects reachable from [p], and the result again
    holds the fields of each of its members. *)
Theorem mark_quiet_closure m p V :
  wf_mem m → length V = length m → p < length m → closed m V →
  ∃ V', mark_quiet (walk_fuel m) m p V = Ok V' ∧
    length V' = length V ∧ closed m V' ∧
    ∀ q, V' !! q = Some true ↔ V !! q = Some true ∨ reach m p q.
Proof.
  intros Hm HV Hp Hcl.
  destruct (mark_quiet_total m p V Hm HV Hp)
    as (V' & Hq & Hlen & Hmono & Hcov & Hnew).
  pose proof (closed_grows m p V V' Hcl Hmono Hnew) as Hcl'.
  exists V'. split; [done|]. split; [done|]. split; [done|].
  intros q. split.
  - intros Hq'. destruct (Hnew q Hq') as [?|[? _]]; [by left | by right].
  - intros [Hq'|Hq']; [by apply Hmono|].
    apply (closed_reach m V' p q); [done| |done].
    destruct Hcov as [->|?]; [by destruct Hq' | done].
Qed.

Lemma mark_quiet_closure_witness :
  ∃ V', mark_quiet (walk_fuel (mem chain_state)) (mem chain_state) 4
          [false; false; false; true; false; false] = Ok V' ∧
        closed (mem chain_state) V'.
Proof.
  destruct (mark_quiet_closure (mem chain_state) 4
              [false; false; false; true; false; false])
    as (V' & H1 & _ & H2 & _).
  - apply (bool_decide_unpack _). vm_compute. exact I.
  - reflexivity.
  - simpl. lia.
  - exact chain_root_closed.
  - exists V'. split; [exact H1 | exact H2].
Defined.

Lemma yields_app tr1 tr2 : yields (tr1 ++ tr2) = yields tr1 + yields tr2.
Proof. unfold yields. by rewrite filter_app, length_app. Qed.

Lemma solo_mark_yields pol n : ∀ p g k mk',
  mark_quiet n (mem g) p (marked g) = Ok mk' →
  count_marked (marked g) ≤ count_marked mk' ∧
  ∃ f tr, Forall mark_instr tr ∧
    yields tr = 2 * (count_marked mk' - count_marked (marked g)) ∧
    ∀ f', solo pol (f + f') g (IMark p :: k)
          = log_app (IMark p :: tr) (solo pol f' (set_marked g mk') k).
Proof.
  induction n as [|n IH]; intros p g k mk'; simpl; [done|].
  destruct (Nat.eqb_spec p 0) as [->|Hp].
  { intros [= <-]. split; [done|]. exists 1, []. split; [done|].
    split; [unfold yields; simpl; lia|]. intros f'. simpl.
    rewrite set_marked_id. by destruct (solo _ _ _ _) as [[??]|]. }
  destruct (index (marked g) p) as [b|] eqn:Hb; simpl; [|done].
  destruct b.
  { intros [= <-]. split; [done|]. exists 1, []. split; [done|].
    split; [unfold yields; simpl; lia|]. intros f'. simpl.
    destruct (Nat.eqb_spec p 0); [done|]. rewrite Hb. simpl.
    rewrite set_marked_id. by destruct (solo _ _ _ _) as [[??]|]. }
  destruct (index (mem g) p) as [o|] eqn:Ho; simpl; [|done].
  set (g1 := set_marked g (<[p := true]> (marked g))).
  destruct (mark_quiet n (mem g) (l o) _) as [mk2|] eqn:E2; simpl; [|done].
  intros E3.
  destruct (IH (l o) g1 (ISched :: IMarkR p :: ISched :: k) mk2 E2)
    as (Hc1 & f1 & tr1 & Htr1 & Hy1 & H1).
  set (g2 := set_marked g1 mk2).
  destruct (IH (r o) g2 (ISched :: k) mk' E3) as (Hc2 & f2 & tr2 & Htr2 & Hy2 & H2).
  pose proof (count_marked_insert (marked g) p (proj1 (index_Ok _ _ _) Hb)) as Hins.
  cbn [marked g1 g2 set_marked] in Hc1, Hc2, Hy1, Hy2.
  split; [lia|].
  exists (1 + (f1 + (2 + (f2 + 1)))),
         (IMark (l o) :: tr1 ++ ISched :: IMarkR p :: IMark (r o) :: tr2 ++ [ISched]).
  split.
  { constructor; [done|]. apply Forall_app. split; [done|].
    repeat (constructor; [done|]). apply Forall_app. split; [done|].
    by constructor. }
  split.
  { change (IMark (l o) :: tr1 ++ ISched :: IMarkR p :: IMark (r o) :: tr2 ++ [ISched])
      with ([IMark (l o)] ++ tr1 ++ [ISched; IMarkR p; IMark (r o)] ++ tr2 ++ [ISched]).
    rewrite !yields_app, Hy1, Hy2. unfold yields. simpl. lia. }
  intros f'. rewrite <- !Nat.add_assoc.
  change (1 + ?a) with (S a). cbn [solo exec].
  destruct (Nat.eqb_spec p 0); [done|]. rewrite Hb. simpl.
  fold g1. change (mem g1) with (mem g). rewrite Ho. simpl.
  rewrite H1. fold g2. cbn [Nat.add solo exec].
  change (mem g2) with (mem g). rewrite Ho. simpl.
  rewrite H2. cbn [Nat.add solo exec].
  destruct (solo pol f' _ k) as [[g3 tr3]|]; simpl; [|done].
  do 4 f_equal. rewrite <- !app_assoc. simpl. by rewrite <- !app_assoc.
Qed.

(** X6: a named [mark(p, marked, name)] run to its return, with no other
    thread taking a turn, computes what the marker without yields
    computes, touches neither the memory nor the clock nor the lock, and
    calls [sched.Sched()] exactly twice for every object it marks. *)
Theorem mark_yields_twice_per_object pol g p :
  wf_state g → p < length (mem g) →
  ∃ fuel g' tr,
    solo pol fuel g [IMark p] = Ok (g', IMark p :: tr) ∧
    Forall mark_instr tr ∧
    mark_quiet (walk_fuel (mem g)) (mem g) p (marked g) = Ok (marked g') ∧
    mem g' = mem g ∧ scanClock g' = scanClock g ∧ world g' = world g ∧
    count_marked (marked g) ≤ count_marked (marked g') ∧
    yields tr = 2 * (count_marked (marked g') - count_marked (marked g)).
Proof.
  intros [Hm Hmk] Hp.
  destruct (mark_quiet_total (mem g) p (marked g) Hm Hmk Hp) as (mk' & Hq & _).
  destruct (solo_mark_yields pol _ p g [] mk' Hq) as (Hc & f & tr & Htr & Hy & H).
  exists (f + 1), (set_marked g mk'), tr.
  split; [rewrite H; simpl; by rewrite app_nil_r|]. done.
Qed.

Lemma mark_yields_twice_per_object_witness :
  ∃ fuel g' tr,
    solo transitive_mark fuel (init_state (mem chain_state)) [IMark 4]
    = Ok (g', IMark 4 :: tr) ∧
    yields tr = 2 * (count_marked (marked g') - 0).
Proof.
  destruct (mark_yields_twice_per_object transitive_mark
              (init_state (mem chain_state)) 4)
    as (fuel & g' & tr & H1 & _ & _ & _ & _ & _ & _ & H2).
  - apply (bool_decide_unpack _). vm_compute. exact I.
  - simpl. lia.
  - exists fuel, g', tr. split; [exact H1 | exact H2].
Defined.

(** X7: mark, then check.  After [mark(p, ...)] has run to its return on
    a mark set that holds the fields of each of its members,
    [checkmark(p)] returns without a panic, and the marked objects are
    the ones marked before and the ones reachable from [p]. *)
Theorem mark_then_checkmark pol g p :
  wf_state g → p < length (mem g) → closed (mem g) (marked g) →
  ∃ fuel g' tr,
    solo pol fuel g [IMark p] = Ok (g', tr) ∧
    checkmark g' p = Ok tt ∧
    ∀ q, marked g' !! q = Some true ↔
         marked g !! q = Some true ∨ reach (mem g) p q.
Proof.
  intros Hwf Hp Hcl. pose proof Hwf as [Hm Hmk].
  destruct (mark_quiet_total _ p _ Hm Hmk Hp)
    as (mk' & Hq & Hlen & Hmono & Hcov & Hnew).
  pose proof (closed_grows _ p _ mk' Hcl Hmono Hnew) as Hcl'.
  assert (∀ q, mk' !! q = Some true ↔
               marked g !! q = Some true ∨ reach (mem g) p q) as Hiff.
  { intros q. split.
    - intros Hq'. destruct (Hnew q Hq') as [?|[? _]]; [by left | by right].
    - intros [Hq'|Hq']; [by apply Hmono|].
      apply (closed_reach (mem g) mk' p q); [done| |done].
      destruct Hcov as [->|?]; [by destruct Hq' | done]. }
  destruct (solo_mark pol _ p g [] mk' Hq) as (f & tr & _ & H).
  exists (f + 1), (set_marked g mk'), (IMark p :: tr).
  split; [rewrite H; simpl; by rewrite app_nil_r|]. split; [|done].
  pose proof (checkmark_spec (mem g) (wf_mem_in_range _ Hm) (set_marked g mk') p
                eq_refl ltac:(simpl; congruence) Hp) as Hck.
  destruct (checkmark _ p) as [[]|f0]; [done|].
  destruct f0; try done. destruct Hck as [Hr Hu]. simpl in Hu.
  assert (mk' !! p0 = Some true) by (apply Hiff; by right). congruence.
Qed.

Lemma mark_then_checkmark_witness :
  ∃ fuel g' tr,
    solo transitive_mark fuel
      (set_marked chain_state [false; false; false; true; false; false])
      [IMark 4] = Ok (g', tr) ∧
    checkmark g' 4 = Ok tt.
Proof.
  destruct (mark_then_checkmark transitive_mark
              (set_marked chain_state [false; false; false; true; false; false]) 4)
    as (fuel & g' & tr & H1 & H2 & _).
  - apply (bool_decide_unpack _). vm_compute. exact I.
  - simpl. lia.
  - exact chain_root_closed.
  - exists fuel, g', tr. split; [exact H1 | exact H2].
Defined.

(** X8: a check that passes from [p] passes from every object reachable
    from [p], and keeps passing when more objects are marked in the same
    memory. *)
Theorem checkmark_monotone g g' p q :
  wf_state g → mem g' = mem g → length (marked g') = length (marked g) →
  (∀ j, marked g !! j = Some true → marked g' !! j = Some true) →
  p < length (mem g) → checkmark g p = Ok tt → reach (mem g) p q →
  checkmark g' q = Ok tt.
Proof.
  intros [Hm Hmk] Hmem Hlen Hmono Hp Hck Hq.
  pose proof (wf_mem_in_range _ Hm) as Hr.
  pose proof (checkmark_spec (mem g) Hr g p eq_refl Hmk Hp) as H.
  rewrite Hck in H.
  assert (q < length (mem g)) as Hql.
  { rewrite <- Hmk. eapply lookup_lt_Some. by apply H. }
  pose proof (checkmark_spec (mem g) Hr g' q Hmem ltac:(congruence) Hql) as H'.
  destruct (checkmark g' q) as [[]|f]; [done|].
  destruct f; try done. destruct H' as [Hq' Hu].
  assert (marked g' !! p0 = Some true); [|congruence].
  apply Hmono, H. destruct Hq as [Hp0 Hq], Hq' as [_ Hq'].
  split; [done|]. by etrans.
Qed.

Lemma checkmark_monotone_witness :
  checkmark (set_marked (glob check_config) (replicate 6 true)) 5 = Ok tt.
Proof.
  apply (checkmark_monotone (glob check_config)
           (set_marked (glob check_config) (replicate 6 true)) 4 5).
  - apply (bool_decide_unpack _). vm_compute. exact I.
  - reflexivity.
  - reflexivity.
  - intros j Hj.
    do 6 (destruct j as [|j]; [vm_compute in Hj |- *; congruence|]).
    vm_compute in Hj. discriminate Hj.
  - simpl. lia.
  - vm_compute. reflexivity.
  - split; [done|]. apply rtc_once. split; [done|].
    exists (Obj 0 5). split; [vm_compute; reflexivity | by right].
Defined.

(** ** What every policy keeps *)

Lemma tidy_set_world g w : tidy g → tidy (set_world g w).
Proof. by intros [??? ?]. Qed.

Lemma tidy_set_scanClock g n : tidy g → tidy (set_scanClock g n).
Proof. by intros [??? ?]. Qed.

Lemma tidy_mark g p :
  tidy g → heap_index p → tidy (set_marked g (<[p := true]> (marked g))).
Proof.
  intros [[Hm Hmk] H1 H2 H3] [Hp Hlt]. split; simpl; try done.
  - split; simpl; [done | by rewrite length_insert].
  - intros i Hi. destruct (decide (i = p)) as [->|Hne]; [done|].
    rewrite list_lookup_insert_ne in Hi by done. by apply H1.
Qed.

Lemma tidy_store g slot d v :
  tidy g → slot ≠ 0 → mem g !! slot = Some d → heap_ptr (length (mem g)) v →
  tidy (set_mem g (<[slot := set_l d v]> (mem g))).
Proof.
  intros [[Hm Hmk] H1 H2 H3] Hs Hd Hv. split; simpl; try done.
  - split; simpl; [by apply wf_mem_set_l | by rewrite length_insert].
  - by rewrite list_lookup_insert_ne.
  - intros s o Hss Ho. destruct (decide (s = slot)) as [->|Hne].
    + rewrite list_lookup_insert_eq in Ho by (by eapply lookup_lt_Some).
      injection Ho as <-. simpl. by apply (H3 slot d).
    + rewrite list_lookup_insert_ne in Ho by done. by apply (H3 s o).
Qed.

Lemma checkmark_fault g p :
  wf_state g → p < length (mem g) →
  match checkmark g p with
  | Ok _ => True
  | Panic f => ∃ q, f = ObjectNotMarked q ∧ marked g !! q = Some false ∧
                    reach (mem g) p q
  end.
Proof.
  intros [Hm Hmk] Hp.
  pose proof (checkmark_spec (mem g) (wf_mem_in_range _ Hm) g p eq_refl Hmk Hp) as H.
  destruct (checkmark g p) as [|f]; [done|]. destruct f; try done.
  destruct H. eauto.
Qed.

Lemma wf_index g s :
  wf_state g → s < memSize → ∃ o, index (mem g) s = Ok o ∧ mem g !! s = Some o.
Proof. intros [[Hlen _] _] Hs. apply index_lt. by rewrite Hlen. Qed.

Lemma wf_index_marked g s :
  wf_state g → s < memSize →
  ∃ b, index (marked g) s = Ok b ∧ marked g !! s = Some b.
Proof. intros [[Hlen _] Hmk] Hs. apply index_lt. by rewrite Hmk, Hlen. Qed.

Lemma wbarrier_ok pol slot val k :
  heap_index slot → stack_slot val → Forall (instr_ok pol) k →
  Forall (instr_ok pol) (wbarrier pol slot val ++ k).
Proof.
  intros Hs Hv Hk. apply Forall_app. split; [|done]. unfold wbarrier.
  destruct (Nat.eqb_spec val 0) as [->|_]; [by destruct Hv; consts; lia|].
  repeat (apply Forall_app; split).
  - destruct (writeMarks pol) eqn:E; [|done].
    repeat (apply Forall_cons; split; [by simpl|]). done.
  - destruct (writeRestarts pol) eqn:E; [|done].
    apply Forall_cons. split; [by split|done].
  - repeat (apply Forall_cons; split; [by simpl|]). done.
Qed.

Lemma exec_sound pol x g i k :
  tidy g → instr_ok pol i → Forall (instr_ok pol) k →
  exec_ok pol g (exec pol x g i k).
Proof.
  intros Ht Hi Hk. pose proof (td_wf _ Ht) as Hwf. pose proof Hwf as [Hm Hmk].
  pose proof Hm as [Hlen _].
  destruct i; cbn [exec instr_ok] in *.
  - (* IMark *)
    destruct (Nat.eqb_spec p 0) as [->|Hp]; [done|].
    destruct Hi as [->|[Hp1 Hp2]]; [done|].
    destruct (wf_index_marked g p Hwf Hp2) as (b & -> & Hb). simpl.
    destruct b; [done|].
    destruct (wf_index g p Hwf Hp2) as (o & Ho & Ho'). cbn [mem set_marked].
    rewrite Ho. simpl. split; [by apply tidy_mark|].
    destruct (wf_mem_lookup _ _ _ Hm Ho') as [Hl _]. rewrite Hlen in Hl.
    by repeat (constructor; [done|]).
  - (* IMarkL *)
    destruct (wf_index g s Hwf) as (o & -> & Ho); [destruct Hi; consts; lia|].
    simpl. split; [done|]. constructor; [|done].
    destruct (wf_mem_lookup _ _ _ Hm Ho) as [Hl _]. by rewrite Hlen in Hl.
  - (* IMarkR *)
    destruct (wf_index g p Hwf) as (o & -> & Ho); [by destruct Hi|].
    simpl. split; [done|]. constructor; [|done].
    destruct (wf_mem_lookup _ _ _ Hm Ho) as [_ Hr]. by rewrite Hlen in Hr.
  - (* ISched *) done.
  - (* IGo *)
    split; [done|]. split; [done|]. unfold mutator.
    repeat (apply Forall_cons; split; [by simpl|]). done.
  - (* IScan *)
    destruct (Nat.ltb_spec (scanClock g) numThreads) as [Hc|Hc]; [|done].
    split; [by apply tidy_set_scanClock|]. cbn [scanClock set_scanClock].
    constructor; [|by constructor]. simpl. split; consts; lia.
  - (* ILock *)
    destruct (_ && _); [|done]. split; [by apply tidy_set_world | done].
  - (* IUnlock *) split; [by apply tidy_set_world | done].
  - (* IRLock *)
    destruct (writer (world g)); [done|]. split; [by apply tidy_set_world | done].
  - (* IRUnlock *) split; [by apply tidy_set_world | done].
  - (* ICheckmark *)
    subst p. pose proof (checkmark_fault g globalRoot Hwf) as H.
    destruct (checkmark g globalRoot) as [[]|f]; simpl; [done|].
    destruct H as (q & -> & Hq & Hr); [rewrite Hlen; consts; lia|].
    exists q. split; [done|]. split; [done | by left].
  - (* ICheckStack *)
    destruct (wf_index g (stackBase + i) Hwf) as (o & -> & Ho); [consts; lia|].
    simpl. destruct (wf_mem_lookup _ _ _ Hm Ho) as [Hl _].
    pose proof (checkmark_fault g (l o) Hwf) as H.
    destruct (checkmark g (l o)) as [[]|f]; simpl; [done|].
    destruct H as (q & -> & Hq & Hr).
    { eapply heap_ptr_lt; [|done]. rewrite Hlen. consts. lia. }
    exists q. split; [done|]. split; [done|]. right.
    exists (stackBase + i), o. split; [|done]. split; consts; lia.
  - (* IRestart *)
    destruct Hi as [_ Hv].
    destruct (wf_index_marked g val Hwf) as (b & -> & Hb); [destruct Hv; consts; lia|].
    simpl. split; [|done]. destruct b; simpl; [done | by apply tidy_set_scanClock].
  - (* IStore *)
    destruct Hi as [[Hs1 Hs2] Hv].
    destruct (wf_index g val Hwf) as (o & -> & Ho); [destruct Hv; consts; lia|].
    destruct (wf_index g slot Hwf) as (d & -> & Hd); [done|].
    simpl. split; [|done]. apply tidy_store; [done | consts; lia | done |].
    by destruct (wf_mem_lookup _ _ _ Hm Ho).
  - (* IPublish *)
    destruct (ambReachable_total (mem g) Hm) as (n & -> & _ & Hsel).
    destruct (Nat.ltb_spec x n) as [Hx|]; [|done].
    destruct (Hsel x Hx) as (p & -> & Hp1 & Hp2 & _). simpl.
    split; [done|]. apply wbarrier_ok; [|split; consts; lia|done].
    split; [done|]. by rewrite <- Hlen.
  - (* ILoad *)
    destruct (ambReachable_total (mem g) Hm) as (n & -> & _ & Hsel).
    destruct (Nat.ltb_spec x n) as [Hx|]; [|done].
    destruct (Hsel x Hx) as (p & -> & Hp1 & Hp2 & _).
    destruct (wf_index g p Hwf) as (o & Hio & Ho); [by rewrite <- Hlen|].
    destruct (wf_index g (stackBase + id) Hwf) as (d & Hid & Hd); [consts; lia|].
    cbn [mbind result_bind]. rewrite Hio. cbn [mbind result_bind]. rewrite Hid.
    simpl. split; [|done].
    apply (tidy_store g (stackBase + id)); [done | consts; lia | done |].
    by destruct (wf_mem_lookup _ _ _ Hm Ho).
Qed.

Lemma sound_step pol c x : sound pol c → step_sound pol c (step pol c x).
Proof.
  intros [Ht Hc]. unfold step, switch.
  destruct (threads c !! cur c) as [[|i k]|] eqn:Hk; [| |done].
  { by destruct (_ || _). }
  pose proof (proj1 (Forall_lookup _ _) Hc _ _ Hk) as Hik.
  apply Forall_cons in Hik as [Hi Hk'].
  pose proof (exec_sound pol x (glob c) i k Ht Hi Hk') as H.
  destruct (exec pol x (glob c) i k) as [g' k'|g' k'| |g' k' body|f|];
    simpl in *; try done.
  - destruct H. split; [done|]. simpl. by apply Forall_insert.
  - destruct (_ || _); [|done]. destruct H. split; [done|]. simpl.
    by apply Forall_insert.
  - by destruct (_ || _).
  - destruct H as (? & ? & ?). split; [done|]. simpl.
    apply Forall_app. split; [by apply Forall_insert | by constructor].
Qed.

Lemma sound_init pol gs m : build_mem gs = Some m → sound pol (init_config m).
Proof.
  intros Hb. destruct (build_mem_shape gs m Hb) as [(Hm & H0 & Hr) _].
  split; simpl.
  - split; simpl.
    + by apply init_state_wf.
    + intros i [? _]%lookup_replicate. done.
    + done.
    + intros s o [_ Hs] Ho. by apply (proj1 (stack_right m) Hr s o).
  - constructor; [|done]. unfold main_body.
    repeat (apply Forall_cons; split;
            [simpl; unfold heap_ptr; consts; (done || lia)|]).
    done.
Qed.

Lemma sound_reachable pol c : reachable pol c → sound pol c.
Proof.
  induction 1 as [gs m Hb|c x c' _ IH Hs]; [by eapply sound_init|].
  pose proof (sound_step pol c x IH) as H. by rewrite Hs in H.
Qed.

Lemma step_instr pol c x c' :
  sound pol c → step pol c x = Next c' →
  glob c' = glob c ∨
  ∃ i k, instr_ok pol i ∧
         outcome_state (glob c) (exec pol x (glob c) i k) = Some (glob c').
Proof.
  intros [_ Hc] Hs. destruct (step_state _ _ _ _ Hs) as [?|(i & k & Hk & He)]; [by left|].
  right. exists i, k. split; [|done].
  pose proof (proj1 (Forall_lookup _ _) Hc _ _ Hk) as Hik.
  by apply Forall_cons in Hik as [? _].
Qed.

Lemma from_root_heap g q : tidy g → from_root g q → heap_index q.
Proof.
  intros [[Hm _] _ _ _] H. pose proof Hm as [Hlen _]. unfold heap_index.
  rewrite <- Hlen.
  destruct H as [[_ H]|(s & o & [Hs1 Hs2] & Ho & [Hl H])].
  - apply (reach_heap _ globalRoot q Hm); [done | rewrite Hlen; consts; lia | done].
  - destruct (wf_mem_lookup _ _ _ Hm Ho) as [[?|[? ?]] _]; [done|].
    by apply (reach_heap _ (l o) q Hm).
Qed.

Lemma hidden_config_trial :
  trial no_barrier hidden_choices hidden_schedule = Next hidden_config.
Proof. vm_compute. reflexivity. Qed.

Lemma check_config_trial :
  trial transitive_mark chain_choices (take 34 full_schedule) = Next check_config.
Proof. vm_compute. reflexivity. Qed.

(** X9: whatever the policy, the only panic a trial can end in is the
    one of [checkmark]: no slice index is out of range and
    [panic("not reached")] is never run.  The object the panic names is
    a heap object that is unmarked and reachable from the global root or
    from the pointer of a stack slot. *)
Theorem only_fault pol c x f :
  reachable pol c → step pol c x = Crash f →
  ∃ q, f = ObjectNotMarked q ∧ heap_index q ∧
       marked (glob c) !! q = Some false ∧ from_root (glob c) q.
Proof.
  intros Hc Hs. pose proof (sound_reachable _ _ Hc) as Hsd.
  pose proof (sound_step pol c x Hsd) as H. rewrite Hs in H.
  destruct H as (q & -> & Hq & Hr). exists q.
  split; [done|]. split; [|done]. eapply from_root_heap; [|done].
  apply Hsd.
Qed.

Lemma only_fault_witness :
  step no_barrier hidden_config 0 = Crash (ObjectNotMarked 4) ∧
  ∃ q, ObjectNotMarked 4 = ObjectNotMarked q ∧ heap_index q ∧
       marked (glob hidden_config) !! q = Some false ∧
       from_root (glob hidden_config) q.
Proof.
  assert (step no_barrier hidden_config 0 = Crash (ObjectNotMarked 4)) as Hs
    by (vm_compute; reflexivity).
  split; [exact Hs|].
  apply (only_fault no_barrier hidden_config 0); [|exact Hs].
  apply (reachable_trial _ hidden_choices hidden_schedule).
  vm_compute. reflexivity.
Defined.

(** X10: only heap objects are ever marked: in no configuration of a
    trial, under any policy, is the mark bit of the nil slot or of a
    stack slot set. *)
Theorem only_heap_marked pol c i :
  reachable pol c → marked (glob c) !! i = Some true → heap_index i.
Proof.
  intros Hc Hi. destruct (sound_reachable _ _ Hc) as [[[[Hlen _] Hmk] Hh _ _] _].
  split; [by apply Hh|]. rewrite <- Hlen, <- Hmk. by eapply lookup_lt_Some.
Qed.

Lemma only_heap_marked_witness : heap_index 4.
Proof.
  apply (only_heap_marked transitive_mark chain_config 4).
  - apply (reachable_trial _ chain_choices chain_schedule). vm_compute. reflexivity.
  - vm_compute. reflexivity.
Defined.

Ltac exec_cases H :=
  repeat match type of H with
  | outcome_state _ (if ?b then _ else _) = _ => destruct b eqn:?
  | outcome_state _ (match ?r with Ok _ => _ | Panic _ => _ end) = _ =>
      destruct r eqn:?; [|discriminate H]
  end;
  try (apply continue_state in H as [? H]; bind_inv H).

Lemma exec_right_fields pol x g i k g' :
  outcome_state g (exec pol x g i k) = Some g' →
  r <$> mem g' = r <$> mem g.
Proof.
  assert (∀ (m : list obj) s d v, index m s = Ok d →
            r <$> <[s := set_l d v]> m = r <$> m) as Hset.
  { intros m s d v Hd%index_Ok. rewrite list_fmap_insert. simpl.
    apply list_insert_id. by rewrite list_lookup_fmap, Hd. }
  intros H. destruct i; simpl in H; exec_cases H; simplify_eq/=; try done.
  - (* IRestart *) by destruct (negb _).
  - (* IStore *) by apply Hset.
  - (* ILoad *) by apply Hset.
Qed.

(** X11: a trial writes left fields only.  Under every policy the right
    fields of a configuration are the ones the construction gave, the
    memory keeps its length, the nil slot stays zero and the stack slots
    keep a nil right field. *)
Theorem left_fields_only pol gs m xs c :
  build_mem gs = Some m → run pol (init_config m) xs = Next c →
  r <$> mem (glob c) = r <$> m ∧
  length (mem (glob c)) = length m ∧
  mem (glob c) !! 0 = Some (Obj 0 0) ∧
  ∀ s o, stack_slot s → mem (glob c) !! s = Some o → r o = 0.
Proof.
  intros Hb Hrun.
  assert (reachable pol c) as Hc.
  { eapply reachable_run; [|done]. by eapply reachable_init. }
  destruct (sound_reachable _ _ Hc) as [[_ _ H0 Hst] _].
  assert (r <$> mem (glob c) = r <$> m) as Hr.
  { revert Hrun. apply (run_inv (λ c1, r <$> mem (glob c1) = r <$> m)); [|done].
    intros c1 x c2 IH Hs.
    destruct (step_state _ _ _ _ Hs) as [->|(i & k & _ & He)]; [done|].
    by rewrite (exec_right_fields _ _ _ _ _ _ He). }
  split; [done|]. split; [|done].
  by rewrite <- (length_fmap r), Hr, length_fmap.
Qed.

Lemma left_fields_only_witness :
  r <$> mem (glob final_config) = r <$> mem chain_state ∧
  mem (glob final_config) !! 0 = Some (Obj 0 0).
Proof.
  destruct (left_fields_only transitive_mark chain_choices (mem chain_state)
              full_schedule final_config) as (H1 & _ & H2 & _).
  - vm_compute. reflexivity.
  - vm_compute. reflexivity.
  - split; [exact H1 | exact H2].
Defined.

(** X12: the scan-restart test never finds its argument marked.  When a
    thread of a trial is about to run [if !marked[val] { scanClock = 0 }],
    [val] is a stack slot, its mark bit is false, and the step sets the
    clock to zero. *)
Theorem restart_always_resets pol c x val k :
  reachable pol c → threads c !! cur c = Some (IRestart val :: k) →
  stack_slot val ∧ marked (glob c) !! val = Some false ∧
  step pol c x
  = Next (Config (set_scanClock (glob c) 0) (<[cur c := k]> (threads c)) (cur c)).
Proof.
  intros Hc Hk. destruct (sound_reachable _ _ Hc) as [Ht Hcode].
  pose proof (proj1 (Forall_lookup _ _) Hcode _ _ Hk) as Hik.
  apply Forall_cons in Hik as [[_ Hv] _].
  destruct (wf_index_marked (glob c) val (td_wf _ Ht)) as (b & Hb & Hb');
    [destruct Hv; consts; lia|].
  assert (b = false) as ->.
  { destruct b; [|done]. pose proof (td_marks _ Ht val Hb'). destruct Hv. lia. }
  split; [done|]. split; [done|].
  unfold step. rewrite Hk. cbn [exec]. by rewrite Hb.
Qed.

Lemma restart_always_resets_witness :
  marked (glob restart_config) !! 1 = Some false ∧
  ∃ c', step scan_restart restart_config 0 = Next c' ∧ scanClock (glob c') = 0.
Proof.
  destruct (restart_always_resets scan_restart restart_config 0 1
              [IStore 3 1; ISched; ILoad 0; ISched]) as (_ & H1 & H2).
  - apply (reachable_trial _ restart_choices (replicate 15 0 ++ [1; 0])).
    vm_compute. reflexivity.
  - vm_compute. reflexivity.
  - split; [exact H1|]. eexists. split; [exact H2 | reflexivity].
Defined.

Lemma exec_clock_mono pol x g i k g' :
  writeRestarts pol = false → instr_ok pol i →
  outcome_state g (exec pol x g i k) = Some g' →
  scanClock g ≤ scanClock g'.
Proof.
  intros Hpol Hi H. destruct i; simpl in H; exec_cases H; simplify_eq/=;
    try done; try lia.
  destruct Hi. congruence.
Qed.

(** X13: with [writeRestarts] off the scan clock never goes back: along
    a trial it only grows, up to [numThreads]. *)
Theorem clock_monotone pol c xs c' :
  writeRestarts pol = false → reachable pol c → run pol c xs = Next c' →
  scanClock (glob c) ≤ scanClock (glob c') ∧ scanClock (glob c') ≤ numThreads.
Proof.
  intros Hpol Hc Hrun.
  split; [|eapply reachable_clock, reachable_run; done].
  apply sound_reachable in Hc. clear -Hpol Hc Hrun.
  revert c Hc Hrun. induction xs as [|x xs IH]; intros c Hc; simpl.
  { by intros [= <-]. }
  destruct (step pol c x) as [c1| |] eqn:Hs; try done. intros Hrun.
  pose proof (sound_step pol c x Hc) as Hc1. rewrite Hs in Hc1.
  etrans; [|by apply (IH c1)].
  destruct (step_instr _ _ _ _ Hc Hs) as [->|(i & k & Hi & He)]; [done|].
  by eapply exec_clock_mono.
Qed.

Lemma clock_monotone_witness :
  scanClock (glob chain_config) ≤ scanClock (glob final_config) ∧
  scanClock (glob final_config) ≤ numThreads.
Proof.
  apply (clock_monotone transitive_mark chain_config (drop 19 full_schedule)).
  - reflexivity.
  - apply (reachable_trial _ chain_choices chain_schedule). vm_compute. reflexivity.
  - vm_compute. reflexivity.
Defined.

Lemma exec_lock pol x g i k g' :
  instr_ok pol i →
  (writer (world g) = true → readers (world g) = 0) →
  (writeMarks pol = false → readers (world g) = 0) →
  outcome_state g (exec pol x g i k) = Some g' →
  (writer (world g') = true → readers (world g') = 0) ∧
  (writeMarks pol = false → readers (world g') = 0).
Proof.
  intros Hi Hw Hr H. destruct i; simpl in H; exec_cases H; simplify_eq/=;
    try done; try (by destruct (negb _)).
  all: simpl in Hi; split; intros;
    repeat match goal with
    | H1 : ?P → _, H2 : ?P |- _ => specialize (H1 H2)
    end; simpl in *; congruence || lia.
Qed.

(** X14: the lock [world] is never held in both modes: in every
    configuration of a trial, under any policy, no shared holder exists
    while the exclusive mode is held; and with [writeMarks] off the
    shared mode is never taken. *)
Theorem lock_exclusive pol c :
  reachable pol c →
  (writer (world (glob c)) = true → readers (world (glob c)) = 0) ∧
  (writeMarks pol = false → readers (world (glob c)) = 0).
Proof.
  induction 1 as [gs m Hb|c x c' Hc IH Hs]; [done|].
  destruct (step_instr _ _ _ _ (sound_reachable _ _ Hc) Hs)
    as [->|(i & k & Hi & He)]; [done|].
  destruct IH. by eapply exec_lock.
Qed.

Lemma lock_exclusive_witness :
  writer (world (glob check_config)) = true ∧
  readers (world (glob check_config)) = 0.
Proof.
  assert (writer (world (glob check_config)) = true) as Hw by reflexivity.
  split; [exact Hw|].
  refine (proj1 (lock_exclusive transitive_mark check_config _) Hw).
  apply (reachable_trial _ chain_choices (take 34 full_schedule)).
  vm_compute. reflexivity.
Defined.

(** X15: under the transitive-mark policy the final check runs with the
    world stopped.  When a thread is about to run a [checkmark] it is
    [main], it holds [world] exclusively, and every mutator is outside
    its write barrier: it has not started, or is between its barrier and
    its load, or has returned. *)
Theorem check_world_stopped c i k :
  reachable transitive_mark c → threads c !! cur c = Some (i :: k) →
  (∃ p, i = ICheckmark p) ∨ (∃ j, i = ICheckStack j) →
  cur c = 0 ∧ writer (world (glob c)) = true ∧ readers (world (glob c)) = 0 ∧
  ∀ t k', threads c !! S t = Some k' →
          k' = mutator t ∨ k' = [ILoad t; ISched] ∨ k' = [].
Proof.
  intros Hc Hk Hi. destruct (reachable_inv _ Hc) as [Hwf Hsh Hlg].
  pose proof (shapes_thread _ _ _ _ Hsh Hk) as Hshape.
  assert (cur c = 0 ∧ writer (world (glob c)) = true) as [H0 Hw].
  { destruct (cur c) as [|t]; simpl in Hshape.
    - split; [done|].
      destruct Hi as [[? ->]|[? ->]]; inversion Hshape; subst; try done;
        unfold go_tail, scan_tail, lock_tail in *;
        match goal with
        | H : frames _ ?F |- _ =>
            destruct F as [|? ?]; simplify_eq/=; by apply Forall_cons in H as [? _]
        end.
    - exfalso.
      destruct Hi as [[? ->]|[? ->]]; inversion Hshape; subst;
        unfold mutator, barrier_rest in *; try done;
        match goal with
        | H : frames _ ?F |- _ =>
            destruct F as [|? ?]; simplify_eq/=; by apply Forall_cons in H as [? _]
        end. }
  split; [done|]. split; [done|].
  pose proof (sh_excl _ _ _ Hsh Hw) as Hrd. split; [done|].
  rewrite H0 in Hsh.
  intros t k' Hk'.
  pose proof (sh_mut _ _ _ Hsh t k' Hk') as Hmut.
  rewrite bool_decide_eq_false_2 in Hmut by done.
  pose proof (sh_readers _ _ _ Hsh) as Hn. rewrite Hrd in Hn. symmetry in Hn.
  pose proof (nholders_zero _ _ _ Hn Hk') as Hh.
  inversion Hmut; subst; eauto.
  rewrite (mut_marking_holding t) in Hh by by constructor. done.
Qed.

Lemma check_world_stopped_witness :
  cur check_config = 0 ∧ writer (world (glob check_config)) = true ∧
  readers (world (glob check_config)) = 0.
Proof.
  destruct (check_world_stopped check_config (ICheckStack 0)
              [ICheckStack 1; IUnlock]) as (H1 & H2 & H3 & _).
  - apply (reachable_trial _ chain_choices (take 34 full_schedule)).
    vm_compute. reflexivity.
  - vm_compute. reflexivity.
  - right. by exists 0.
  - split; [exact H1|]. split; [exact H2 | exact H3].
Defined.

(** X16: the transitive-mark barrier is needed.  With no barrier, and
    with the scan-restart barrier alone, there is a trial that ends in
    [panic("object not marked")]: a mutator stores its pointer in an
    object that is marked already and overwrites its stack slot before
    the collector scans it. *)
Theorem barrier_needed :
  (∃ gs xs q, trial no_barrier gs xs = Crash (ObjectNotMarked q)) ∧
  (∃ gs xs q, trial scan_restart gs xs = Crash (ObjectNotMarked q)).
Proof.
  split.
  - exists hidden_choices, (hidden_schedule ++ [0]), 4. vm_compute. reflexivity.
  - exists hidden_choices,
      (replicate 12 0 ++ [2; 0; 0; 0; 2; 1; 0] ++ replicate 12 0), 4.
    vm_compute. reflexivity.
Qed.

(** ** Running a trial to its end *)

Lemma code_weight_cons i k : code_weight (i :: k) = weight i + code_weight k.
Proof. done. Qed.

Lemma code_weight_app k1 k2 :
  code_weight (k1 ++ k2) = code_weight k1 + code_weight k2.
Proof. induction k1 as [|i k1 IH]; simpl; lia. Qed.

Lemma unmarked_insert (mk : list bool) p :
  mk !! p = Some false →
  S (length (<[p := true]> mk) - count_marked (<[p := true]> mk))
  = length mk - count_marked mk.
Proof.
  intros Hp. pose proof (count_marked_insert mk p Hp) as Hc.
  pose proof (count_marked_le (<[p := true]> mk)) as Hle.
  rewrite length_insert in *. lia.
Qed.

Lemma exec_work x g i k :
  instr_ok transitive_mark i →
  outcome_work g (code_weight (i :: k)) (exec transitive_mark x g i k).
Proof.
  intros Hi. rewrite code_weight_cons.
  destruct i; cbn [exec weight instr_ok] in *;
    repeat match goal with
    | |- outcome_work _ _ (if ?b then _ else _) => destruct b eqn:?
    | |- outcome_work _ _ (continue (mbind _ ?m)) =>
        destruct m eqn:?; cbn [mbind result_bind continue]
    | |- outcome_work _ _ (continue (if ?b then _ else _)) => destruct b eqn:?
    | |- outcome_work _ _ (match ?m with Ok _ => _ | Panic _ => _ end) =>
        destruct m eqn:?
    | |- outcome_work _ _ (continue (Ok _)) => cbn [continue]
    | |- outcome_work _ _ (continue (Panic _)) => cbn [continue]
    end;
    cbn [outcome_work]; try done;
    try (unfold state_work, unmarked; cbn [marked scanClock set_marked set_world
           set_mem set_scanClock]; rewrite ?code_weight_cons; cbn [weight]; lia).
  - (* IMark *)
    match goal with
    | H : index (marked _) _ = Ok false |- _ =>
        apply index_Ok in H; pose proof (unmarked_insert _ _ H) as Hu
    end.
    unfold state_work, unmarked. cbn [marked scanClock set_marked].
    rewrite !code_weight_cons. cbn [weight]. lia.
  - (* IGo *) unfold mutator. simpl. lia.
  - (* IScan *)
    match goal with H : (_ <? _) = true |- _ => apply Nat.ltb_lt in H end.
    unfold state_work, unmarked.
    cbn [marked scanClock set_scanClock]. rewrite !code_weight_cons.
    cbn [weight]. lia.
  - (* IRestart *) by destruct Hi.
  - (* IPublish *)
    rewrite code_weight_app. unfold wbarrier, stackBase. simpl. lia.
Qed.

Lemma total_weight_insert ths t k k' :
  ths !! t = Some k →
  total_weight (<[t := k']> ths) + code_weight k
  = total_weight ths + code_weight k'.
Proof.
  revert t. induction ths as [|k0 ths IH]; intros [|t] Ht; simplify_eq/=; [lia|].
  specialize (IH t Ht). lia.
Qed.

Lemma total_weight_app ths k :
  total_weight (ths ++ [k]) = total_weight ths + code_weight k.
Proof. induction ths as [|k0 ths IH]; simpl; lia. Qed.

(** Whether a statement waits does not depend on the value of
    [sched.Amb]. *)
Lemma exec_wait pol x g i k :
  exec pol x g i k = Wait → exec pol 0 g i k = Wait.
Proof.
  destruct i; cbn [exec]; try done.
  - destruct (nreachable (mem g)) as [n|]; [|done].
    destruct (x <? n); [|done]. by destruct (mbind _ _) as [[??]|].
  - destruct (nreachable (mem g)) as [n|]; [|done].
    destruct (x <? n); [|done]. by destruct (mbind _ _) as [[??]|].
Qed.

Lemma step_work c x c' :
  sound transitive_mark c → blocked c = false →
  step transitive_mark c x = Next c' → work c' < work c.
Proof.
  intros [_ Hcode] Hb Hs. unfold blocked in Hb. unfold step in Hs.
  destruct (threads c !! cur c) as [[|i k]|] eqn:Hk; try done.
  pose proof (proj1 (Forall_lookup _ _) Hcode _ _ Hk) as Hik.
  apply Forall_cons in Hik as [Hi _].
  pose proof (exec_work x (glob c) i k Hi) as Hw.
  pose proof (total_weight_insert (threads c) (cur c) (i :: k)) as Hins.
  unfold work.
  destruct (exec transitive_mark x (glob c) i k) as [g' k'|g' k'| |g' k' body|f|] eqn:He;
    cbn [outcome_work] in Hw; try done.
  - injection Hs as <-. cbn [threads glob]. specialize (Hins k' Hk). lia.
  - unfold switch in Hs. destruct (_ || _); [|done].
    injection Hs as <-. cbn [threads glob]. specialize (Hins k' Hk). lia.
  - by rewrite (exec_wait _ _ _ _ _ He) in Hb.
  - injection Hs as <-. cbn [threads glob]. specialize (Hins k' Hk).
    rewrite total_weight_app. lia.
Qed.

Lemma exec_yield pol x g i k g' k' :
  exec pol x g i k = Yield g' k' → i = ISched.
Proof.
  destruct i; cbn [exec]; try done;
    repeat match goal with
    | |- (if ?b then _ else _) = _ → _ => destruct b
    | |- continue ?r = _ → _ =>
        lazymatch r with
        | Ok _ => fail
        | Panic _ => fail
        | _ => destruct r as [[??]|]
        end
    | |- match ?r with Ok _ => _ | Panic _ => _ end = _ → _ => destruct r
    end; done.
Qed.

Lemma exec_wait_inv pol g i k :
  exec pol 0 g i k = Wait →
  (i = ILock ∨ i = IRLock) ∧ ∀ x, exec pol x g i k = Wait.
Proof.
  destruct i; cbn [exec]; try done; try (by intros; split; [auto|]);
    repeat match goal with
    | |- (if ?b then _ else _) = _ → _ => destruct b
    | |- continue ?r = _ → _ =>
        lazymatch r with
        | Ok _ => fail
        | Panic _ => fail
        | _ => destruct r as [[??]|]
        end
    | |- match ?r with Ok _ => _ | Panic _ => _ end = _ → _ => destruct r
    end; done.
Qed.

Lemma exec_refuse pol g i k :
  wf_state g → exec pol 0 g i k ≠ Refuse.
Proof.
  intros [Hm _]. destruct (ambReachable_total (mem g) Hm) as (n & Hn & Hpos & _).
  destruct i; cbn [exec]; try done; rewrite ?Hn;
    repeat match goal with
    | |- (if ?b then _ else _) ≠ _ => destruct b eqn:?
    | |- continue ?r ≠ _ =>
        lazymatch r with
        | Ok _ => fail
        | Panic _ => fail
        | _ => destruct r as [[??]|]
        end
    end; try done.
  all: match goal with H : (_ <? _) = false |- _ => apply Nat.ltb_ge in H end; lia.
Qed.

Lemma unblocked_step c :
  inv c → blocked c = false →
  ∃ x c', step transitive_mark c x = Next c'.
Proof.
  intros Hinv Hb. unfold blocked in Hb.
  destruct (threads c !! cur c) as [[|i k]|] eqn:Hk; try done.
  set (x := match i with ISched => cur c | _ => 0 end).
  exists x. pose proof (step_inv c x Hinv) as Hok.
  unfold step in *. rewrite Hk in *.
  destruct (exec transitive_mark x (glob c) i k) as [g' k'|g' k'| |g' k' body|f|] eqn:He;
    simpl in Hok; try done; eauto.
  - pose proof (exec_yield _ _ _ _ _ _ _ He) as ->. subst x.
    unfold switch. rewrite Nat.eqb_refl. simpl. eauto.
  - by rewrite (exec_wait _ _ _ _ _ He) in Hb.
  - exfalso. assert (x = 0) as Hx by (subst x; by destruct i).
    rewrite Hx in He. by apply (exec_refuse _ _ _ _ (inv_wf _ Hinv)) in He.
Qed.

Lemma nholders_none ths :
  Forall (λ k, holding k = false) ths → nholders ths = 0.
Proof. induction 1 as [|k ths Hk _ IH]; simpl; [done|]. by rewrite Hk, IH. Qed.

Lemma main_shape_wait n b w k :
  main_shape n b w k → k = [] ∨ (∃ k', k = ILock :: k') → w = false.
Proof.
  intros Hk Hhd. inversion Hk; subst; try done;
    unfold go_tail, scan_tail, lock_tail in *;
    destruct Hhd as [?|[? ?]]; simplify_eq/=.
Qed.

Lemma mut_shape_ready i b k g :
  mut_shape i b k → k ≠ [] → writer (world g) = false →
  match k with
  | j :: k' => exec transitive_mark 0 g j k' ≠ Wait
  | [] => False
  end.
Proof.
  intros Hk Hne Hw. destruct k as [|j k']; [done|]. intros He.
  destruct (exec_wait_inv _ _ _ _ He) as [[->| ->] _].
  - inversion Hk; subst; unfold mutator, barrier_rest in *; try done.
    all: match goal with
         | H : frames _ ?F |- _ =>
             destruct F as [|? ?]; simplify_eq/=; by apply Forall_cons in H as [? _]
         end.
  - cbn [exec] in He. by rewrite Hw in He.
Qed.

Lemma blocked_switch c :
  inv c → blocked c = true → ¬ finished c →
  ∃ x, step transitive_mark c x = Next (Config (glob c) (threads c) x) ∧
       blocked (Config (glob c) (threads c) x) = false.
Proof.
  destruct c as [g ths t]. intros [Hwf Hsh Hlg] Hb Hfin. cbn [glob threads cur] in *.
  unfold blocked in Hb. cbn [glob threads cur] in Hb.
  pose proof (sh_run _ _ _ Hsh t eq_refl) as Ht.
  destruct (lookup_lt_is_Some_2 ths t Ht) as [k Hk].
  unfold code in *. rewrite Hk in Hb.
  assert (∀ x, step transitive_mark (Config g ths t) x = switch g ths t x) as Hstep.
  { intros x. unfold step. cbn [glob threads cur]. unfold code. rewrite Hk.
    destruct k as [|i k']; [done|].
    destruct (exec transitive_mark 0 g i k') eqn:He; try done.
    by rewrite (proj2 (exec_wait_inv _ _ _ _ He) x). }
  assert (k = [] ∨ ∃ k', k = ILock :: k' ∨ k = IRLock :: k') as Hhd.
  { destruct k as [|i k']; [by left|]. right. exists k'.
    destruct (exec transitive_mark 0 g i k') eqn:He; try done.
    destruct (exec_wait_inv _ _ _ _ He) as [[->| ->] _]; auto. }
  assert (writer (world g) = false) as Hw.
  { destruct t as [|t]; [|by eapply shapes_writer].
    pose proof (shapes_thread _ _ _ _ Hsh Hk) as Hm. simpl in Hm.
    destruct Hhd as [->|(k' & [->| ->])].
    - by eapply main_shape_wait; [|left].
    - eapply main_shape_wait; [done|]. right. eauto.
    - inversion Hm; subst; unfold go_tail, scan_tail, lock_tail in *; try done;
        match goal with
        | H : frames _ ?F |- _ =>
            destruct F as [|? ?]; simplify_eq/=; by apply Forall_cons in H as [? _]
        end. }
  destruct (sh_main _ _ _ Hsh) as (km & Hkm & Hmain).
  destruct (decide (Forall (λ k, k = []) (drop 1 ths))) as [Hall|Hex].
  - (* only [main] is left *)
    destruct ths as [|km' rest]; [done|]. simplify_eq/=. rewrite drop_0 in Hall.
    assert (km ≠ []) as Hne.
    { intros ->. apply Hfin. by constructor. }
    exists 0. rewrite Hstep. unfold switch, runnable, blocked. cbn [glob threads cur].
    simpl. destruct km as [|i k0]; [done|]. rewrite orb_true_r. split; [done|].
    destruct (exec transitive_mark 0 g i k0) eqn:He; try done.
    destruct (exec_wait_inv _ _ _ _ He) as [[->| ->] _].
    + cbn [exec] in He. rewrite Hw in He.
      assert (readers (world g) = 0) as Hr.
      { rewrite (sh_readers _ _ _ Hsh). simpl.
        rewrite (main_shape_holding _ _ _ _ Hmain). simpl.
        apply nholders_none. eapply Forall_impl; [exact Hall|].
        by intros ? ->. }
      by rewrite Hr in He.
    + inversion Hmain; subst; unfold go_tail, scan_tail, lock_tail in *; try done;
        match goal with
        | H : frames _ ?F |- _ =>
            destruct F as [|? ?]; simplify_eq/=; by apply Forall_cons in H as [? _]
        end.
  - (* some mutator has statements left *)
    apply not_Forall_Exists in Hex; [|apply _].
    apply Exists_exists in Hex as (k1 & Hin & Hne). simpl in Hne.
    apply list_elem_of_lookup_1 in Hin as [j Hj]. rewrite lookup_drop in Hj.
    simpl in Hj.
    pose proof (sh_mut _ _ _ Hsh j k1 Hj) as Hmut.
    pose proof (mut_shape_ready j _ k1 g Hmut Hne Hw) as Hready.
    exists (S j). rewrite Hstep. unfold switch, runnable, blocked.
    cbn [glob threads cur]. unfold code in *. rewrite Hj.
    destruct k1 as [|i1 k1']; [done|]. rewrite orb_true_r. split; [done|].
    by destruct (exec transitive_mark 0 g i1 k1').
Qed.

Lemma completes n : ∀ c,
  effort c < n → inv c → sound transitive_mark c →
  ∃ xs c', run transitive_mark c xs = Next c' ∧ finished c'.
Proof.
  induction n as [|n IH]; intros c Hn Hinv Hsd; [lia|].
  destruct (decide (finished c)) as [Hfin|Hfin].
  { exists [], c. done. }
  assert (∃ x c1, step transitive_mark c x = Next c1 ∧ effort c1 < effort c)
    as (x & c1 & Hs & Hlt).
  { unfold effort. destruct (blocked c) eqn:Hb.
    - destruct (blocked_switch c Hinv Hb Hfin) as (x & Hs & Hb').
      exists x, (Config (glob c) (threads c) x). split; [done|].
      rewrite Hb'. unfold work. cbn [glob threads]. lia.
    - destruct (unblocked_step c Hinv Hb) as (x & c1 & Hs).
      exists x, c1. split; [done|].
      pose proof (step_work c x c1 Hsd Hb Hs). destruct (blocked c1); lia. }
  pose proof (step_inv c x Hinv) as Hinv1. rewrite Hs in Hinv1.
  pose proof (sound_step transitive_mark c x Hsd) as Hsd1. rewrite Hs in Hsd1.
  destruct (IH c1 ltac:(lia) Hinv1 Hsd1) as (xs & c' & Hrun & Hfin').
  exists (x :: xs), c'. split; [|done]. simpl. by rewrite Hs.
Qed.

(** X17: under the transitive-mark policy every trial can be run to its
    end: from every configuration of a trial some choices lead to a
    configuration in which every thread has returned.  The lock never
    deadlocks, no marking goes on for ever, and [main] gets through its
    final check. *)
Theorem trial_completes c :
  reachable transitive_mark c →
  ∃ xs c', run transitive_mark c xs = Next c' ∧ finished c'.
Proof.
  intros Hc. apply (completes (S (effort c))); [lia | |].
  - by apply reachable_inv.
  - by apply sound_reachable.
Qed.

Lemma trial_completes_witness :
  ∃ xs c', run transitive_mark chain_config xs = Next c' ∧ finished c'.
Proof.
  apply trial_completes.
  apply (reachable_trial _ chain_choices chain_schedule). vm_compute. reflexivity.
Defined.

(** ** The barrier and the threads in a trial *)

(** X18: under the transitive-mark policy a barrier publishes marked
    objects only.  When a thread of a trial is about to run the store
    [mem[slot].l = mem[val].l] it is a mutator, [val] is its stack slot,
    [slot] is a heap object, and the pointer about to be stored is nil
    or points to a marked object. *)
Theorem store_publishes_marked c slot val k :
  reachable transitive_mark c →
  threads c !! cur c = Some (IStore slot val :: k) →
  ∃ i o, cur c = S i ∧ val = stackBase + i ∧ heap_index slot ∧
         mem (glob c) !! val = Some o ∧ covered (marked (glob c)) (l o).
Proof.
  intros Hc Hk. destruct (reachable_inv _ Hc) as [Hwf Hsh Hlg].
  pose proof (shapes_thread _ _ _ _ Hsh Hk) as Hshape.
  destruct (cur c) as [|i] eqn:Hcur; simpl in Hshape.
  { exfalso. inversion Hshape; subst; unfold go_tail, scan_tail, lock_tail in *;
      try done;
      match goal with
      | H : frames _ ?F |- _ =>
          destruct F as [|? ?]; simplify_eq/=; by apply Forall_cons in H as [? _]
      end. }
  assert (val = stackBase + i ∧ heap_index slot ∧
          k = [ISched; ILoad i; ISched]) as (-> & Hslot & ->).
  { inversion Hshape; subst; unfold mutator, barrier_rest in *; try done;
      match goal with
      | H : frames _ ?F |- _ =>
          destruct F as [|? ?]; simplify_eq/=; by apply Forall_cons in H as [? _]
      end. }
  assert (i < numThreads) as Hi.
  { pose proof (sh_run _ _ _ Hsh _ eq_refl) as Hlt.
    destruct (shapes_length _ _ _ Hsh). consts. lia. }
  destruct (lookup_lt_is_Some_2 (mem (glob c)) (stackBase + i)) as [o Ho].
  { destruct Hwf as [[-> _] _]. consts. lia. }
  exists i, o. split; [done|]. split; [done|]. split; [done|]. split; [done|].
  assert (∀ j, pend (threads c) j →
               match j with IMark _ | IMarkL _ => False | _ => True end) as Hpend.
  { intros j Hj. apply (pend_split _ _ _ _ Hk) in Hj as [Hin|Ho'].
    - set_unfold in Hin. naive_solver.
    - apply (others_susp _ _ _ _ Hsh) in Ho'. by destruct j. }
  assert (pend (threads c) (IStore slot (stackBase + i))) as HP.
  { exists (S i), (IStore slot (stackBase + i) :: [ISched; ILoad i; ISched]).
    split; [done|]. set_unfold. by left. }
  destruct (lg_bw _ _ Hlg i slot o Hi HP Ho) as [?|[Hp|Hp]]; [done| |];
    by apply Hpend in Hp.
Qed.

Lemma store_publishes_marked_witness :
  ∃ i o, cur store_config = S i ∧ 1 = stackBase + i ∧ heap_index 3 ∧
         mem (glob store_config) !! 1 = Some o ∧
         covered (marked (glob store_config)) (l o).
Proof.
  apply (store_publishes_marked store_config 3 1 [ISched; ILoad 0; ISched]).
  - apply (reachable_trial _ chain_choices (take 18 full_schedule)).
    vm_compute. reflexivity.
  - vm_compute. reflexivity.
Defined.

(** X19: under the transitive-mark policy [main] starts its
    [numThreads] mutators and no other thread: a trial never has more
    than [1 + numThreads] threads, and has that many when every thread
    has returned. *)
Theorem thread_count c :
  reachable transitive_mark c →
  1 ≤ length (threads c) ∧ length (threads c) ≤ 1 + numThreads ∧
  (finished c → length (threads c) = 1 + numThreads).
Proof.
  intros Hc. destruct (reachable_inv _ Hc) as [_ Hsh _].
  destruct (shapes_length _ _ _ Hsh) as [H1 H2].
  split; [done|]. split; [consts; lia|]. intros Hfin.
  destruct (sh_main _ _ _ Hsh) as (km & Hkm & Hm).
  assert (km = []) as ->.
  { apply (proj1 (Forall_lookup _ _) Hfin 0 km Hkm). }
  inversion Hm; subst; unfold go_tail, scan_tail, lock_tail in *; try done;
    match goal with
    | H : frames _ ?F |- _ => destruct F as [|? ?]; simplify_eq/=
    end.
Qed.

Lemma thread_count_witness :
  1 ≤ length (threads final_config) ∧
  length (threads final_config) ≤ 1 + numThreads ∧
  (finished final_config → length (threads final_config) = 1 + numThreads).
Proof.
  apply thread_count.
  apply (reachable_trial _ chain_choices full_schedule). vm_compute. reflexivity.
Defined.
